(** * A model of [vector.h]: [RawMemory<T>] and [Vector<T>]

    The C++ classes are embedded over an explicit store: raw blocks obtained
    from [operator new] live in a heap indexed by block identifiers, every
    slot of a block either holds a live object of type [T] or is raw storage,
    and the [Vector] objects themselves live in an object store indexed by
    their address, so that [this != &rhs] and the aliasing of two references
    to the same object are expressible.

    Exceptions are injected by fuses kept in the world: a fallible operation of
    the element type (a constructor, a copy assignment, an allocation) burns
    one unit of [fuse] and throws when none is left; a move operation that is
    not declared [noexcept] does the same with [move_fuse].

    [size_t] is modelled by [nat]: sizes and capacities count objects that
    fit in one allocation, so that [size_ * 2] cannot wrap around. *)

From stdpp Require Import base gmap list option.

Set Default Proof Using "Type".

(** ** The element type

    What the container needs to know about [T]: the value produced by value
    initialisation, the state a moved-from object is left in, and the three
    type traits that select the relocation strategy and tell which move
    operations may throw. *)
Class Element (T : Type) := {
  value_init : T;
  moved_from : T → T;
  is_nothrow_move_constructible : bool;
  is_copy_constructible : bool;
  is_nothrow_move_assignable : bool
}.

(** ** Pointers

    A [T*] is a block and an offset in it; [blk = None] is the null pointer. *)
Record ptr := Ptr { blk : option nat; off : nat }.

Global Instance ptr_eq_dec : EqDecision ptr.
Proof. solve_decision. Defined.

Definition nullptr : ptr := Ptr None 0.

Definition ptr_add (p : ptr) (n : nat) : ptr := Ptr (blk p) (off p + n).

Notation "p +ₚ n" := (ptr_add p n) (at level 50, left associativity).

(** ** The two classes' data members *)
Record RawMemory := mkRawMemory { buffer_ : ptr; capacity_ : nat }.

Record Vector := mkVector { data_ : RawMemory; size_ : nat }.

Section Model.
Context {T : Type} {ET : Element T}.

(** ** The world

    [heap] maps the identifier of every allocated block to its slots
    ([Some x]: a live object of value [x]; [None]: raw storage); [objs] maps
    addresses to the [Vector] objects alive there; [dtors] counts the
    destructor calls made so far and [leaked] the objects whose storage was
    released or reused while they were alive. *)
Record world := World {
  heap : gmap nat (list (option T));
  objs : gmap nat Vector;
  fuse : option nat;
  move_fuse : option nat;
  dtors : nat;
  leaked : nat
}.

(** ** Outcomes and the monad of member functions *)
Inductive outcome (A : Type) : Type :=
  | Ok (a : A) (w : world)      (* normal return *)
  | Throw (w : world)           (* an exception propagates *)
  | Undefined.                  (* failed assertion or undefined behaviour *)
Global Arguments Ok {A} a w.
Global Arguments Throw {A} w.
Global Arguments Undefined {A}.

Definition M (A : Type) : Type := world → outcome A.

Definition ret {A} (a : A) : M A := λ w, Ok a w.

Definition bind {A B} (m : M A) (k : A → M B) : M B := λ w,
  match m w with
  | Ok a w' => k a w'
  | Throw w' => Throw w'
  | Undefined => Undefined
  end.

Definition throw {A} : M A := λ w, Throw w.

Definition undefined {A} : M A := λ _, Undefined.

(** [try { m } catch (...) { h }] *)
Definition try_catch {A} (m : M A) (h : M A) : M A := λ w,
  match m w with
  | Throw w' => h w'
  | r => r
  end.

End Model.

Global Arguments world T : clear implicits.
Global Arguments M T A : clear implicits.
Global Arguments outcome T A : clear implicits.

Declare Scope vec_scope.
Delimit Scope vec_scope with vec.
Notation "x <- m ;; k" := (bind m (λ x, k))
  (at level 100, m at next level, right associativity) : vec_scope.
Notation "m ;; k" := (bind m (λ _, k))
  (at level 100, right associativity) : vec_scope.
Open Scope vec_scope.

Section Primitives.
Context {T : Type} {ET : Element T}.
Abbreviation world := (world T).
Abbreviation M := (M T).

(** [assert(b)] *)
Definition assert (b : bool) : M unit := if b then ret () else undefined.

(** *** Fault injection *)
Definition burn (f : option nat) : option (option nat) :=
  match f with
  | None => Some None
  | Some 0 => None
  | Some (S k) => Some (Some k)
  end.

(** A fallible operation of [T] or of the allocator. *)
Definition tick : M unit := λ w,
  match burn (fuse w) with
  | Some f => Ok () (World (heap w) (objs w) f (move_fuse w) (dtors w) (leaked w))
  | None => Throw (World (heap w) (objs w) None (move_fuse w) (dtors w) (leaked w))
  end.

(** A move operation: it cannot throw when declared [noexcept]. *)
Definition tick_move (nothrow : bool) : M unit := λ w,
  if nothrow then Ok () w else
  match burn (move_fuse w) with
  | Some f => Ok () (World (heap w) (objs w) (fuse w) f (dtors w) (leaked w))
  | None => Throw (World (heap w) (objs w) (fuse w) None (dtors w) (leaked w))
  end.

Definition count_dtor : M unit := λ w,
  Ok () (World (heap w) (objs w) (fuse w) (move_fuse w) (S (dtors w)) (leaked w)).

Definition count_leaks (n : nat) : M unit := λ w,
  Ok () (World (heap w) (objs w) (fuse w) (move_fuse w) (dtors w) (leaked w + n)).

(** *** Pointer arithmetic and slots *)
Definition ptr_sub (p : ptr) (n : nat) : M ptr :=
  if decide (n ≤ off p) then ret (Ptr (blk p) (off p - n)) else undefined.

(** [p - q], defined for two pointers into the same block with [q <= p]. *)
Definition ptr_diff (p q : ptr) : M nat :=
  if decide (blk p = blk q ∧ off q ≤ off p) then ret (off p - off q)
  else undefined.

Definition load (p : ptr) : M (option T) := λ w,
  match blk p with
  | None => Undefined
  | Some b =>
    match heap w !! b with
    | None => Undefined
    | Some cs =>
      match cs !! off p with
      | None => Undefined
      | Some c => Ok c w
      end
    end
  end.

Definition store (p : ptr) (c : option T) : M unit := λ w,
  match blk p with
  | None => Undefined
  | Some b =>
    match heap w !! b with
    | None => Undefined
    | Some cs =>
      if decide (off p < length cs) then
        Ok () (World (<[b := <[off p := c]> cs]> (heap w)) (objs w) (fuse w)
                     (move_fuse w) (dtors w) (leaked w))
      else Undefined
    end
  end.

(** Reading through a pointer needs a live object there. *)
Definition read (p : ptr) : M T :=
  c <- load p;;
  match c with
  | Some x => ret x
  | None => undefined
  end.

(** Beginning the lifetime of an object of value [x] at [p]; an object that
    was still alive there is lost without its destructor being run. *)
Definition place (p : ptr) (x : T) : M unit :=
  c <- load p;;
  (if c is Some _ then count_leaks 1 else ret ());;
  store p (Some x).

(** *** Operations of [T] on slots *)

(** [new (p) T(args...)], where [x] is the value the constructor builds. *)
Definition construct_at (p : ptr) (x : T) : M unit :=
  tick;; place p x.

(** [new (p) T()] *)
Definition value_construct_at (p : ptr) : M unit :=
  tick;; place p value_init.

(** placement new at [dst] of a copy of the object at [src] *)
Definition copy_construct_at (dst src : ptr) : M unit :=
  x <- read src;; tick;; place dst x.

(** placement new at [dst], move-constructed from the object at [src] *)
Definition move_construct_at (dst src : ptr) : M unit :=
  x <- read src;;
  tick_move is_nothrow_move_constructible;;
  place dst x;;
  store src (Some (moved_from x)).

(** copy assignment of the object at [src] to the one at [dst] *)
Definition copy_assign_at (dst src : ptr) : M unit :=
  x <- read src;; _ <- read dst;; tick;; store dst (Some x).

(** move assignment of the object at [src] to the one at [dst] *)
Definition move_assign_at (dst src : ptr) : M unit :=
  x <- read src;; _ <- read dst;;
  tick_move is_nothrow_move_assignable;;
  store dst (Some x);;
  store src (Some (moved_from x)).

(** move assignment of a local object [t] of value [x] to the one at [dst] *)
Definition move_assign_local (dst : ptr) (x : T) : M unit :=
  _ <- read dst;;
  tick_move is_nothrow_move_assignable;;
  store dst (Some x).

(** [std::destroy_at(p)], [p->~T()] *)
Definition destroy_at (p : ptr) : M unit :=
  _ <- read p;; store p None;; count_dtor.

(** *** The algorithms of [<memory>] and [<algorithm>] the class calls *)

Fixpoint destroy_n (first : ptr) (n : nat) : M unit :=
  match n with
  | 0 => ret ()
  | S n' => destroy_at first;; destroy_n (first +ₚ 1) n'
  end.

(** The [uninitialized_*] algorithms construct left to right and, when a
    constructor throws, destroy what they had constructed and rethrow;
    [k] counts the objects already constructed at [d_first]. *)
Fixpoint uninitialized_copy_from (k : nat) (first : ptr) (n : nat) (d_first : ptr)
  : M unit :=
  match n with
  | 0 => ret ()
  | S n' =>
    try_catch (copy_construct_at (d_first +ₚ k) (first +ₚ k))
              (destroy_n d_first k;; throw);;
    uninitialized_copy_from (S k) first n' d_first
  end.

Definition uninitialized_copy_n (first : ptr) (n : nat) (d_first : ptr) : M unit :=
  uninitialized_copy_from 0 first n d_first.

Fixpoint uninitialized_move_from (k : nat) (first : ptr) (n : nat) (d_first : ptr)
  : M unit :=
  match n with
  | 0 => ret ()
  | S n' =>
    try_catch (move_construct_at (d_first +ₚ k) (first +ₚ k))
              (destroy_n d_first k;; throw);;
    uninitialized_move_from (S k) first n' d_first
  end.

Definition uninitialized_move_n (first : ptr) (n : nat) (d_first : ptr) : M unit :=
  uninitialized_move_from 0 first n d_first.

Fixpoint uninitialized_value_construct_from (k : nat) (first : ptr) (n : nat)
  : M unit :=
  match n with
  | 0 => ret ()
  | S n' =>
    try_catch (value_construct_at (first +ₚ k))
              (destroy_n first k;; throw);;
    uninitialized_value_construct_from (S k) first n'
  end.

Definition uninitialized_value_construct_n (first : ptr) (n : nat) : M unit :=
  uninitialized_value_construct_from 0 first n.

(** [std::copy_n(first, n, d_first)] *)
Fixpoint copy_n (first : ptr) (n : nat) (d_first : ptr) : M unit :=
  match n with
  | 0 => ret ()
  | S n' => copy_assign_at d_first first;; copy_n (first +ₚ 1) n' (d_first +ₚ 1)
  end.

(** [std::copy(first, last, d_first)] *)
Definition copy (first last d_first : ptr) : M unit :=
  n <- ptr_diff last first;; copy_n first n d_first.

(** [std::move(first, last, d_first)]: forward move assignment; returns the
    end of the destination range. *)
Fixpoint move_n (first : ptr) (n : nat) (d_first : ptr) : M ptr :=
  match n with
  | 0 => ret d_first
  | S n' => move_assign_at d_first first;; move_n (first +ₚ 1) n' (d_first +ₚ 1)
  end.

Definition move (first last d_first : ptr) : M ptr :=
  n <- ptr_diff last first;; move_n first n d_first.

(** [std::move_backward(first, last, d_last)] *)
Fixpoint move_backward_n (n : nat) (last d_last : ptr) : M ptr :=
  match n with
  | 0 => ret d_last
  | S n' =>
    l <- ptr_sub last 1;;
    d <- ptr_sub d_last 1;;
    move_assign_at d l;;
    move_backward_n n' l d
  end.

Definition move_backward (first last d_last : ptr) : M ptr :=
  n <- ptr_diff last first;; move_backward_n n last d_last.

End Primitives.

(** ** [RawMemory<T>] *)
Section RawMemoryClass.
Context {T : Type} {ET : Element T}.
Abbreviation world := (world T).
Abbreviation M := (M T).

Definition live_count (cs : list (option T)) : nat := length (omap id cs).

(** [operator new(n * sizeof(T))]: a block of [n] raw slots that no other
    allocated block shares; it may fail with [bad_alloc]. *)
Definition operator_new (n : nat) : M ptr :=
  tick;;
  λ w, let b := fresh (dom (heap w)) in
       Ok (Ptr (Some b) 0)
          (World (<[b := replicate n None]> (heap w)) (objs w) (fuse w)
                 (move_fuse w) (dtors w) (leaked w)).

(** [operator delete(buf)]: nothing for the null pointer; the objects still
    alive in a released block are leaked. *)
Definition operator_delete (buf : ptr) : M unit := λ w,
  match blk buf with
  | None => Ok () w
  | Some b =>
    match heap w !! b with
    | None => Undefined
    | Some cs =>
      if decide (off buf = 0) then
        Ok () (World (delete b (heap w)) (objs w) (fuse w) (move_fuse w)
                     (dtors w) (leaked w + live_count cs))
      else Undefined
    end
  end.

Definition Allocate (n : nat) : M ptr :=
  if decide (n ≠ 0) then operator_new n else ret nullptr.

Definition Deallocate (buf : ptr) : M unit := operator_delete buf.

(** [RawMemory() = default] *)
Definition RawMemory_default : RawMemory := mkRawMemory nullptr 0.

(** [explicit RawMemory(size_t capacity)] *)
Definition RawMemory_new (capacity : nat) : M RawMemory :=
  buf <- Allocate capacity;;
  ret (mkRawMemory buf capacity).

(** [~RawMemory()] *)
Definition RawMemory_dtor (rm : RawMemory) : M unit := Deallocate (buffer_ rm).

(** [T *operator+(size_t offset)] *)
Definition RawMemory_plus (rm : RawMemory) (offset : nat) : M ptr :=
  assert (bool_decide (offset ≤ capacity_ rm));;
  ret (buffer_ rm +ₚ offset).

(** [T &operator[](size_t index)]: the reference is the slot's address. *)
Definition RawMemory_index (rm : RawMemory) (index : nat) : M ptr :=
  assert (bool_decide (index < capacity_ rm));;
  ret (buffer_ rm +ₚ index).

(** [void Swap(RawMemory &other)]: the two objects after the exchange. *)
Definition RawMemory_Swap (this other : RawMemory) : RawMemory * RawMemory :=
  (mkRawMemory (buffer_ other) (capacity_ other),
   mkRawMemory (buffer_ this) (capacity_ this)).

(** [RawMemory(RawMemory &&other) noexcept]: the new object, whose members
    start from their default initialisers, and [other] after the exchange. *)
Definition RawMemory_move (other : RawMemory) : RawMemory * RawMemory :=
  RawMemory_Swap RawMemory_default other.

(** [RawMemory &operator=(RawMemory &&rhs) noexcept]: the two objects
    after the exchange. *)
Definition RawMemory_assign_move (this rhs : RawMemory) : RawMemory * RawMemory :=
  RawMemory_Swap this rhs.

Definition GetAddress (rm : RawMemory) : ptr := buffer_ rm.

Definition RawMemory_Capacity (rm : RawMemory) : nat := capacity_ rm.

End RawMemoryClass.

(** ** [Vector<T>] *)
Section VectorClass.
Context {T : Type} {ET : Element T}.
Abbreviation world := (world T).
Abbreviation M := (M T).

(** *** Access to the object at address [this] *)
Definition object (this : nat) : M Vector := λ w,
  match objs w !! this with
  | Some v => Ok v w
  | None => Undefined
  end.

Definition set_object (this : nat) (v : Vector) : M unit := λ w,
  Ok () (World (heap w) (<[this := v]> (objs w)) (fuse w) (move_fuse w)
               (dtors w) (leaked w)).

Definition end_object (this : nat) : M unit := λ w,
  Ok () (World (heap w) (delete this (objs w)) (fuse w) (move_fuse w)
               (dtors w) (leaked w)).

(** The address of a new automatic object. *)
Definition local_address : M nat := λ w, Ok (fresh (dom (objs w))) w.

Definition get_data_ (this : nat) : M RawMemory :=
  v <- object this;; ret (data_ v).

Definition get_size_ (this : nat) : M nat :=
  v <- object this;; ret (size_ v).

Definition set_data_ (this : nat) (d : RawMemory) : M unit :=
  v <- object this;; set_object this (mkVector d (size_ v)).

Definition set_size_ (this : nat) (n : nat) : M unit :=
  v <- object this;; set_object this (mkVector (data_ v) n).

(** [unwind cleanup body]: [body] runs in the scope of automatic objects
    whose destructors are [cleanup]; they run if an exception leaves it. *)
Definition unwind {A} (cleanup : M unit) (body : M A) : M A :=
  try_catch body (cleanup;; throw).

(** *** Observers *)
Definition Size (this : nat) : M nat := get_size_ this.

Definition Capacity (this : nat) : M nat :=
  d <- get_data_ this;; ret (RawMemory_Capacity d).

Definition begin_ (this : nat) : M ptr :=
  d <- get_data_ this;; ret (GetAddress d).

Definition end_ (this : nat) : M ptr :=
  d <- get_data_ this;; s <- get_size_ this;; ret (GetAddress d +ₚ s).

Definition cbegin (this : nat) : M ptr := begin_ this.

Definition cend (this : nat) : M ptr := end_ this.

(** [T &operator[](size_t index)] *)
Definition index (this : nat) (i : nat) : M ptr :=
  s <- get_size_ this;;
  assert (bool_decide (i < s));;
  d <- get_data_ this;;
  RawMemory_index d i.

(** *** Swap, construction, destruction *)

(** [void Swap(Vector &other) noexcept] *)
Definition Swap (this other : nat) : M unit :=
  d <- get_data_ this;; od <- get_data_ other;;
  set_data_ this (RawMemory_Swap d od).1;;
  set_data_ other (RawMemory_Swap d od).2;;
  s <- get_size_ this;; os <- get_size_ other;;
  set_size_ this os;;
  set_size_ other s.

(** [Vector() = default] *)
Definition Vector_default (this : nat) : M unit :=
  set_object this (mkVector RawMemory_default 0).

(** [explicit Vector(size_t size)]; if the body throws, the member [data_]
    is destroyed and no object comes to exist. *)
Definition Vector_sized (this : nat) (size : nat) : M unit :=
  d <- RawMemory_new size;;
  set_object this (mkVector d size);;
  unwind (RawMemory_dtor d;; end_object this)
    (uninitialized_value_construct_n (GetAddress d) size).

(** [~Vector()] *)
Definition Vector_dtor (this : nat) : M unit :=
  d <- get_data_ this;; s <- get_size_ this;;
  destroy_n (GetAddress d) s;;
  RawMemory_dtor d;;
  end_object this.

(** [Vector(const Vector &other)] *)
Definition Vector_copy (this other : nat) : M unit :=
  osize <- get_size_ other;;
  d <- RawMemory_new osize;;
  set_object this (mkVector d osize);;
  od <- get_data_ other;;
  unwind (RawMemory_dtor d;; end_object this)
    (uninitialized_copy_n (GetAddress od) osize (GetAddress d)).

(** [Vector(Vector &&other) noexcept] *)
Definition Vector_move (this other : nat) : M unit :=
  Vector_default this;;
  Swap this other.

(** *** Assignment *)

(** [Vector &operator=(const Vector &rhs)] *)
Definition operator_assign (this rhs : nat) : M unit :=
  if decide (this ≠ rhs) then
    rsize <- get_size_ rhs;;
    cap <- Capacity this;;
    if decide (cap < rsize) then
      rhs_copy <- local_address;;
      Vector_copy rhs_copy rhs;;
      Swap this rhs_copy;;
      Vector_dtor rhs_copy
    else
      size <- get_size_ this;;
      (if decide (rsize < size) then
         rb <- begin_ rhs;; re <- end_ rhs;; b <- begin_ this;;
         copy rb re b;;
         destroy_n (b +ₚ rsize) (size - rsize)
       else
         rb <- begin_ rhs;; b <- begin_ this;;
         copy_n rb size b;;
         uninitialized_copy_n (b +ₚ size) (rsize - size) (b +ₚ size));;
      set_size_ this rsize
  else ret ().

(** [Vector &operator=(Vector &&rhs) noexcept] *)
Definition operator_assign_move (this rhs : nat) : M unit :=
  Swap this rhs.

(** *** Capacity *)

(** [void CopyMoveNElements(iterator first, size_t count, iterator first_d)] *)
Definition CopyMoveNElements (first : ptr) (count : nat) (first_d : ptr) : M unit :=
  if is_nothrow_move_constructible || negb is_copy_constructible then
    uninitialized_move_n first count first_d
  else
    uninitialized_copy_n first count first_d.

(** [void Reserve(size_t new_capacity)] *)
Definition Reserve (this : nat) (new_capacity : nat) : M unit :=
  cap <- Capacity this;;
  if decide (new_capacity ≤ cap) then ret ()
  else
    new_data <- RawMemory_new new_capacity;;
    d <- get_data_ this;; size <- get_size_ this;;
    unwind (RawMemory_dtor new_data)
      (CopyMoveNElements (GetAddress d) size (GetAddress new_data);;
       destroy_n (GetAddress d) size);;
    set_data_ this (RawMemory_Swap d new_data).1;;
    RawMemory_dtor (RawMemory_Swap d new_data).2.

(** [void Resize(size_t new_size)] *)
Definition Resize (this : nat) (new_size : nat) : M unit :=
  size <- get_size_ this;;
  if decide (size = new_size) then ret ()
  else
    (if decide (new_size < size) then
       d <- get_data_ this;;
       destroy_n (GetAddress d +ₚ new_size) (size - new_size)
     else
       Reserve this new_size;;
       d <- get_data_ this;;
       uninitialized_value_construct_n (GetAddress d +ₚ size) (new_size - size));;
    set_size_ this new_size.

(** *** Insertion and removal *)

(** The growth policy of [Emplace]. *)
Definition new_capacity_for (size : nat) : nat :=
  if decide (size = 0) then 1 else size * 2.

(** [iterator Emplace(const_iterator pos, Args &&...args)]; [x] is the value
    that [T{args...}] constructs. *)
Definition Emplace (this : nat) (pos : ptr) (x : T) : M ptr :=
  b <- begin_ this;;
  offset <- ptr_diff pos b;;
  size <- get_size_ this;;
  cap <- Capacity this;;
  (if decide (size = cap) then
     let new_capacity := new_capacity_for size in
     new_data <- RawMemory_new new_capacity;;
     unwind (RawMemory_dtor new_data)
       (p <- RawMemory_plus new_data offset;;
        construct_at p x;;
        try_catch
          (CopyMoveNElements b offset (GetAddress new_data))
          (p <- RawMemory_plus new_data offset;; destroy_at p;; throw);;
        ce <- cend this;;
        (if decide (pos ≠ ce) then
           try_catch
             (CopyMoveNElements (b +ₚ offset) (size - offset)
                                (GetAddress new_data +ₚ offset +ₚ 1))
             (destroy_n (GetAddress new_data) (offset + 1);; throw)
         else ret ());;
        destroy_n b size);;
     d <- get_data_ this;;
     set_data_ this (RawMemory_Swap d new_data).1;;
     RawMemory_dtor (RawMemory_Swap d new_data).2
   else
     ce <- cend this;;
     if decide (pos = ce) then
       e <- end_ this;;
       construct_at e x
     else
       (* the local [T t(args...)] and its destruction at scope exit *)
       tick;;
       unwind count_dtor
         (e <- end_ this;;
          last <- ptr_sub e 1;;
          move_construct_at e last;;
          move_backward (b +ₚ offset) last e;;
          d <- get_data_ this;;
          p <- RawMemory_index d offset;;
          move_assign_local p x);;
       count_dtor);;
  set_size_ this (size + 1);;
  b' <- begin_ this;;
  ret (b' +ₚ offset).

(** [T &EmplaceBack(Args &&...args)] *)
Definition EmplaceBack (this : nat) (x : T) : M ptr :=
  e <- end_ this;;
  Emplace this e x.

(** [void PushBack(const T &value)], [void PushBack(T &&value)] *)
Definition PushBack (this : nat) (value : T) : M unit :=
  EmplaceBack this value;; ret ().

(** [iterator Insert(const_iterator pos, const T &value)] and the overload
    taking [T &&value] *)
Definition Insert (this : nat) (pos : ptr) (value : T) : M ptr :=
  Emplace this pos value.

(** [static void Destroy(T *buf) noexcept] *)
Definition Destroy (buf : ptr) : M unit := destroy_at buf.

(** [iterator Erase(const_iterator pos)] *)
Definition Erase (this : nat) (pos : ptr) : M ptr :=
  e <- end_ this;;
  assert (bool_decide (pos ≠ e));;
  let pos_it := pos in
  e <- end_ this;;
  element_to_del <- move (pos_it +ₚ 1) e pos_it;;
  Destroy element_to_del;;
  size <- get_size_ this;;
  set_size_ this (size - 1);;
  ret pos_it.

(** [void PopBack() noexcept] *)
Definition PopBack (this : nat) : M unit :=
  size <- get_size_ this;;
  assert (bool_decide (0 < size));;
  d <- get_data_ this;;
  p <- RawMemory_index d (size - 1);;
  destroy_at p;;
  set_size_ this (size - 1).

End VectorClass.

(** * Reasoning about executions *)

(** * Specification vocabulary

    The predicates and functions in which the properties of the class are
    stated: fuses, relocation, the representation invariant, footprints,
    the class invariant, and the operations as calls. *)
Section Specification.
Context {T : Type} {ET : Element T}.
Abbreviation world := (world T).
Abbreviation M := (M T).
Implicit Types (h : gmap nat (list (option T))) (o : gmap nat Vector).
Implicit Types (f mf : option nat) (d l : nat) (w : world).
Implicit Types (cs pre post : list (option T)) (xs ys : list T).

(** *** Fuses

    [passes n f]: [n] fallible operations in a row succeed on fuse [f];
    [spend n f] is what is left of the fuse afterwards. *)
Definition passes (n : nat) f : Prop :=
  match f with None => True | Some m => n ≤ m end.

Global Instance passes_dec n f : Decision (passes n f).
Proof. destruct f; simpl; apply _. Defined.

Definition spend (n : nat) f : option nat := (λ m, m - n) <$> f.

(** Moves that cannot throw: by their [noexcept] declaration, or because no
    fault is scheduled for them. *)
Definition move_ok (nothrow : bool) mf : Prop := nothrow = true ∨ mf = None.

(** *** [std::move] of a range one slot towards the front of its block

    The slot that held [a] is overwritten; the slot left behind at the end
    of the range holds [vacated a xs], a moved-from object unless the range
    was empty. *)
Fixpoint vacated (a : T) (xs : list T) : T :=
  match xs with
  | [] => a
  | x :: xs' => vacated (moved_from x) xs'
  end.

(** *** [std::move_backward] of a range one slot towards the end *)
Definition vacated_front (a : T) (xs : list T) : T :=
  match xs with
  | [] => a
  | x :: _ => moved_from x
  end.

(** *** Relocation

    [by_move] is the condition of the [if constexpr] in [CopyMoveNElements]. *)
Definition by_move : bool :=
  is_nothrow_move_constructible || negb is_copy_constructible.

(** What relocation leaves in the source slots. *)
Definition relocated xs : list T := if by_move then moved_from <$> xs else xs.

(** How many fallible operations a successful relocation performs. *)
Definition reloc_ticks (n : nat) : nat := if by_move then 0 else n.

(** ** The representation invariant of a [Vector]

    [cells xs cap]: a block of [cap] slots whose first [length xs] slots hold
    the live objects [xs] and whose other slots are raw.  [rep h v xs]: in
    heap [h] the object [v] is a vector of elements [xs]: its length is
    [length xs], at most its capacity, and its buffer is the null pointer
    (capacity 0) or a block laid out as [cells xs capacity]. *)
Definition cells xs (cap : nat) : list (option T) :=
  (Some <$> xs) ++ replicate (cap - length xs) None.

Inductive rep h (v : Vector) xs : Prop :=
  | rep_null :
      v = mkVector (mkRawMemory nullptr 0) 0 → xs = [] → rep h v xs
  | rep_block b cap :
      v = mkVector (mkRawMemory (Ptr (Some b) 0) cap) (length xs) →
      cap ≠ 0 → length xs ≤ cap → h !! b = Some (cells xs cap) →
      rep h v xs.

(** The heap once the block of [buf] has been released. *)
Definition release (buf : ptr) h : gmap nat (list (option T)) :=
  match blk buf with
  | Some b => delete b h
  | None => h
  end.

(** *** The footprint of a member function

    [frame h v h' v']: going from heap [h] to [h'], the call changed no
    allocated block but the one of its object [v], and the block the object
    ends with is its old one or was not allocated before. *)
Definition block_of (v : Vector) : option nat := blk (buffer_ (data_ v)).

Definition frame h (v : Vector) h' (v' : Vector) : Prop :=
  (∀ b, is_Some (h !! b) → block_of v ≠ Some b → h' !! b = h !! b) ∧
  (∀ b, block_of v' = Some b → block_of v = Some b ∨ h !! b = None).

(** The part of the growth path that runs while the new block is still the
    automatic object [new_data]. *)
Definition grow_body (this : nat) (old : ptr) (pos : ptr) (offset size : nat)
    (new_data : RawMemory) (x : T) : M unit :=
  p <- RawMemory_plus new_data offset;;
  construct_at p x;;
  try_catch
    (CopyMoveNElements old offset (GetAddress new_data))
    (p <- RawMemory_plus new_data offset;; destroy_at p;; throw);;
  ce <- cend this;;
  (if decide (pos ≠ ce) then
     try_catch
       (CopyMoveNElements (old +ₚ offset) (size - offset)
                          (GetAddress new_data +ₚ offset +ₚ 1))
       (destroy_n (GetAddress new_data) (offset + 1);; throw)
   else ret ());;
  destroy_n old size.

Definition empty_vector : Vector := mkVector RawMemory_default 0.

(** ** The class invariant

    [vector_inv h v] is the invariant of the data model: the length is at
    most the capacity, the buffer is null exactly when the capacity is 0,
    and otherwise it is a block of [capacity] slots of which exactly those
    at the indices below the length hold a live object. *)
Definition live_exactly (cs : list (option T)) (n : nat) : Prop :=
  ∀ j c, cs !! j = Some c → (is_Some c ↔ j < n).

Definition vector_inv h (v : Vector) : Prop :=
  size_ v ≤ capacity_ (data_ v) ∧
  off (buffer_ (data_ v)) = 0 ∧
  match blk (buffer_ (data_ v)) with
  | None => capacity_ (data_ v) = 0
  | Some b =>
    capacity_ (data_ v) ≠ 0 ∧
    ∃ cs, h !! b = Some cs ∧ length cs = capacity_ (data_ v) ∧
          live_exactly cs (size_ v)
  end.

(** A world is well formed when every vector satisfies the invariant and
    no two vectors share a block. *)
Definition wf (w : world) : Prop :=
  (∀ a v, objs w !! a = Some v → vector_inv (heap w) v) ∧
  (∀ a1 a2 v1 v2 b,
     objs w !! a1 = Some v1 → objs w !! a2 = Some v2 →
     block_of v1 = Some b → block_of v2 = Some b → a1 = a2).

(** ** The operations of the class, as calls on objects of the store *)
Inductive op : Type :=
  | call_Vector (this : nat)
  | call_Vector_sized (this size : nat)
  | call_Vector_copy (this other : nat)
  | call_Vector_move (this other : nat)
  | call_assign (this rhs : nat)
  | call_assign_move (this rhs : nat)
  | call_Swap (this other : nat)
  | call_Reserve (this n : nat)
  | call_Resize (this n : nat)
  | call_PushBack (this : nat) (x : T)
  | call_Emplace (this i : nat) (x : T)
  | call_Insert (this i : nat) (x : T)
  | call_Erase (this i : nat)
  | call_PopBack (this : nat).

(** Positions are given by their index: the iterator is [begin() + i]. *)
Definition run (c : op) : M unit :=
  match c with
  | call_Vector this => Vector_default this
  | call_Vector_sized this size => Vector_sized this size
  | call_Vector_copy this other => Vector_copy this other
  | call_Vector_move this other => Vector_move this other
  | call_assign this rhs => operator_assign this rhs
  | call_assign_move this rhs => operator_assign_move this rhs
  | call_Swap this other => Swap this other
  | call_Reserve this n => Reserve this n
  | call_Resize this n => Resize this n
  | call_PushBack this x => PushBack this x
  | call_Emplace this i x => b <- begin_ this;; Emplace this (b +ₚ i) x;; ret ()
  | call_Insert this i x => b <- begin_ this;; Insert this (b +ₚ i) x;; ret ()
  | call_Erase this i => b <- begin_ this;; Erase this (b +ₚ i);; ret ()
  | call_PopBack this => PopBack this
  end.

(** What the caller owes: constructors run on storage that holds no object,
    the other functions on existing objects, positions are in range, and
    [PopBack] and [Erase] need an element to remove. *)
Definition exists_with (P : Vector → Prop) (w : world) (a : nat) : Prop :=
  match objs w !! a with
  | Some v => P v
  | None => False
  end.

Definition contract (c : op) (w : world) : Prop :=
  match c with
  | call_Vector this | call_Vector_sized this _ => objs w !! this = None
  | call_Vector_copy this other | call_Vector_move this other =>
    objs w !! this = None ∧ exists_with (λ _, True) w other
  | call_assign this rhs | call_assign_move this rhs | call_Swap this rhs =>
    exists_with (λ _, True) w this ∧ exists_with (λ _, True) w rhs
  | call_Reserve this _ | call_Resize this _ | call_PushBack this _ =>
    exists_with (λ _, True) w this
  | call_Emplace this i _ | call_Insert this i _ =>
    exists_with (λ v, i ≤ size_ v) w this
  | call_Erase this i => exists_with (λ v, i < size_ v) w this
  | call_PopBack this => exists_with (λ v, 0 < size_ v) w this
  end.

(** No exception is scheduled. *)
Definition no_faults (w : world) : Prop := fuse w = None ∧ move_fuse w = None.

(** ** Appending a sequence of elements *)
Fixpoint PushBack_all (this : nat) (xs : list T) : M unit :=
  match xs with
  | [] => ret ()
  | x :: xs' => PushBack this x;; PushBack_all this xs'
  end.

(** The capacity after [n] appends to an empty vector, by the growth rule. *)
Fixpoint doubling (n : nat) : nat :=
  match n with
  | 0 => 0
  | S n' => if decide (n' = doubling n') then new_capacity_for n'
            else doubling n'
  end.

(** The object that a single-object mutating call works on. *)
Definition mutated (c : op) : option nat :=
  match c with
  | call_Reserve this _ | call_Resize this _ | call_PushBack this _
  | call_Emplace this _ _ | call_Insert this _ _ | call_Erase this _
  | call_PopBack this | call_assign this _ => Some this
  | _ => None
  end.

(** The copy assignments that take the path of [operator=] on which the
    target's slots past its length are copy-constructed from themselves:
    the source is another vector, longer than the target and no longer than
    the target's capacity. *)
Definition raw_read (c : op) (w : world) : Prop :=
  match c with
  | call_assign this rhs =>
    this ≠ rhs ∧
    match objs w !! this, objs w !! rhs with
    | Some v, Some r => size_ v < size_ r ∧ size_ r ≤ capacity_ (data_ v)
    | _, _ => False
    end
  | _ => False
  end.

(** *** Exception safety and [noexcept]

    The strong exception guarantee: the heap, the objects and the count of
    lost objects are those before the call. *)
Definition unchanged (w w' : world) : Prop :=
  heap w' = heap w ∧ objs w' = objs w ∧ leaked w' = leaked w.

(** The calls whose function is declared [noexcept] in the source, or is
    the defaulted default constructor. *)
Definition is_noexcept (c : op) : bool :=
  match c with
  | call_Vector _ | call_Vector_move _ _ | call_assign_move _ _
  | call_Swap _ _ | call_PopBack _ => true
  | _ => false
  end.

(** ** Executions without faults

    [calm w] is [w] with no exception scheduled.  A computation is [Stable]
    when every run that returns is also a run of the calm world, with the
    same result: scheduling faults can only make it throw.  [NoReturn]
    computations never return normally (handlers that rethrow). *)
Definition calm w : world :=
  World (heap w) (objs w) None None (dtors w) (leaked w).

Class Stable {A} (m : M A) : Prop :=
  stable : ∀ w a w', m w = Ok a w' → m (calm w) = Ok a (calm w').

Class NoReturn {A} (m : M A) : Prop :=
  no_return : ∀ w a w', m w ≠ Ok a w'.

End Specification.

(** * Concrete element types and worlds

    [int_Element]: a type like [int], whose moves are [noexcept] and leave
    the source as it was.  [copied_Element]: a type whose move constructor
    may throw and which is copy constructible, so that it is relocated by
    copy; its moved-from objects hold 0. *)
Definition int_Element : Element nat :=
  {| value_init := 0; moved_from := λ x, x;
     is_nothrow_move_constructible := true;
     is_copy_constructible := true;
     is_nothrow_move_assignable := true |}.

Definition copied_Element : Element nat :=
  {| value_init := 0; moved_from := λ _, 0;
     is_nothrow_move_constructible := false;
     is_copy_constructible := true;
     is_nothrow_move_assignable := false |}.

Definition world0 : world nat := World ∅ ∅ None None 0 0.

(** The world a program leaves when it returns. *)
Definition after {A} (m : M nat A) (w : world nat) : world nat :=
  match m w with
  | Ok _ w' => w'
  | _ => w
  end.

(** The world in which the next fallible operations succeed [k] times. *)
Definition armed (k : nat) (w : world nat) : world nat :=
  World (heap w) (objs w) (Some k) (move_fuse w) (dtors w) (leaked w).

(** The world in which the next move operations that may throw succeed [k]
    times. *)
Definition armed_move (k : nat) (w : world nat) : world nat :=
  World (heap w) (objs w) (fuse w) (Some k) (dtors w) (leaked w).

Section IntWorlds.
#[local] Existing Instance int_Element.

(** One vector at address 0, of elements 1, 2, 3 and capacity 4. *)
Definition three : world nat :=
  after (Vector_default 0;; PushBack 0 1;; PushBack 0 2;; PushBack 0 3) world0.

Definition three_vector : Vector := mkVector (mkRawMemory (Ptr (Some 2) 0) 4) 3.

(** Two vectors: at address 0 the element 5 with capacity 4, at address 1
    the elements 7, 8, 9 with capacity 4. *)
Definition target_and_source : world nat :=
  after (Vector_default 0;; Reserve 0 4;; PushBack 0 5;;
         Vector_default 1;; PushBack 1 7;; PushBack 1 8;; PushBack 1 9) world0.

Definition target_vector : Vector := mkVector (mkRawMemory (Ptr (Some 0) 0) 4) 1.

Definition source_vector : Vector := mkVector (mkRawMemory (Ptr (Some 3) 0) 4) 3.

End IntWorlds.

Section CopiedWorlds.
#[local] Existing Instance copied_Element.

(** A full vector of the copied type at address 0: elements 1, 2,
    capacity 2. *)
Definition full_two : world nat :=
  after (Vector_default 0;; PushBack 0 1;; PushBack 0 2) world0.

Definition full_two_vector : Vector := mkVector (mkRawMemory (Ptr (Some 1) 0) 2) 2.

End CopiedWorlds.

Section MoreIntWorlds.
#[local] Existing Instance int_Element.

(** The vector of [three] and a default-constructed vector at address 1. *)
Definition empty_and_three : world nat := after (Vector_default 1) three.

End MoreIntWorlds.

Section MoreCopiedWorlds.
#[local] Existing Instance copied_Element.

(** A vector of the copied type at address 0: elements 1, 2, capacity 4. *)
Definition spare_two : world nat :=
  after (Vector_default 0;; Reserve 0 4;; PushBack 0 1;; PushBack 0 2) world0.

Definition spare_two_vector : Vector := mkVector (mkRawMemory (Ptr (Some 0) 0) 4) 2.

End MoreCopiedWorlds.

Section RawWorlds.
#[local] Existing Instance int_Element.

(** Two blocks of raw storage, of 2 and of 3 slots. *)
Definition two_blocks : world nat :=
  after (RawMemory_new 2;; RawMemory_new 3) world0.

End RawWorlds.

(** * Faults only make a call throw *)
Section Stability.
Context {T : Type} {ET : Element T}.
Abbreviation world := (world T).
Abbreviation M := (M T).

Lemma calm_calm (w : world) : calm (calm w) = calm w.
Proof. done. Qed.

Global Instance ret_stable {A} (a : A) : Stable (ret a : M A).
Proof. intros w a' w' [= <- <-]. done. Qed.

Global Instance bind_stable {A B} (m : M A) (k : A → M B) :
  Stable m → (∀ a, Stable (k a)) → Stable (bind m k).
Proof.
  intros Hm Hk w b w' Hrun. unfold bind in *.
  destruct (m w) as [a w1| |] eqn:Hmw; try done.
  rewrite (Hm _ _ _ Hmw). by apply Hk.
Qed.

Global Instance throw_no_return {A} : NoReturn (throw : M A).
Proof. by intros w a w'. Qed.

Global Instance bind_no_return {A B} (m : M A) (k : A → M B) :
  (∀ a, NoReturn (k a)) → NoReturn (bind m k).
Proof.
  intros Hk w b w'. unfold bind. destruct (m w); try done. apply Hk.
Qed.

Global Instance undefined_stable {A} : Stable (undefined : M A).
Proof. by intros w a w'. Qed.

Global Instance throw_stable {A} : Stable (throw : M A).
Proof. by intros w a w'. Qed.

Global Instance try_catch_stable {A} (m hd : M A) :
  Stable m → NoReturn hd → Stable (try_catch m hd).
Proof.
  intros Hm Hh w a w' Hrun. unfold try_catch in *.
  destruct (m w) as [a1 w1|w1|] eqn:Hmw; try done.
  - injection Hrun as -> ->. by rewrite (Hm _ _ _ Hmw).
  - by apply Hh in Hrun.
Qed.

Global Instance unwind_stable {A} (cleanup : M unit) (body : M A) :
  Stable body → Stable (unwind cleanup body).
Proof. intros. unfold unwind. apply _. Qed.

Global Instance if_decide_stable {A} (P : Prop) (dec : Decision P) (m1 m2 : M A) :
  Stable m1 → Stable m2 → Stable (if dec then m1 else m2).
Proof. by destruct dec. Qed.

Global Instance if_bool_stable {A} (b : bool) (m1 m2 : M A) :
  Stable m1 → Stable m2 → Stable (if b then m1 else m2).
Proof. by destruct b. Qed.

(** Decomposes a computation along its binds, tests and handlers. *)
Ltac solve_stable :=
  repeat first
    [ apply _
    | apply bind_stable; [|intros ?]
    | apply if_decide_stable
    | apply if_bool_stable
    | apply unwind_stable
    | apply try_catch_stable
    | apply bind_no_return; intros ?
    | apply throw_no_return ].

Global Instance assert_stable b : Stable (assert b : M _).
Proof. unfold assert. solve_stable. Qed.

Global Instance tick_stable : Stable (tick : M _).
Proof.
  intros [h o f mf d l] a w'. unfold tick. simpl.
  destruct (burn f); [|done]. by intros [= <- <-].
Qed.

Global Instance tick_move_stable b : Stable (tick_move b : M _).
Proof.
  intros [h o f mf d l] a w'. unfold tick_move. simpl.
  destruct b; [by intros [= <- <-]|].
  destruct (burn mf); [|done]. by intros [= <- <-].
Qed.

Global Instance count_dtor_stable : Stable (count_dtor : M _).
Proof. intros w a w' [= <- <-]. done. Qed.

Global Instance count_leaks_stable n : Stable (count_leaks n : M _).
Proof. intros w a w' [= <- <-]. done. Qed.

Global Instance ptr_sub_stable p n : Stable (ptr_sub p n : M _).
Proof. unfold ptr_sub. solve_stable. Qed.

Global Instance ptr_diff_stable p q : Stable (ptr_diff p q : M _).
Proof. unfold ptr_diff. solve_stable. Qed.

Global Instance load_stable p : Stable (load p : M _).
Proof.
  intros w a w'. unfold load. simpl.
  destruct (blk p); [|done]. destruct (heap w !! _); [|done].
  destruct (_ !! _); [|done]. by intros [= <- <-].
Qed.

Global Instance store_stable p c : Stable (store p c : M _).
Proof.
  intros w a w'. unfold store. simpl.
  destruct (blk p); [|done]. destruct (heap w !! _); [|done].
  case_decide; [|done]. by intros [= <- <-].
Qed.

Global Instance read_stable p : Stable (read p : M _).
Proof. unfold read. apply bind_stable; [apply _|]. intros [x|]; solve_stable. Qed.

Global Instance place_stable p x : Stable (place p x : M _).
Proof.
  unfold place. apply bind_stable; [apply _|]. intros [y|]; solve_stable.
Qed.

Global Instance construct_at_stable p x : Stable (construct_at p x : M _).
Proof. unfold construct_at. solve_stable. Qed.

Global Instance value_construct_at_stable p : Stable (value_construct_at p : M _).
Proof. unfold value_construct_at. solve_stable. Qed.

Global Instance copy_construct_at_stable p q : Stable (copy_construct_at p q : M _).
Proof. unfold copy_construct_at. solve_stable. Qed.

Global Instance move_construct_at_stable p q : Stable (move_construct_at p q : M _).
Proof. unfold move_construct_at. solve_stable. Qed.

Global Instance copy_assign_at_stable p q : Stable (copy_assign_at p q : M _).
Proof. unfold copy_assign_at. solve_stable. Qed.

Global Instance move_assign_at_stable p q : Stable (move_assign_at p q : M _).
Proof. unfold move_assign_at. solve_stable. Qed.

Global Instance move_assign_local_stable p x : Stable (move_assign_local p x : M _).
Proof. unfold move_assign_local. solve_stable. Qed.

Global Instance destroy_at_stable p : Stable (destroy_at p : M _).
Proof. unfold destroy_at. solve_stable. Qed.

Global Instance destroy_n_stable p n : Stable (destroy_n p n : M _).
Proof. revert p. induction n; intros p; simpl; solve_stable. Qed.

Global Instance uninitialized_copy_from_stable k p n q :
  Stable (uninitialized_copy_from k p n q : M _).
Proof. revert k. induction n; intros k; simpl; solve_stable. Qed.

Global Instance uninitialized_copy_n_stable p n q :
  Stable (uninitialized_copy_n p n q : M _).
Proof. unfold uninitialized_copy_n. solve_stable. Qed.

Global Instance uninitialized_move_from_stable k p n q :
  Stable (uninitialized_move_from k p n q : M _).
Proof. revert k. induction n; intros k; simpl; solve_stable. Qed.

Global Instance uninitialized_move_n_stable p n q :
  Stable (uninitialized_move_n p n q : M _).
Proof. unfold uninitialized_move_n. solve_stable. Qed.

Global Instance uninitialized_value_construct_from_stable k p n :
  Stable (uninitialized_value_construct_from k p n : M _).
Proof. revert k. induction n; intros k; simpl; solve_stable. Qed.

Global Instance uninitialized_value_construct_n_stable p n :
  Stable (uninitialized_value_construct_n p n : M _).
Proof. unfold uninitialized_value_construct_n. solve_stable. Qed.

Global Instance copy_n_stable p n q : Stable (copy_n p n q : M _).
Proof. revert p q. induction n; intros p q; simpl; solve_stable. Qed.

Global Instance copy_stable p q r : Stable (copy p q r : M _).
Proof. unfold copy. solve_stable. Qed.

Global Instance move_n_stable p n q : Stable (move_n p n q : M _).
Proof. revert p q. induction n; intros p q; simpl; solve_stable. Qed.

Global Instance move_stable p q r : Stable (move p q r : M _).
Proof. unfold move. solve_stable. Qed.

Global Instance move_backward_n_stable n p q : Stable (move_backward_n n p q : M _).
Proof. revert p q. induction n; intros p q; simpl; solve_stable. Qed.

Global Instance move_backward_stable p q r : Stable (move_backward p q r : M _).
Proof. unfold move_backward. solve_stable. Qed.

Global Instance operator_new_stable n : Stable (operator_new n : M _).
Proof.
  unfold operator_new. apply bind_stable; [apply _|].
  intros _ w a w' [= <- <-]. done.
Qed.

Global Instance operator_delete_stable p : Stable (operator_delete p : M _).
Proof.
  intros w a w'. unfold operator_delete. simpl.
  destruct (blk p); [|by intros [= <- <-]].
  destruct (heap w !! _); [|done].
  case_decide; [|done]. by intros [= <- <-].
Qed.

Global Instance RawMemory_new_stable n : Stable (RawMemory_new n : M _).
Proof. unfold RawMemory_new, Allocate. solve_stable. Qed.

Global Instance RawMemory_dtor_stable rm : Stable (RawMemory_dtor rm : M _).
Proof. unfold RawMemory_dtor, Deallocate. solve_stable. Qed.

Global Instance RawMemory_plus_stable rm n : Stable (RawMemory_plus rm n : M _).
Proof. unfold RawMemory_plus. solve_stable. Qed.

Global Instance RawMemory_index_stable rm n : Stable (RawMemory_index rm n : M _).
Proof. unfold RawMemory_index. solve_stable. Qed.

Global Instance object_stable this : Stable (object this : M _).
Proof.
  intros w a w'. unfold object. simpl.
  destruct (objs w !! this); [|done]. by intros [= <- <-].
Qed.

Global Instance set_object_stable this v : Stable (set_object this v : M _).
Proof. intros w a w' [= <- <-]. done. Qed.

Global Instance end_object_stable this : Stable (end_object this : M _).
Proof. intros w a w' [= <- <-]. done. Qed.

Global Instance local_address_stable : Stable (local_address : M _).
Proof. intros w a w' [= <- <-]. done. Qed.

Global Instance get_data__stable this : Stable (get_data_ this : M _).
Proof. unfold get_data_. solve_stable. Qed.

Global Instance get_size__stable this : Stable (get_size_ this : M _).
Proof. unfold get_size_. solve_stable. Qed.

Global Instance set_data__stable this d : Stable (set_data_ this d : M _).
Proof. unfold set_data_. solve_stable. Qed.

Global Instance set_size__stable this n : Stable (set_size_ this n : M _).
Proof. unfold set_size_. solve_stable. Qed.

Global Instance Capacity_stable this : Stable (Capacity this : M _).
Proof. unfold Capacity. solve_stable. Qed.

Global Instance begin__stable this : Stable (begin_ this : M _).
Proof. unfold begin_. solve_stable. Qed.

Global Instance end__stable this : Stable (end_ this : M _).
Proof. unfold end_. solve_stable. Qed.

Global Instance Swap_stable this other : Stable (Swap this other : M _).
Proof. unfold Swap. solve_stable. Qed.

Global Instance Vector_default_stable this : Stable (Vector_default this : M _).
Proof. unfold Vector_default. solve_stable. Qed.

Global Instance Vector_sized_stable this n : Stable (Vector_sized this n : M _).
Proof. unfold Vector_sized. solve_stable. Qed.

Global Instance Vector_dtor_stable this : Stable (Vector_dtor this : M _).
Proof. unfold Vector_dtor. solve_stable. Qed.

Global Instance Vector_copy_stable this other : Stable (Vector_copy this other : M _).
Proof. unfold Vector_copy. solve_stable. Qed.

Global Instance Vector_move_stable this other : Stable (Vector_move this other : M _).
Proof. unfold Vector_move. solve_stable. Qed.

Global Instance operator_assign_stable this rhs :
  Stable (operator_assign this rhs : M _).
Proof. unfold operator_assign, cend. solve_stable. Qed.

Global Instance operator_assign_move_stable this rhs :
  Stable (operator_assign_move this rhs : M _).
Proof. unfold operator_assign_move. solve_stable. Qed.

Global Instance CopyMoveNElements_stable p n q : Stable (CopyMoveNElements p n q : M _).
Proof. unfold CopyMoveNElements. solve_stable. Qed.

Global Instance Reserve_stable this n : Stable (Reserve this n : M _).
Proof. unfold Reserve. solve_stable. Qed.

Global Instance Resize_stable this n : Stable (Resize this n : M _).
Proof. unfold Resize. solve_stable. Qed.

Global Instance Emplace_stable this pos x : Stable (Emplace this pos x : M _).
Proof. unfold Emplace, cend. solve_stable. Qed.

Global Instance EmplaceBack_stable this x : Stable (EmplaceBack this x : M _).
Proof. unfold EmplaceBack. solve_stable. Qed.

Global Instance PushBack_stable this x : Stable (PushBack this x : M _).
Proof. unfold PushBack. solve_stable. Qed.

Global Instance Insert_stable this pos x : Stable (Insert this pos x : M _).
Proof. unfold Insert. solve_stable. Qed.

Global Instance Erase_stable this pos : Stable (Erase this pos : M _).
Proof. unfold Erase, Destroy. solve_stable. Qed.

Global Instance PopBack_stable this : Stable (PopBack this : M _).
Proof. unfold PopBack. solve_stable. Qed.

Global Instance PushBack_all_stable this xs : Stable (PushBack_all this xs : M _).
Proof. induction xs; simpl; solve_stable. Qed.

Global Instance run_stable c : Stable (run c : M _).
Proof. destruct c; simpl; solve_stable. Qed.

(** A call that returns has the result and the effect it has in the world
    where nothing is scheduled to throw. *)
Lemma returns_as_calm {A} (m : M A) `{!Stable m} w a w' a1 w1 :
  m w = Ok a w' → m (calm w) = Ok a1 w1 → a = a1 ∧ calm w' = w1.
Proof.
  intros Hrun Hcalm. apply stable in Hrun. rewrite Hrun in Hcalm.
  by injection Hcalm as <- <-.
Qed.

End Stability.

Section Exec.
Context {T : Type} {ET : Element T}.
Abbreviation world := (world T).
Abbreviation M := (M T).
Implicit Types (h : gmap nat (list (option T))) (o : gmap nat Vector).
Implicit Types (f mf : option nat) (d l : nat) (w : world).
Implicit Types (cs pre post : list (option T)) (xs ys : list T).

Lemma bind_Ok {A B} (m : M A) (k : A → M B) w a w' :
  m w = Ok a w' → bind m k w = k a w'.
Proof. unfold bind. by intros ->. Qed.

Lemma bind_Throw {A B} (m : M A) (k : A → M B) w w' :
  m w = Throw w' → bind m k w = Throw w'.
Proof. unfold bind. by intros ->. Qed.

Lemma bind_Undefined {A B} (m : M A) (k : A → M B) w :
  m w = Undefined → bind m k w = Undefined.
Proof. unfold bind. by intros ->. Qed.

Lemma bind_inv_Ok {A B} (m : M A) (k : A → M B) w b w' :
  bind m k w = Ok b w' → ∃ a w1, m w = Ok a w1 ∧ k a w1 = Ok b w'.
Proof. unfold bind. destruct (m w); naive_solver. Qed.

Lemma try_catch_Ok {A} (m hd : M A) w a w' :
  m w = Ok a w' → try_catch m hd w = Ok a w'.
Proof. unfold try_catch. by intros ->. Qed.

Lemma try_catch_Throw {A} (m hd : M A) w w' :
  m w = Throw w' → try_catch m hd w = hd w'.
Proof. unfold try_catch. by intros ->. Qed.

(** *** Slots of an allocated block *)
Lemma load_block b i h o f mf d l cs c :
  h !! b = Some cs → cs !! i = Some c →
  load (Ptr (Some b) i) (World h o f mf d l) = Ok c (World h o f mf d l).
Proof. unfold load. simpl. by intros -> ->. Qed.

Lemma store_block b i c h o f mf d l cs :
  h !! b = Some cs → i < length cs →
  store (Ptr (Some b) i) c (World h o f mf d l)
  = Ok () (World (<[b := <[i := c]> cs]> h) o f mf d l).
Proof. unfold store. simpl. intros -> ?. by rewrite decide_True. Qed.

Lemma read_block b i h o f mf d l cs x :
  h !! b = Some cs → cs !! i = Some (Some x) →
  read (Ptr (Some b) i) (World h o f mf d l) = Ok x (World h o f mf d l).
Proof. intros. unfold read. by erewrite bind_Ok by by eapply load_block. Qed.

Lemma read_raw b i h o f mf d l cs :
  h !! b = Some cs → cs !! i = Some None →
  read (Ptr (Some b) i) (World h o f mf d l) = Undefined.
Proof. intros. unfold read. by erewrite bind_Ok by by eapply load_block. Qed.

Lemma place_block b i x h o f mf d l cs :
  h !! b = Some cs → cs !! i = Some None →
  place (Ptr (Some b) i) x (World h o f mf d l)
  = Ok () (World (<[b := <[i := Some x]> cs]> h) o f mf d l).
Proof.
  intros Hb Hi. unfold place.
  erewrite bind_Ok by by eapply load_block.
  erewrite bind_Ok by reflexivity.
  eapply store_block; [done|]. by eapply lookup_lt_Some.
Qed.

Lemma destroy_at_block b i h o f mf d l cs x :
  h !! b = Some cs → cs !! i = Some (Some x) →
  destroy_at (Ptr (Some b) i) (World h o f mf d l)
  = Ok () (World (<[b := <[i := None]> cs]> h) o f mf (S d) l).
Proof.
  intros Hb Hi. unfold destroy_at.
  erewrite bind_Ok by by eapply read_block.
  erewrite bind_Ok; last first.
  { eapply store_block; [done|]. by eapply lookup_lt_Some. }
  reflexivity.
Qed.

(** Writing the slot in the middle of a block. *)
Lemma insert_middle {A} (pre post : list A) (a c : A) i :
  i = length pre → <[i := c]> (pre ++ a :: post) = pre ++ c :: post.
Proof. intros ->. by rewrite insert_app_r_alt, Nat.sub_diag by lia. Qed.

Lemma lookup_middle {A} (pre post : list A) (a : A) i :
  i = length pre → (pre ++ a :: post) !! i = Some a.
Proof. intros ->. by rewrite list_lookup_middle. Qed.

(** *** [destroy_n] ends the lifetime of a run of live objects *)
Lemma destroy_n_block b i n h o f mf d l pre xs post :
  h !! b = Some (pre ++ (Some <$> xs) ++ post) →
  i = length pre → n = length xs →
  destroy_n (Ptr (Some b) i) n (World h o f mf d l)
  = Ok () (World (<[b := pre ++ replicate n None ++ post]> h) o f mf (n + d) l).
Proof.
  intros Hb -> ->. revert pre h d Hb.
  induction xs as [|x xs IH]; intros pre h d Hb; csimpl in *.
  - unfold ret. by rewrite insert_id.
  - erewrite bind_Ok; last first.
    { eapply destroy_at_block; [done|]. by apply lookup_middle. }
    rewrite insert_middle by done.
    unfold ptr_add; simpl.
    specialize (IH (pre ++ [None])
      (<[b := pre ++ None :: (Some <$> xs) ++ post]> h) (S d)).
    rewrite length_app in IH. simpl in IH.
    rewrite IH.
    + rewrite insert_insert_eq, <- !app_assoc. simpl.
      do 2 f_equal. lia.
    + rewrite lookup_insert_eq, <- app_assoc. done.
Qed.

Lemma tick_Ok h o f mf d l :
  passes 1 f →
  tick (World h o f mf d l) = Ok () (World h o (spend 1 f) mf d l).
Proof.
  destruct f as [[|m]|]; simpl; intros; try lia; unfold tick; simpl;
    by rewrite ?Nat.sub_0_r.
Qed.

Lemma tick_Throw h o f mf d l :
  ¬ passes 1 f →
  tick (World h o f mf d l) = Throw (World h o None mf d l).
Proof. destruct f as [[|m]|]; simpl; intros; try lia; done. Qed.

Lemma tick_move_Ok nothrow h o f mf d l :
  move_ok nothrow mf →
  tick_move nothrow (World h o f mf d l) = Ok () (World h o f mf d l).
Proof. unfold tick_move. by intros [-> | ->]; [|destruct nothrow]. Qed.

(** *** [uninitialized_copy_n] between two blocks: it fills raw slots with
    copies, or throws having restored them. *)
Lemma uninitialized_copy_from_blocks bs bd si di k n h o f mf d l
    spre xs spost dpre ys dpost :
  bs ≠ bd →
  h !! bs = Some (spre ++ (Some <$> xs) ++ spost) →
  h !! bd = Some (dpre ++ (Some <$> ys) ++ replicate n None ++ dpost) →
  length spre = si + k → length xs = n → length dpre = di → length ys = k →
  uninitialized_copy_from k (Ptr (Some bs) si) n (Ptr (Some bd) di)
    (World h o f mf d l)
  = if decide (passes n f) then
      Ok () (World (<[bd := dpre ++ (Some <$> ys ++ xs) ++ dpost]> h)
                   o (spend n f) mf d l)
    else
      Throw (World (<[bd := dpre ++ replicate (k + n) None ++ dpost]> h)
                   o None mf (k + default 0 f + d) l).
Proof.
  intros Hne Hs Hd Hsi Hn Hdi Hk. subst n di.
  revert k spre ys h f Hs Hd Hsi Hk.
  induction xs as [|x xs IH]; intros k spre ys h f Hs Hd Hsi Hk; csimpl in *.
  - rewrite decide_True by (destruct f; simpl; lia).
    unfold ret. rewrite app_nil_r, insert_id by done.
    do 2 f_equal. unfold spend. destruct f; simpl; f_equal; lia.
  - unfold copy_construct_at, ptr_add; simpl.
    assert (Hrd : read (Ptr (Some bs) (si + k)) (World h o f mf d l)
                  = Ok x (World h o f mf d l)).
    { eapply read_block; [done|]. by apply lookup_middle. }
    destruct (decide (passes 1 f)) as [Hp|Hp].
    + erewrite bind_Ok; last first.
      { apply try_catch_Ok.
        erewrite bind_Ok by done.
        erewrite bind_Ok by by apply tick_Ok.
        eapply place_block; [done|].
        rewrite app_assoc. apply lookup_middle.
        by rewrite length_app, length_fmap, Hk. }
      rewrite app_assoc, insert_middle
        by by rewrite length_app, length_fmap, Hk.
      rewrite <- app_assoc.
      rewrite (IH (S k) (spre ++ [Some x]) (ys ++ [x])); cycle 1.
      { by rewrite lookup_insert_ne, <- app_assoc. }
      { rewrite lookup_insert_eq, fmap_app, <- !app_assoc. done. }
      { rewrite length_app. simpl. lia. }
      { rewrite length_app. simpl. lia. }
      rewrite !insert_insert_eq, <- !app_assoc. simpl.
      destruct f as [[|m]|]; simpl in *; try lia; [|done].
      rewrite Nat.sub_0_r.
      destruct (decide (length xs ≤ m)), (decide (S (length xs) ≤ S m));
        try lia; [done|].
      replace (k + S (length xs)) with (S (k + length xs)) by lia.
      simpl. do 2 f_equal. lia.
    + erewrite bind_Throw; last first.
      { erewrite try_catch_Throw; last first.
        { erewrite bind_Ok by done. apply bind_Throw. by apply tick_Throw. }
        erewrite bind_Ok; [reflexivity|].
        by eapply destroy_n_block. }
      destruct f as [[|m]|]; simpl in *; try lia.
      rewrite replicate_add. simpl. rewrite <- !app_assoc.
      do 2 f_equal. lia.
Qed.

Lemma insert2_insert2 {V} (m : gmap nat V) a b x x' y y' :
  a ≠ b →
  <[a := x']> (<[b := y']> (<[a := x]> (<[b := y]> m)))
  = <[a := x']> (<[b := y']> m).
Proof.
  intros. apply map_eq. intros i.
  destruct (decide (i = a)), (decide (i = b)); by simplify_map_eq.
Qed.

(** *** [uninitialized_move_n] between two blocks, for moves that do not
    throw: the sources are left alive, in their moved-from state. *)
Lemma uninitialized_move_from_blocks bs bd si di k n h o f mf d l
    spre xs spost dpre ys dpost :
  move_ok is_nothrow_move_constructible mf →
  bs ≠ bd →
  h !! bs = Some (spre ++ (Some <$> xs) ++ spost) →
  h !! bd = Some (dpre ++ (Some <$> ys) ++ replicate n None ++ dpost) →
  length spre = si + k → length xs = n → length dpre = di → length ys = k →
  uninitialized_move_from k (Ptr (Some bs) si) n (Ptr (Some bd) di)
    (World h o f mf d l)
  = Ok () (World (<[bs := spre ++ (Some <$> (moved_from <$> xs)) ++ spost]>
                   (<[bd := dpre ++ (Some <$> ys ++ xs) ++ dpost]> h))
                 o f mf d l).
Proof.
  intros Hmv Hne Hs Hd Hsi Hn Hdi Hk. subst n di.
  revert k spre ys h Hs Hd Hsi Hk.
  induction xs as [|x xs IH]; intros k spre ys h Hs Hd Hsi Hk; csimpl in *.
  - unfold ret. rewrite app_nil_r.
    rewrite (insert_id h bd) by done. by rewrite insert_id.
  - unfold move_construct_at, ptr_add; simpl.
    erewrite bind_Ok; last first.
    { apply try_catch_Ok.
      erewrite bind_Ok; last first.
      { eapply read_block; [done|]. by apply lookup_middle. }
      erewrite bind_Ok by by apply tick_move_Ok.
      erewrite bind_Ok; last first.
      { eapply place_block; [done|].
        rewrite app_assoc. apply lookup_middle.
        by rewrite length_app, length_fmap, Hk. }
      eapply store_block; [by rewrite lookup_insert_ne|].
      rewrite length_app. simpl. lia. }
    rewrite insert_middle by done.
    rewrite (app_assoc dpre), insert_middle
      by by rewrite length_app, length_fmap, Hk.
    rewrite <- app_assoc.
    rewrite (IH (S k) (spre ++ [Some (moved_from x)]) (ys ++ [x])); cycle 1.
    { by rewrite lookup_insert_eq, <- app_assoc. }
    { rewrite lookup_insert_ne, lookup_insert_eq by done.
      by rewrite fmap_app, <- !app_assoc. }
    { rewrite length_app. simpl. lia. }
    { rewrite length_app. simpl. lia. }
    rewrite insert2_insert2 by done.
    by rewrite <- !app_assoc.
Qed.

(** *** [uninitialized_value_construct_n] on raw slots *)
Lemma uninitialized_value_construct_from_block b i k n h o f mf d l
    pre ys post :
  h !! b = Some (pre ++ (Some <$> ys) ++ replicate n None ++ post) →
  length pre = i → length ys = k →
  uninitialized_value_construct_from k (Ptr (Some b) i) n (World h o f mf d l)
  = if decide (passes n f) then
      Ok () (World (<[b := pre ++ (Some <$> ys ++ replicate n value_init)
                            ++ post]> h)
                   o (spend n f) mf d l)
    else
      Throw (World (<[b := pre ++ replicate (k + n) None ++ post]> h)
                   o None mf (k + default 0 f + d) l).
Proof.
  intros Hb <-. revert k ys h f Hb.
  induction n as [|n IH]; intros k ys h f Hb Hk; csimpl in *.
  - rewrite decide_True by (destruct f; simpl; lia).
    unfold ret. rewrite app_nil_r, insert_id by done.
    do 2 f_equal. unfold spend. destruct f; simpl; f_equal; lia.
  - unfold value_construct_at, ptr_add; simpl.
    destruct (decide (passes 1 f)) as [Hp|Hp].
    + erewrite bind_Ok; last first.
      { apply try_catch_Ok.
        erewrite bind_Ok by by apply tick_Ok.
        eapply place_block; [done|].
        rewrite app_assoc. apply lookup_middle.
        by rewrite length_app, length_fmap, Hk. }
      rewrite app_assoc, insert_middle
        by by rewrite length_app, length_fmap, Hk.
      rewrite <- app_assoc.
      rewrite (IH (S k) (ys ++ [value_init])); cycle 1.
      { rewrite lookup_insert_eq, fmap_app, <- !app_assoc. done. }
      { rewrite length_app. simpl. lia. }
      rewrite !insert_insert_eq, <- !app_assoc. simpl.
      destruct f as [[|m]|]; simpl in *; try lia; [|done].
      rewrite Nat.sub_0_r.
      destruct (decide (n ≤ m)), (decide (S n ≤ S m)); try lia; [done|].
      replace (k + S n) with (S (k + n)) by lia.
      simpl. do 2 f_equal. lia.
    + erewrite bind_Throw; last first.
      { erewrite try_catch_Throw; last first.
        { apply bind_Throw. by apply tick_Throw. }
        erewrite bind_Ok; [reflexivity|].
        by eapply destroy_n_block. }
      destruct f as [[|m]|]; simpl in *; try lia.
      rewrite replicate_add. simpl. rewrite <- !app_assoc.
      do 2 f_equal. lia.
Qed.

(** *** [std::copy_n] between two blocks *)
Lemma copy_n_blocks bs bd si di n h o f mf d l spre xs spost dpre ys dpost :
  bs ≠ bd → passes n f →
  h !! bs = Some (spre ++ (Some <$> xs) ++ spost) →
  h !! bd = Some (dpre ++ (Some <$> ys) ++ dpost) →
  length spre = si → length xs = n → length dpre = di → length ys = n →
  copy_n (Ptr (Some bs) si) n (Ptr (Some bd) di) (World h o f mf d l)
  = Ok () (World (<[bd := dpre ++ (Some <$> xs) ++ dpost]> h)
                 o (spend n f) mf d l).
Proof.
  intros Hne Hp Hs Hd <- <- <- Hn.
  revert spre dpre ys h f Hp Hs Hd Hn.
  induction xs as [|x xs IH]; intros spre dpre [|y ys] h f Hp Hs Hd Hn;
    csimpl in *; try lia.
  - unfold ret. rewrite insert_id by done.
    do 2 f_equal. unfold spend. destruct f; simpl; f_equal; lia.
  - unfold copy_assign_at, ptr_add; simpl.
    assert (passes 1 f) by (destruct f; simpl in *; lia).
    erewrite bind_Ok; last first.
    { erewrite bind_Ok; last first.
      { eapply read_block; [done|]. by apply lookup_middle. }
      erewrite bind_Ok; last first.
      { eapply read_block; [done|]. by apply lookup_middle. }
      erewrite bind_Ok by by apply tick_Ok.
      eapply store_block; [done|]. rewrite length_app. simpl. lia. }
    rewrite insert_middle by done.
    replace (length spre + 1) with (length (spre ++ [Some x]))
      by by rewrite length_app.
    replace (length dpre + 1) with (length (dpre ++ [Some x]))
      by by rewrite length_app.
    rewrite (IH (spre ++ [Some x]) (dpre ++ [Some x]) ys); cycle 1.
    { destruct f; simpl in *; lia. }
    { by rewrite lookup_insert_ne, <- app_assoc. }
    { by rewrite lookup_insert_eq, <- app_assoc. }
    { lia. }
    rewrite insert_insert_eq, <- !app_assoc. simpl.
    do 2 f_equal. unfold spend. destruct f; simpl; f_equal; lia.
Qed.

Lemma lookup_middle2 {A} (pre mid post : list A) (a : A) i :
  i = length pre + length mid → (pre ++ mid ++ a :: post) !! i = Some a.
Proof. intros ->. rewrite app_assoc. apply lookup_middle. by rewrite length_app. Qed.

Lemma insert_middle2 {A} (pre mid post : list A) (a c : A) i :
  i = length pre + length mid →
  <[i := c]> (pre ++ mid ++ a :: post) = pre ++ mid ++ c :: post.
Proof.
  intros ->. rewrite !app_assoc. apply insert_middle. by rewrite length_app.
Qed.

Lemma lookup_middle2_next {A} (pre mid post : list A) (a a' : A) i :
  i = length pre + length mid + 1 →
  (pre ++ mid ++ a :: a' :: post) !! i = Some a'.
Proof.
  intros ->. replace (mid ++ a :: a' :: post) with ((mid ++ [a]) ++ a' :: post)
    by by rewrite <- app_assoc.
  apply lookup_middle2. rewrite length_app. simpl. lia.
Qed.

Lemma insert_middle2_next {A} (pre mid post : list A) (a a' c : A) i :
  i = length pre + length mid + 1 →
  <[i := c]> (pre ++ mid ++ a :: a' :: post) = pre ++ mid ++ a :: c :: post.
Proof.
  intros ->. replace (mid ++ a :: a' :: post) with ((mid ++ [a]) ++ a' :: post)
    by by rewrite <- app_assoc.
  rewrite insert_middle2 by (rewrite length_app; simpl; lia).
  by rewrite <- app_assoc.
Qed.

Lemma insert_middle_next {A} (pre post : list A) (a a' c : A) i :
  i = length pre + 1 →
  <[i := c]> (pre ++ a :: a' :: post) = pre ++ a :: c :: post.
Proof. intros ->. by apply (insert_middle2 pre [a]). Qed.

Lemma move_n_block b i n h o f mf d l pre a xs post :
  move_ok is_nothrow_move_assignable mf →
  h !! b = Some (pre ++ Some a :: (Some <$> xs) ++ post) →
  length pre = i → length xs = n →
  move_n (Ptr (Some b) (i + 1)) n (Ptr (Some b) i) (World h o f mf d l)
  = Ok (Ptr (Some b) (i + n))
       (World (<[b := pre ++ (Some <$> xs) ++ Some (vacated a xs) :: post]> h)
              o f mf d l).
Proof.
  intros Hmv Hb Hi <-. revert i pre a h Hb Hi.
  induction xs as [|x xs IH]; intros i pre a h Hb Hi; csimpl in *.
  - unfold ret. rewrite insert_id by done. by rewrite Nat.add_0_r.
  - unfold move_assign_at, ptr_add; simpl.
    erewrite bind_Ok; last first.
    { erewrite bind_Ok; last first.
      { eapply read_block; [done|].
        apply (lookup_middle2 pre [Some a]). simpl. lia. }
      erewrite bind_Ok; last first.
      { eapply read_block; [done|]. by apply lookup_middle. }
      erewrite bind_Ok by by apply tick_move_Ok.
      erewrite bind_Ok; last first.
      { eapply store_block; [done|]. rewrite length_app. simpl. lia. }
      eapply store_block; [by rewrite lookup_insert_eq|].
      rewrite length_insert, length_app. simpl. lia. }
    rewrite insert_insert_eq, insert_middle by done.
    rewrite insert_middle_next by lia.
    rewrite (IH (i + 1) (pre ++ [Some x]) (moved_from x)); cycle 1.
    { by rewrite lookup_insert_eq, <- app_assoc. }
    { rewrite length_app. simpl. lia. }
    rewrite insert_insert_eq, <- !app_assoc. simpl.
    by replace (i + 1 + length xs) with (i + S (length xs)) by lia.
Qed.

Lemma vacated_front_snoc a xs x :
  vacated_front a (xs ++ [x]) = vacated_front (moved_from x) xs.
Proof. by destruct xs. Qed.

Lemma ptr_sub_block b i n w :
  n ≤ i → ptr_sub (Ptr (Some b) i) n w = Ok (Ptr (Some b) (i - n)) w.
Proof. intros. unfold ptr_sub. simpl. by rewrite decide_True. Qed.

Lemma move_backward_n_block b i n jl jd h o f mf d l pre xs a post :
  move_ok is_nothrow_move_assignable mf →
  h !! b = Some (pre ++ (Some <$> xs) ++ Some a :: post) →
  length pre = i → length xs = n → jl = i + n → jd = i + n + 1 →
  move_backward_n n (Ptr (Some b) jl) (Ptr (Some b) jd) (World h o f mf d l)
  = Ok (Ptr (Some b) (i + 1))
       (World (<[b := pre ++ Some (vacated_front a xs) :: (Some <$> xs) ++ post]> h)
              o f mf d l).
Proof.
  intros Hmv Hb Hi <- -> ->. revert a post h Hb.
  induction xs as [|x xs IH] using rev_ind; intros a post h Hb; csimpl in *.
  - unfold ret. rewrite insert_id by done. by rewrite Nat.add_0_r.
  - rewrite length_app, Nat.add_1_r. simpl.
    rewrite fmap_app, <- app_assoc in Hb. simpl in Hb.
    erewrite bind_Ok by (apply ptr_sub_block; lia).
    erewrite bind_Ok by (apply ptr_sub_block; lia).
    replace (i + S (length xs) - 1) with (i + length xs) by lia.
    replace (i + S (length xs) + 1 - 1) with (i + length xs + 1) by lia.
    unfold move_assign_at.
    erewrite bind_Ok; last first.
    { erewrite bind_Ok; last first.
      { eapply read_block; [done|].
        apply lookup_middle2. rewrite length_fmap. lia. }
      erewrite bind_Ok; last first.
      { eapply read_block; [done|].
        apply lookup_middle2_next. rewrite length_fmap. lia. }
      erewrite bind_Ok by by apply tick_move_Ok.
      erewrite bind_Ok; last first.
      { eapply store_block; [done|].
        rewrite !length_app, length_fmap. simpl. lia. }
      eapply store_block; [by rewrite lookup_insert_eq|].
      rewrite length_insert, !length_app, length_fmap. simpl. lia. }
    rewrite insert_insert_eq.
    rewrite insert_middle2_next by (rewrite length_fmap; lia).
    rewrite insert_middle2 by (rewrite length_fmap; lia).
    rewrite (IH (moved_from x) (Some x :: post)); cycle 1.
    { by rewrite lookup_insert_eq. }
    rewrite insert_insert_eq, vacated_front_snoc, fmap_app, <- app_assoc.
    done.
Qed.

Lemma ptr_diff_block b i j w :
  j ≤ i → ptr_diff (Ptr (Some b) i) (Ptr (Some b) j) w = Ok (i - j) w.
Proof. intros. unfold ptr_diff. simpl. by rewrite decide_True. Qed.

(** *** Access to the members of an object *)
Lemma object_Ok this v h o f mf d l :
  o !! this = Some v →
  object this (World h o f mf d l) = Ok v (World h o f mf d l).
Proof. unfold object. simpl. by intros ->. Qed.

Lemma get_data__Ok this v h o f mf d l :
  o !! this = Some v →
  get_data_ this (World h o f mf d l) = Ok (data_ v) (World h o f mf d l).
Proof. intros. unfold get_data_. by erewrite bind_Ok by by apply object_Ok. Qed.

Lemma get_size__Ok this v h o f mf d l :
  o !! this = Some v →
  get_size_ this (World h o f mf d l) = Ok (size_ v) (World h o f mf d l).
Proof. intros. unfold get_size_. by erewrite bind_Ok by by apply object_Ok. Qed.

Lemma set_data__Ok this v dd h o f mf d l :
  o !! this = Some v →
  set_data_ this dd (World h o f mf d l)
  = Ok () (World h (<[this := mkVector dd (size_ v)]> o) f mf d l).
Proof. intros. unfold set_data_. by erewrite bind_Ok by by apply object_Ok. Qed.

Lemma set_size__Ok this v n h o f mf d l :
  o !! this = Some v →
  set_size_ this n (World h o f mf d l)
  = Ok () (World h (<[this := mkVector (data_ v) n]> o) f mf d l).
Proof. intros. unfold set_size_. by erewrite bind_Ok by by apply object_Ok. Qed.

Lemma Capacity_Ok this v h o f mf d l :
  o !! this = Some v →
  Capacity this (World h o f mf d l)
  = Ok (capacity_ (data_ v)) (World h o f mf d l).
Proof. intros. unfold Capacity. by erewrite bind_Ok by by apply get_data__Ok. Qed.

Lemma begin__Ok this v h o f mf d l :
  o !! this = Some v →
  begin_ this (World h o f mf d l)
  = Ok (buffer_ (data_ v)) (World h o f mf d l).
Proof. intros. unfold begin_. by erewrite bind_Ok by by apply get_data__Ok. Qed.

Lemma end__Ok this v h o f mf d l :
  o !! this = Some v →
  end_ this (World h o f mf d l)
  = Ok (buffer_ (data_ v) +ₚ size_ v) (World h o f mf d l).
Proof.
  intros. unfold end_.
  erewrite bind_Ok by by apply get_data__Ok.
  by erewrite bind_Ok by by apply get_size__Ok.
Qed.

(** *** Allocation *)
Lemma live_count_raw n : live_count (replicate n (@None T)) = 0.
Proof. unfold live_count. induction n; simpl; auto. Qed.

Lemma live_count_app cs1 cs2 :
  live_count (cs1 ++ cs2) = live_count cs1 + live_count cs2.
Proof. unfold live_count. by rewrite omap_app, length_app. Qed.

Lemma live_count_live xs : live_count (Some <$> xs) = length xs.
Proof. unfold live_count. induction xs; simpl; auto. Qed.

Lemma fresh_block_None h : h !! fresh (dom h) = None.
Proof. apply not_elem_of_dom, is_fresh. Qed.

Lemma RawMemory_new_Ok n h o f mf d l :
  n ≠ 0 → passes 1 f →
  RawMemory_new n (World h o f mf d l)
  = Ok (mkRawMemory (Ptr (Some (fresh (dom h))) 0) n)
       (World (<[fresh (dom h) := replicate n None]> h) o (spend 1 f) mf d l).
Proof.
  intros. unfold RawMemory_new, Allocate, operator_new.
  rewrite decide_True by done.
  erewrite bind_Ok; [reflexivity|].
  by erewrite bind_Ok by by apply tick_Ok.
Qed.

Lemma RawMemory_new_Throw n h o f mf d l :
  n ≠ 0 → ¬ passes 1 f →
  RawMemory_new n (World h o f mf d l) = Throw (World h o None mf d l).
Proof.
  intros. unfold RawMemory_new, Allocate, operator_new.
  rewrite decide_True by done.
  apply bind_Throw, bind_Throw. by apply tick_Throw.
Qed.

Lemma RawMemory_dtor_block b cap cs h o f mf d l :
  h !! b = Some cs →
  RawMemory_dtor (mkRawMemory (Ptr (Some b) 0) cap) (World h o f mf d l)
  = Ok () (World (delete b h) o f mf d (l + live_count cs)).
Proof. unfold RawMemory_dtor, Deallocate, operator_delete. simpl. by intros ->. Qed.

Lemma passes_add a b f : passes (a + b) f ↔ passes a f ∧ passes b (spend a f).
Proof. destruct f; simpl; lia. Qed.

Lemma passes_le a b f : a ≤ b → passes b f → passes a f.
Proof. destruct f; simpl; lia. Qed.

Lemma passes_0 f : passes 0 f.
Proof. destruct f; simpl; lia. Qed.

Lemma spend_0 f : spend 0 f = f.
Proof. destruct f; simpl; f_equal; lia. Qed.

Lemma spend_spend a b f : spend b (spend a f) = spend (a + b) f.
Proof. destruct f; simpl; f_equal; lia. Qed.

Lemma passes_None n : passes n None.
Proof. done. Qed.

Lemma spend_None n : spend n None = None.
Proof. done. Qed.

Lemma relocated_length xs : length (relocated xs) = length xs.
Proof. unfold relocated. destruct by_move; by rewrite ?length_fmap. Qed.

Lemma relocated_app xs ys : relocated (xs ++ ys) = relocated xs ++ relocated ys.
Proof. unfold relocated. destruct by_move; by rewrite ?fmap_app. Qed.

Lemma reloc_ticks_add a b : reloc_ticks (a + b) = reloc_ticks a + reloc_ticks b.
Proof. unfold reloc_ticks. by destruct by_move. Qed.

Lemma reloc_ticks_mono a b : a ≤ b → reloc_ticks a ≤ reloc_ticks b.
Proof. unfold reloc_ticks. destruct by_move; lia. Qed.

Lemma reloc_ticks_le n : reloc_ticks n ≤ n.
Proof. unfold reloc_ticks. destruct by_move; lia. Qed.

Lemma CopyMoveNElements_blocks bs bd si di n h o f mf d l
    spre xs spost dpre dpost :
  move_ok is_nothrow_move_constructible mf →
  bs ≠ bd →
  h !! bs = Some (spre ++ (Some <$> xs) ++ spost) →
  h !! bd = Some (dpre ++ replicate n None ++ dpost) →
  length spre = si → length xs = n → length dpre = di →
  CopyMoveNElements (Ptr (Some bs) si) n (Ptr (Some bd) di) (World h o f mf d l)
  = if decide (passes (reloc_ticks n) f) then
      Ok () (World (<[bs := spre ++ (Some <$> relocated xs) ++ spost]>
                      (<[bd := dpre ++ (Some <$> xs) ++ dpost]> h))
                   o (spend (reloc_ticks n) f) mf d l)
    else Throw (World h o None mf (default 0 f + d) l).
Proof.
  intros Hmv Hne Hs Hd Hsi Hn Hdi.
  unfold CopyMoveNElements, reloc_ticks, relocated, by_move.
  destruct (is_nothrow_move_constructible || negb is_copy_constructible).
  - rewrite decide_True by apply passes_0. rewrite spend_0.
    unfold uninitialized_move_n.
    by rewrite (uninitialized_move_from_blocks bs bd si di 0 n h o f mf d l
                  spre xs spost dpre [] dpost) by (done || lia).
  - unfold uninitialized_copy_n.
    rewrite (uninitialized_copy_from_blocks bs bd si di 0 n h o f mf d l
               spre xs spost dpre [] dpost) by (done || lia).
    simpl. destruct (decide (passes n f)).
    + by rewrite (insert_id (<[bd:=_]> h) bs) by by rewrite lookup_insert_ne.
    + by rewrite insert_id by done.
Qed.

Lemma rep_block_at h b cap n xs :
  h !! b = Some (cells xs cap) → cap ≠ 0 → length xs = n → n ≤ cap →
  rep h (mkVector (mkRawMemory (Ptr (Some b) 0) cap) n) xs.
Proof. intros ? ? <- ?. by eapply rep_block. Qed.

Lemma rep_size h v xs : rep h v xs → size_ v = length xs.
Proof. by intros [-> -> | b cap -> _ _ _]. Qed.

Lemma rep_capacity h v xs : rep h v xs → length xs ≤ capacity_ (data_ v).
Proof. intros [-> -> | b cap -> _ ? _]; simpl; lia. Qed.

Lemma rep_inj h v xs ys : rep h v xs → rep h v ys → xs = ys.
Proof.
  intros [-> -> | b cap -> ? ? Hb] [Hv -> | b' cap' Hv ? ? Hb'];
    try done.
  injection Hv as <- <- Hlen. rewrite Hb in Hb'. unfold cells in *.
  assert (Some <$> xs = Some <$> ys) as Heq.
  { injection Hb' as Hb'. apply app_inj_1 in Hb' as [? _]; [done|].
    rewrite !length_fmap. congruence. }
  by apply (inj (fmap Some)) in Heq.
Qed.

Lemma cells_length xs cap : length xs ≤ cap → length (cells xs cap) = cap.
Proof.
  intros. unfold cells. rewrite length_app, length_fmap, length_replicate. lia.
Qed.

Lemma live_count_cells xs cap : live_count (cells xs cap) = length xs.
Proof.
  unfold cells. rewrite live_count_app, live_count_live, live_count_raw. lia.
Qed.

Lemma raw_split (n k : nat) :
  k ≤ n → replicate n (@None T) = replicate k None ++ replicate (n - k) None.
Proof. intros. rewrite <- replicate_add. f_equal. lia. Qed.

Lemma unwind_Ok {A} (cleanup : M unit) (body : M A) w a w' :
  body w = Ok a w' → unwind cleanup body w = Ok a w'.
Proof. apply try_catch_Ok. Qed.

Lemma unwind_Throw {A} (cleanup : M unit) (body : M A) w w1 w2 :
  body w = Throw w1 → cleanup w1 = Ok () w2 →
  unwind cleanup body w = Throw w2.
Proof.
  intros Hb Hc. unfold unwind. erewrite try_catch_Throw by done.
  by erewrite bind_Ok by done.
Qed.

(** ** [Reserve] *)
Lemma Reserve_noop this v n w :
  objs w !! this = Some v → n ≤ capacity_ (data_ v) →
  Reserve this n w = Ok () w.
Proof.
  destruct w as [h o f mf d l]. simpl. intros Ho Hn. unfold Reserve.
  erewrite bind_Ok by by apply Capacity_Ok.
  by rewrite decide_True.
Qed.

Lemma Reserve_grow this v xs n h o f mf d l :
  o !! this = Some v → rep h v xs → capacity_ (data_ v) < n →
  move_ok is_nothrow_move_constructible mf →
  passes (1 + reloc_ticks (length xs)) f →
  Reserve this n (World h o f mf d l)
  = Ok () (World (release (buffer_ (data_ v)) (<[fresh (dom h) := cells xs n]> h))
                 (<[this := mkVector (mkRawMemory (Ptr (Some (fresh (dom h))) 0) n)
                                     (size_ v)]> o)
                 (spend (1 + reloc_ticks (length xs)) f) mf (length xs + d) l).
Proof.
  intros Ho Hrep Hcap Hmv [Hp1 Hp2]%passes_add. unfold Reserve.
  erewrite bind_Ok by by apply Capacity_Ok.
  rewrite decide_False by lia.
  erewrite bind_Ok by (apply RawMemory_new_Ok; [lia|done]).
  erewrite bind_Ok by by apply get_data__Ok.
  erewrite bind_Ok by by apply get_size__Ok.
  pose proof (fresh_block_None h) as Hfresh.
  set (b' := fresh (dom h)) in *.
  destruct Hrep as [-> -> | b cap -> Hc0 Hle Hb]; simpl in *.
  - erewrite bind_Ok; last first.
    { apply unwind_Ok. unfold CopyMoveNElements.
      by destruct (_ || _). }
    erewrite bind_Ok by by apply set_data__Ok.
    unfold release, cells, reloc_ticks in *. simpl.
    rewrite Nat.sub_0_r.
    by destruct by_move; rewrite ?spend_spend, ?spend_0.
  - assert (b ≠ b') as Hne by congruence.
    erewrite bind_Ok; last first.
    { apply unwind_Ok.
      erewrite bind_Ok; last first.
      { rewrite (CopyMoveNElements_blocks b b' 0 0 (length xs) _ o _ mf d l
                   [] xs (replicate (cap - length xs) None)
                   [] (replicate (n - length xs) None)); try done.
        - by rewrite decide_True.
        - by rewrite lookup_insert_ne.
        - rewrite lookup_insert_eq. simpl. f_equal. apply raw_split. lia. }
      simpl.
      apply (destroy_n_block b 0 (length xs) _ o _ mf d l
               [] (relocated xs) (replicate (cap - length xs) None)).
      - by rewrite lookup_insert_eq.
      - done.
      - by rewrite relocated_length. }
    erewrite bind_Ok by by apply set_data__Ok.
    simpl. erewrite RawMemory_dtor_block by by rewrite lookup_insert_eq.
    rewrite live_count_app, !live_count_raw, spend_spend. simpl.
    unfold release. simpl.
    rewrite insert_insert_eq, delete_insert_eq, insert_insert_eq.
    by rewrite Nat.add_0_r.
Qed.

Lemma frame_refl h v : frame h v h v.
Proof. split; auto. Qed.

Lemma frame_trans h v h1 v1 h2 v2 :
  frame h v h1 v1 → frame h1 v1 h2 v2 → frame h v h2 v2.
Proof.
  intros [F1 F2] [G1 G2]. split.
  - intros b Hb Hv. rewrite <- (F1 b) by done. apply G1.
    + rewrite F1 by done. done.
    + intros Hv1. destruct (F2 b Hv1) as [?|Hn]; [done|].
      rewrite Hn in Hb. by destruct Hb.
  - intros b Hv2. destruct (G2 b Hv2) as [Hv1|Hn]; [by apply F2|].
    destruct (h !! b) eqn:Hb; [|by right].
    destruct (decide (block_of v = Some b)); [by left|].
    rewrite F1 in Hn by (rewrite ?Hb; done). congruence.
Qed.

Lemma frame_same_block h v v' b cs :
  block_of v = Some b → block_of v' = Some b →
  frame h v (<[b := cs]> h) v'.
Proof.
  intros Hv Hv'. split.
  - intros b0 _ Hb0. rewrite lookup_insert_ne; [done|congruence].
  - intros b0 ?. left. congruence.
Qed.

Lemma frame_same_heap h v v' :
  block_of v' = block_of v → frame h v h v'.
Proof. intros Hv. split; [done|]. intros b ?. left. congruence. Qed.

Lemma frame_fresh_block h v v' b' cs :
  h !! b' = None → block_of v' = Some b' →
  frame h v (release (buffer_ (data_ v)) (<[b' := cs]> h)) v'.
Proof.
  intros Hfresh Hv'. split.
  - intros b [c Hb] Hv. unfold release, block_of in *.
    assert (b ≠ b') by congruence.
    destruct (blk (buffer_ (data_ v))) as [b0|].
    + rewrite lookup_delete_ne by congruence. by rewrite lookup_insert_ne.
    + by rewrite lookup_insert_ne.
  - intros b ?. right. congruence.
Qed.

Lemma release_fresh_lookup h buf b' cs :
  h !! b' = None →
  release buf (<[b' := cs]> h) !! b' = Some cs ∨ blk buf = Some b'.
Proof.
  intros. unfold release. destruct (blk buf) as [b|]; simpl.
  - destruct (decide (b = b')) as [->|]; [by right|left].
    by rewrite lookup_delete_ne, lookup_insert_eq.
  - left. by rewrite lookup_insert_eq.
Qed.

Lemma rep_block_of h v xs b :
  rep h v xs → block_of v = Some b → is_Some (h !! b).
Proof. intros [-> -> | b0 cap -> _ _ Hb]; unfold block_of; simpl; naive_solver. Qed.

Lemma rep_release_fresh h v xs ys n :
  rep h v xs → n ≠ 0 → length ys ≤ n →
  rep (release (buffer_ (data_ v)) (<[fresh (dom h) := cells ys n]> h))
      (mkVector (mkRawMemory (Ptr (Some (fresh (dom h))) 0) n) (length ys)) ys.
Proof.
  intros Hrep Hn Hle. eapply rep_block; try done.
  destruct (release_fresh_lookup h (buffer_ (data_ v)) (fresh (dom h))
              (cells ys n) (fresh_block_None h)) as [?|Hb]; [done|].
  eapply rep_block_of in Hrep as [c Hc]; [|done].
  by rewrite fresh_block_None in Hc.
Qed.

(** [rep] only looks at the block of its object. *)
Lemma rep_frame h h' v xs :
  rep h v xs → (∀ b, block_of v = Some b → h' !! b = h !! b) → rep h' v xs.
Proof.
  intros [-> -> | b cap -> ? ? Hb] Hfr; [by apply rep_null|].
  eapply rep_block; try done. by rewrite Hfr.
Qed.

(** *** [Reserve], when nothing throws *)
Lemma Reserve_spec this v xs n h o d l :
  o !! this = Some v → rep h v xs →
  ∃ h' v' d',
    Reserve this n (World h o None None d l)
    = Ok () (World h' (<[this := v']> o) None None d' l) ∧
    rep h' v' xs ∧
    capacity_ (data_ v') = capacity_ (data_ v) `max` n ∧
    (n ≤ capacity_ (data_ v) → h' = h ∧ v' = v ∧ d' = d) ∧
    frame h v h' v'.
Proof.
  intros Ho Hrep. destruct (decide (n ≤ capacity_ (data_ v))) as [Hn|Hn].
  - exists h, v, d. rewrite insert_id by done.
    split; [by eapply Reserve_noop|].
    split; [done|]. split; [lia|]. split; [done|]. apply frame_refl.
  - rewrite (Reserve_grow this v xs n h o None None d l)
      by (done || lia || by right).
    eexists _, _, _. split; [reflexivity|].
    rewrite (rep_size h v xs) by done.
    pose proof (rep_capacity h v xs Hrep).
    split; [by apply (rep_release_fresh h v xs xs); [|lia..]|].
    split; [simpl; lia|]. split; [lia|].
    apply frame_fresh_block; [apply fresh_block_None|done].
Qed.

(** ** [Resize], when nothing throws *)
Lemma cells_take_drop xs cap n :
  n ≤ length xs → length xs ≤ cap →
  cells xs cap
  = (Some <$> take n xs) ++ (Some <$> drop n xs) ++ replicate (cap - length xs) None.
Proof.
  intros. unfold cells.
  by rewrite app_assoc, <- fmap_app, take_drop.
Qed.

Lemma Resize_spec this v xs n h o d l :
  o !! this = Some v → rep h v xs →
  ∃ h' v' d',
    Resize this n (World h o None None d l)
    = Ok () (World h' (<[this := v']> o) None None d' l) ∧
    rep h' v' (take n xs ++ replicate (n - length xs) value_init) ∧
    capacity_ (data_ v') = capacity_ (data_ v) `max` n ∧
    (n ≤ length xs → d' = length xs - n + d ∧ data_ v' = data_ v) ∧
    frame h v h' v'.
Proof.
  intros Ho Hrep. unfold Resize.
  erewrite bind_Ok by by apply get_size__Ok.
  pose proof (rep_size _ _ _ Hrep) as Hsize.
  pose proof (rep_capacity _ _ _ Hrep) as Hcap.
  destruct (decide (size_ v = n)) as [Heq|Hneq].
  { exists h, v, d. rewrite insert_id by done.
    split; [done|]. split; [|split; [lia|split; [|apply frame_refl]]].
    - rewrite take_ge by lia.
      replace (n - length xs) with 0 by lia. by rewrite app_nil_r.
    - intros _. split; [lia|done]. }
  destruct (decide (n < size_ v)) as [Hlt|Hge].
  - destruct Hrep as [-> -> | b cap -> Hc0 Hle Hb]; simpl in *; [lia|].
    erewrite bind_Ok; last first.
    { erewrite bind_Ok by by apply get_data__Ok.
      simpl. unfold ptr_add. simpl.
      apply (destroy_n_block b n (length xs - n) h o None None d l
               (Some <$> take n xs) (drop n xs)
               (replicate (cap - length xs) None)).
      - rewrite Hb. f_equal. apply cells_take_drop; lia.
      - rewrite length_fmap, length_take. lia.
      - rewrite length_drop. lia. }
    erewrite set_size__Ok by done. simpl.
    eexists _, _, _. split; [reflexivity|].
    replace (n - length xs) with 0 by lia. simpl. rewrite app_nil_r.
    assert (Hlen : length (take n xs) = n) by (rewrite length_take; lia).
    split; [|split; [simpl; lia|split; [done|by apply frame_same_block]]].
    apply rep_block_at; [|done|done|lia].
    rewrite lookup_insert_eq. unfold cells. rewrite Hlen.
    do 2 f_equal. rewrite <- replicate_add. f_equal. lia.
  - destruct (Reserve_spec this v xs n h o d l Ho Hrep)
      as (h1 & v1 & d1 & HR & Hrep1 & Hcap1 & _ & Hfr1).
    destruct Hrep1 as [-> -> | b cap -> Hc0 Hle Hb]; simpl in *; [lia|].
    erewrite bind_Ok; last first.
    { erewrite bind_Ok by done.
      erewrite bind_Ok by (apply get_data__Ok; apply lookup_insert_eq).
      unfold ptr_add, uninitialized_value_construct_n. simpl.
      rewrite (uninitialized_value_construct_from_block b (size_ v) 0
                 (n - size_ v) h1 _ None None d1 l (Some <$> xs) []
                 (replicate (cap - n) None)); [reflexivity| |..].
      - rewrite Hb. unfold cells. simpl. do 2 f_equal.
        rewrite <- replicate_add. f_equal. lia.
      - by rewrite length_fmap.
      - done. }
    erewrite set_size__Ok by apply lookup_insert_eq.
    rewrite insert_insert_eq. simpl.
    eexists _, _, _. split; [reflexivity|].
    rewrite take_ge by lia.
    assert (Hlen : length (xs ++ replicate (n - length xs) value_init) = n).
    { rewrite length_app, length_replicate. lia. }
    split; [|split; [simpl; lia|split; [lia|]]].
    + apply rep_block_at; [|done|done|lia].
      rewrite lookup_insert_eq. unfold cells.
      rewrite Hlen, fmap_app, <- app_assoc, Hsize. done.
    + eapply frame_trans; [done|]. by apply frame_same_block.
Qed.

(** ** [Emplace] on a full vector: the growth path *)

Lemma relocated_failed n f ys : ¬ passes (reloc_ticks n) f → relocated ys = ys.
Proof.
  unfold reloc_ticks, relocated. destruct by_move; [|done].
  intros []. apply passes_0.
Qed.

Lemma delete_fresh_insert h b (cs : list (option T)) :
  h !! b = None → delete b (<[b := cs]> h) = h.
Proof. intros. by rewrite delete_insert_eq, delete_id. Qed.

Lemma CopyMoveNElements_nothing first first_d w :
  CopyMoveNElements first 0 first_d w = Ok () w.
Proof. unfold CopyMoveNElements. by destruct (_ || _). Qed.

Lemma new_capacity_for_gt n : n < new_capacity_for n.
Proof. unfold new_capacity_for. case_decide; lia. Qed.

(** The slots of the new block while the growth path fills it: the new
    element first, then the prefix, then the suffix. *)
Lemma raw_with_one (x : T) i n :
  i < n →
  <[i := Some x]> (replicate n None)
  = replicate i None ++ Some x :: replicate (n - i - 1) None.
Proof.
  intros. rewrite (raw_split n i) by lia.
  remember (n - i - 1) as k eqn:Hk.
  replace (n - i) with (S k) by lia. simpl.
  apply insert_middle. by rewrite length_replicate.
Qed.

Lemma bind_cong {A B} (m m' : M A) (k : A → M B) w :
  m w = m' w → bind m k w = bind m' k w.
Proof. unfold bind. by intros ->. Qed.

(** Relocating an empty suffix does nothing, so the test [pos != cend()]
    only saves a call. *)
Lemma skip_empty_suffix (P : Prop) `{!Decision P} first n first_d
    (hd : M unit) w :
  (¬ P → n = 0) →
  (if decide P then try_catch (CopyMoveNElements first n first_d) hd
   else ret ()) w
  = try_catch (CopyMoveNElements first n first_d) hd w.
Proof.
  intros Hn. case_decide; [done|]. rewrite Hn by done.
  unfold try_catch. by rewrite CopyMoveNElements_nothing.
Qed.

Lemma grow_body_block this b b' xs i x ncap h o f mf d l :
  let v := mkVector (mkRawMemory (Ptr (Some b) 0) (length xs)) (length xs) in
  let N := 1 + reloc_ticks (length xs) in
  o !! this = Some v →
  h !! b = Some (cells xs (length xs)) →
  h !! b' = Some (replicate ncap None) →
  b ≠ b' → i ≤ length xs → length xs < ncap →
  move_ok is_nothrow_move_constructible mf →
  ∃ r, grow_body this (Ptr (Some b) 0) (Ptr (Some b) i) i (length xs)
                 (mkRawMemory (Ptr (Some b') 0) ncap) x (World h o f mf d l) = r ∧
    (passes N f →
       r = Ok () (World (<[b := replicate (length xs) None]>
                           (<[b' := cells (take i xs ++ x :: drop i xs) ncap]> h))
                        o (spend N f) mf (length xs + d) l)) ∧
    (¬ passes N f → ∃ d', r = Throw (World h o None mf d' l)).
Proof.
  intros v N Ho Hb Hb' Hne Hi Hncap Hmv. unfold grow_body.
  assert (Hxs : cells xs (length xs)
                = (Some <$> take i xs) ++ (Some <$> drop i xs)).
  { rewrite (cells_take_drop xs _ i), Nat.sub_diag by lia.
    simpl. by rewrite app_nil_r. }
  assert (Hti : length (take i xs) = i) by (rewrite length_take; lia).
  assert (Hdi : length (drop i xs) = length xs - i) by by rewrite length_drop.
  erewrite bind_Ok; last first.
  { unfold RawMemory_plus. simpl.
    rewrite bool_decide_eq_true_2 by lia. reflexivity. }
  unfold ptr_add. simpl.
  (* the new element *)
  destruct (decide (passes 1 f)) as [P1|P1]; last first.
  { eexists. split.
    { apply bind_Throw, bind_Throw. by apply tick_Throw. }
    split; [|by eauto]. intros HP. destruct P1. eapply passes_le, HP. lia. }
  erewrite bind_Ok; last first.
  { unfold construct_at. erewrite bind_Ok by by apply tick_Ok.
    eapply place_block; [done|]. apply lookup_replicate_2. lia. }
  set (D1 := <[i := Some x]> (replicate ncap None)).
  assert (HD1 : D1 = replicate i None ++ Some x :: replicate (ncap - i - 1) None).
  { apply raw_with_one. lia. }
  set (f1 := spend 1 f).
  (* the elements before the new one *)
  set (D2 := (Some <$> take i xs) ++ Some x :: replicate (ncap - i - 1) None).
  set (S2 := (Some <$> relocated (take i xs)) ++ (Some <$> drop i xs)).
  set (h2 := <[b := S2]> (<[b' := D2]> (<[b' := D1]> h))).
  assert (HCM1 :
    CopyMoveNElements (Ptr (Some b) 0) i (Ptr (Some b') 0)
      (World (<[b' := D1]> h) o f1 mf d l)
    = if decide (passes (reloc_ticks i) f1) then
        Ok () (World h2 o (spend (reloc_ticks i) f1) mf d l)
      else Throw (World (<[b' := D1]> h) o None mf (default 0 f1 + d) l)).
  { apply (CopyMoveNElements_blocks b b' 0 0 i _ o f1 mf d l
             [] (take i xs) (Some <$> drop i xs)
             [] (Some x :: replicate (ncap - i - 1) None)); try done.
    - by rewrite lookup_insert_ne, Hb, Hxs.
    - by rewrite lookup_insert_eq, HD1. }
  destruct (decide (passes (reloc_ticks i) f1)) as [P2|P2]; last first.
  { eexists. split.
    { apply bind_Throw. erewrite try_catch_Throw by done.
      unfold RawMemory_plus. simpl.
      rewrite bool_decide_eq_true_2 by lia.
      erewrite (bind_Ok (bind _ _)) by reflexivity.
      erewrite bind_Ok; [reflexivity|].
      eapply destroy_at_block; [by rewrite lookup_insert_eq|].
      unfold D1. apply list_lookup_insert_eq. rewrite length_replicate. lia. }
    split.
    - intros HP. destruct P2.
      apply passes_add in HP as [_ HP]. eapply passes_le, HP.
      by apply reloc_ticks_mono.
    - eexists. unfold throw. do 2 f_equal.
      rewrite insert_insert_eq. unfold D1.
      rewrite list_insert_insert_eq, list_insert_id.
      + by apply insert_id.
      + apply lookup_replicate_2. lia. }
  erewrite bind_Ok by by apply try_catch_Ok.
  clear HCM1.
  set (f2 := spend (reloc_ticks i) f1).
  erewrite bind_Ok by by apply end__Ok.
  unfold ptr_add. simpl.
  (* the elements after the new one *)
  set (D3 := ((Some <$> take i xs) ++ [Some x]) ++ (Some <$> drop i xs)
             ++ replicate (ncap - length xs - 1) None).
  set (S3 := (Some <$> relocated (take i xs))
             ++ (Some <$> relocated (drop i xs)) ++ []).
  set (h3 := <[b := S3]> (<[b' := D3]> h2)).
  assert (HCM2 :
    CopyMoveNElements (Ptr (Some b) i) (length xs - i) (Ptr (Some b') (i + 1))
      (World h2 o f2 mf d l)
    = if decide (passes (reloc_ticks (length xs - i)) f2) then
        Ok () (World h3 o (spend (reloc_ticks (length xs - i)) f2) mf d l)
      else Throw (World h2 o None mf (default 0 f2 + d) l)).
  { apply (CopyMoveNElements_blocks b b' i (i + 1) (length xs - i) h2 o f2 mf d l
             (Some <$> relocated (take i xs)) (drop i xs) []
             ((Some <$> take i xs) ++ [Some x])
             (replicate (ncap - length xs - 1) None)); try done.
    - unfold h2. rewrite lookup_insert_eq. unfold S2. by rewrite app_nil_r.
    - unfold h2. rewrite lookup_insert_ne, lookup_insert_eq by done.
      unfold D2. rewrite <- app_assoc. simpl. do 3 f_equal.
      rewrite (raw_split (ncap - i - 1) (length xs - i)) by lia.
      do 2 f_equal. lia.
    - by rewrite length_fmap, relocated_length.
    - rewrite length_app, length_fmap. simpl. lia. }
  erewrite bind_cong; last first.
  { apply skip_empty_suffix. intros Hpos.
    destruct (decide (i = length xs)) as [->|]; [lia|].
    destruct Hpos. congruence. }
  destruct (decide (passes (reloc_ticks (length xs - i)) f2)) as [P3|P3];
    last first.
  { eexists. split.
    { apply bind_Throw. erewrite try_catch_Throw by done.
      erewrite bind_Ok; [reflexivity|].
      apply (destroy_n_block b' 0 (i + 1) h2 o None mf _ l
               [] (take i xs ++ [x]) (replicate (ncap - i - 1) None)).
      - unfold h2. rewrite lookup_insert_ne, lookup_insert_eq by done.
        unfold D2. by rewrite fmap_app, <- app_assoc.
      - done.
      - rewrite length_app. simpl. lia. }
    split.
    - intros HP. destruct P3.
      apply passes_add in HP as [_ HP].
      replace (length xs) with (i + (length xs - i)) in HP at 1 by lia.
      rewrite reloc_ticks_add in HP. by apply passes_add in HP as [_ HP].
    - eexists. unfold throw. do 2 f_equal.
      unfold h2, S2. rewrite (relocated_failed _ _ _ P3).
      apply map_eq. intros k.
      destruct (decide (k = b')) as [->|]; [|destruct (decide (k = b)) as [->|]];
        simplify_map_eq.
      + simpl. rewrite <- replicate_add. do 2 f_equal. lia.
      + by rewrite Hxs.
      + done. }
  erewrite bind_Ok by by apply try_catch_Ok.
  clear HCM2.
  exists (Ok () (World (<[b := replicate (length xs) None]> h3) o
                   (spend (reloc_ticks (length xs - i)) f2) mf
                   (length xs + d) l)).
  split.
  { rewrite (destroy_n_block b 0 (length xs) h3 o _ mf d l
               [] (relocated (take i xs) ++ relocated (drop i xs)) []).
    - simpl. by rewrite app_nil_r.
    - unfold h3. rewrite lookup_insert_eq. unfold S3.
      by rewrite fmap_app, <- app_assoc.
    - done.
    - rewrite length_app, !relocated_length. lia. }
  split; [|intros []].
  - intros _. f_equal. f_equal.
    + apply map_eq. intros k. unfold h3, h2.
      destruct (decide (k = b')) as [->|]; [|destruct (decide (k = b)) as [->|]];
        simplify_map_eq; [|done..].
      unfold D3, cells. rewrite length_app. simpl.
      replace (ncap - (length (take i xs) + S (length (drop i xs))))
        with (ncap - length xs - 1) by lia.
      by rewrite fmap_app, <- !app_assoc.
    + unfold f2, f1, N. rewrite !spend_spend. f_equal.
      rewrite <- reloc_ticks_add. do 2 f_equal. lia.
  - unfold N. apply passes_add. split; [done|].
    replace (length xs) with (i + (length xs - i)) at 1 by lia.
    rewrite reloc_ticks_add. by apply passes_add.
Qed.

Lemma Emplace_grow_block this b xs i x h o f mf d l :
  let v := mkVector (mkRawMemory (Ptr (Some b) 0) (length xs)) (length xs) in
  let b' := fresh (dom h) in
  let N := 2 + reloc_ticks (length xs) in
  let ncap := new_capacity_for (length xs) in
  o !! this = Some v → h !! b = Some (cells xs (length xs)) → i ≤ length xs →
  move_ok is_nothrow_move_constructible mf →
  ∃ r, Emplace this (Ptr (Some b) i) x (World h o f mf d l) = r ∧
    (passes N f →
       r = Ok (Ptr (Some b') i)
              (World (delete b (<[b' := cells (take i xs ++ x :: drop i xs) ncap]> h))
                     (<[this := mkVector (mkRawMemory (Ptr (Some b') 0) ncap)
                                         (length xs + 1)]> o)
                     (spend N f) mf (length xs + d) l)) ∧
    (¬ passes N f → ∃ d', r = Throw (World h o None mf d' l)).
Proof.
  intros v b' N ncap Ho Hb Hi Hmv.
  pose proof (fresh_block_None h) as Hfresh. fold b' in Hfresh.
  assert (b ≠ b') as Hne by congruence.
  pose proof (new_capacity_for_gt (length xs)) as Hncap. fold ncap in Hncap.
  unfold Emplace.
  erewrite bind_Ok by by apply begin__Ok.
  erewrite bind_Ok by (apply ptr_diff_block; lia).
  erewrite bind_Ok by by apply get_size__Ok.
  erewrite bind_Ok by by apply Capacity_Ok.
  simpl. rewrite decide_True by done. rewrite Nat.sub_0_r. fold ncap.
  (* allocation of the new block *)
  destruct (decide (passes 1 f)) as [P1|P1]; last first.
  { eexists. split.
    { apply bind_Throw, bind_Throw, RawMemory_new_Throw; [lia|done]. }
    split; [|by eauto]. intros HP. destruct P1. eapply passes_le, HP. lia. }
  destruct (grow_body_block this b b' xs i x ncap
              (<[b' := replicate ncap None]> h) o (spend 1 f) mf d l)
    as (rb & Hrb & HOk & HThrow); try done.
  { by rewrite lookup_insert_ne. }
  { by rewrite lookup_insert_eq. }
  destruct (decide (passes (1 + reloc_ticks (length xs)) (spend 1 f)))
    as [P2|P2]; last first.
  { destruct (HThrow P2) as [d' ->]. eexists. split.
    { apply bind_Throw. erewrite bind_Ok by (apply RawMemory_new_Ok; [lia|done]).
      apply bind_Throw. fold b'. eapply unwind_Throw; [apply Hrb|].
      eapply RawMemory_dtor_block. by rewrite lookup_insert_eq. }
    split.
    - intros HP. destruct P2. by apply (passes_add 1) in HP as [_ HP].
    - eexists. do 2 f_equal; [by apply delete_fresh_insert|].
      rewrite live_count_raw. lia. }
  rewrite (HOk P2) in Hrb. clear HOk HThrow.
  eexists. split.
  { erewrite bind_Ok; last first.
    { erewrite bind_Ok by (apply RawMemory_new_Ok; [lia|done]).
      fold b'. erewrite bind_Ok by (apply unwind_Ok, Hrb).
      erewrite bind_Ok by by apply get_data__Ok.
      erewrite bind_Ok by by apply set_data__Ok.
      simpl. eapply RawMemory_dtor_block. by rewrite lookup_insert_eq. }
    erewrite bind_Ok by (apply set_size__Ok, lookup_insert_eq).
    erewrite bind_Ok by (apply begin__Ok, lookup_insert_eq).
    reflexivity. }
  split.
  - intros _. unfold ptr_add. simpl.
    rewrite live_count_raw, insert_insert_eq, spend_spend, Nat.add_0_r.
    do 2 f_equal; [by rewrite delete_insert_eq|by rewrite insert_insert_eq].
  - intros []. by apply (passes_add 1).
Qed.

Lemma reloc_ticks_0 : reloc_ticks 0 = 0.
Proof. unfold reloc_ticks. by destruct by_move. Qed.

Lemma Emplace_grow_null this x h o f mf d l :
  let v := mkVector (mkRawMemory nullptr 0) 0 in
  let b' := fresh (dom h) in
  o !! this = Some v →
  ∃ r, Emplace this nullptr x (World h o f mf d l) = r ∧
    (passes 2 f →
       r = Ok (Ptr (Some b') 0)
              (World (<[b' := [Some x]]> h)
                     (<[this := mkVector (mkRawMemory (Ptr (Some b') 0) 1) 1]> o)
                     (spend 2 f) mf d l)) ∧
    (¬ passes 2 f → ∃ d', r = Throw (World h o None mf d' l)).
Proof.
  intros v b' Ho.
  pose proof (fresh_block_None h) as Hfresh. fold b' in Hfresh.
  unfold Emplace.
  erewrite bind_Ok by by apply begin__Ok.
  erewrite bind_Ok by reflexivity.
  erewrite bind_Ok by by apply get_size__Ok.
  erewrite bind_Ok by by apply Capacity_Ok.
  simpl.
  destruct (decide (passes 1 f)) as [P1|P1]; last first.
  { eexists. split.
    { apply bind_Throw, bind_Throw, RawMemory_new_Throw; [done|done]. }
    split; [|by eauto]. intros HP. destruct P1. eapply passes_le, HP. lia. }
  destruct (decide (passes 1 (spend 1 f))) as [P2|P2]; last first.
  { eexists. split.
    { apply bind_Throw. erewrite bind_Ok by (apply RawMemory_new_Ok; done).
      apply bind_Throw. fold b'. eapply unwind_Throw.
      - erewrite bind_Ok by reflexivity.
        apply bind_Throw, bind_Throw. by apply tick_Throw.
      - eapply RawMemory_dtor_block. by rewrite lookup_insert_eq. }
    split.
    - intros HP. destruct P2. by apply (passes_add 1 1) in HP as [_ HP].
    - eexists. do 2 f_equal; [by apply delete_fresh_insert|].
      simpl. unfold live_count. simpl. lia. }
  eexists. split.
  { erewrite bind_Ok; last first.
    { erewrite bind_Ok by (apply RawMemory_new_Ok; done).
      fold b'. erewrite bind_Ok; last first.
      { apply unwind_Ok.
        erewrite bind_Ok by reflexivity.
        erewrite bind_Ok; last first.
        { unfold construct_at. erewrite bind_Ok by by apply tick_Ok.
          eapply place_block; [by rewrite lookup_insert_eq|done]. }
        erewrite bind_Ok
          by (apply try_catch_Ok, CopyMoveNElements_nothing).
        erewrite bind_Ok by by apply end__Ok.
        reflexivity. }
      erewrite bind_Ok by by apply get_data__Ok.
      erewrite bind_Ok by by apply set_data__Ok.
      reflexivity. }
    erewrite bind_Ok by (apply set_size__Ok, lookup_insert_eq).
    erewrite bind_Ok by (apply begin__Ok, lookup_insert_eq).
    reflexivity. }
  split.
  - intros _. unfold ptr_add. simpl.
    by rewrite !insert_insert_eq, spend_spend.
  - intros []. by apply (passes_add 1 1).
Qed.

Lemma Emplace_grow this v xs i x h o f mf d l :
  let b' := fresh (dom h) in
  let N := 2 + reloc_ticks (length xs) in
  let ncap := new_capacity_for (length xs) in
  o !! this = Some v → rep h v xs → size_ v = capacity_ (data_ v) →
  i ≤ length xs →
  move_ok is_nothrow_move_constructible mf →
  ∃ r, Emplace this (buffer_ (data_ v) +ₚ i) x (World h o f mf d l) = r ∧
    (passes N f →
       r = Ok (Ptr (Some b') i)
              (World (release (buffer_ (data_ v))
                        (<[b' := cells (take i xs ++ x :: drop i xs) ncap]> h))
                     (<[this := mkVector (mkRawMemory (Ptr (Some b') 0) ncap)
                                         (length xs + 1)]> o)
                     (spend N f) mf (length xs + d) l)) ∧
    (¬ passes N f → ∃ d', r = Throw (World h o None mf d' l)).
Proof.
  intros b' N ncap Ho Hrep Hfull Hi Hmv.
  destruct Hrep as [-> -> | b cap -> Hc0 Hle Hb]; simpl in *.
  - assert (i = 0) as -> by lia.
    unfold N. rewrite reloc_ticks_0.
    by apply Emplace_grow_null.
  - subst cap. by apply Emplace_grow_block.
Qed.

(** ** [Emplace] with spare capacity: the in-place path *)
Lemma cells_lookup_raw xs cap j :
  length xs ≤ j → j < cap → cells xs cap !! j = Some None.
Proof.
  intros. unfold cells. rewrite lookup_app_r by by rewrite length_fmap.
  rewrite length_fmap. apply lookup_replicate_2. lia.
Qed.

Lemma cells_lookup_live xs cap j x :
  xs !! j = Some x → cells xs cap !! j = Some (Some x).
Proof.
  intros Hj. unfold cells. apply lookup_app_l_Some.
  by rewrite list_lookup_fmap, Hj.
Qed.

Lemma cells_snoc xs cap x :
  length xs < cap →
  <[length xs := Some x]> (cells xs cap) = cells (xs ++ [x]) cap.
Proof.
  intros. unfold cells.
  replace (cap - length xs) with (S (cap - length (xs ++ [x])))
    by (rewrite length_app; simpl; lia).
  simpl. rewrite insert_middle by by rewrite length_fmap.
  by rewrite fmap_app, <- app_assoc.
Qed.

Lemma Emplace_at_end this b cap xs x h o f mf d l :
  let v := mkVector (mkRawMemory (Ptr (Some b) 0) cap) (length xs) in
  o !! this = Some v → h !! b = Some (cells xs cap) → length xs < cap →
  passes 1 f →
  Emplace this (Ptr (Some b) (length xs)) x (World h o f mf d l)
  = Ok (Ptr (Some b) (length xs))
       (World (<[b := cells (xs ++ [x]) cap]> h)
              (<[this := mkVector (mkRawMemory (Ptr (Some b) 0) cap)
                                  (length xs + 1)]> o)
              (spend 1 f) mf d l).
Proof.
  intros v Ho Hb Hlt Hp. unfold Emplace.
  erewrite bind_Ok by by apply begin__Ok.
  erewrite bind_Ok by (apply ptr_diff_block; lia).
  erewrite bind_Ok by by apply get_size__Ok.
  erewrite bind_Ok by by apply Capacity_Ok.
  simpl. rewrite decide_False by lia. rewrite Nat.sub_0_r.
  erewrite bind_Ok; last first.
  { erewrite bind_Ok by by apply end__Ok.
    unfold ptr_add. simpl. rewrite decide_True by done.
    erewrite bind_Ok by by apply end__Ok.
    unfold construct_at, ptr_add. simpl.
    erewrite bind_Ok by by apply tick_Ok.
    eapply place_block; [done|]. apply cells_lookup_raw; lia. }
  erewrite bind_Ok by by apply set_size__Ok.
  erewrite bind_Ok by (apply begin__Ok, lookup_insert_eq).
  unfold ret, ptr_add. simpl.
  by rewrite cells_snoc.
Qed.

Lemma raw_cons (n : nat) :
  0 < n → replicate n (@None T) = None :: replicate (n - 1) None.
Proof. destruct n; [lia|]. simpl. by rewrite Nat.sub_0_r. Qed.

Lemma move_assign_local_block b i x y h o f mf d l cs :
  move_ok is_nothrow_move_assignable mf →
  h !! b = Some cs → cs !! i = Some (Some y) →
  move_assign_local (Ptr (Some b) i) x (World h o f mf d l)
  = Ok () (World (<[b := <[i := Some x]> cs]> h) o f mf d l).
Proof.
  intros. unfold move_assign_local.
  erewrite bind_Ok by by eapply read_block.
  erewrite bind_Ok by by apply tick_move_Ok.
  eapply store_block; [done|]. by eapply lookup_lt_Some.
Qed.

Lemma Emplace_in_middle this b cap ys mid xl x h o f mf d l :
  let xs := ys ++ mid ++ [xl] in
  let v := mkVector (mkRawMemory (Ptr (Some b) 0) cap) (length xs) in
  o !! this = Some v → h !! b = Some (cells xs cap) → length xs < cap →
  passes 1 f →
  move_ok is_nothrow_move_constructible mf →
  move_ok is_nothrow_move_assignable mf →
  Emplace this (Ptr (Some b) (length ys)) x (World h o f mf d l)
  = Ok (Ptr (Some b) (length ys))
       (World (<[b := cells (ys ++ x :: mid ++ [xl]) cap]> h)
              (<[this := mkVector (mkRawMemory (Ptr (Some b) 0) cap)
                                  (length xs + 1)]> o)
              (spend 1 f) mf (S d) l).
Proof.
  intros xs v Ho Hb Hlt Hp Hmc Hma.
  assert (Hlen : length xs = length ys + length mid + 1).
  { unfold xs. rewrite !length_app. simpl. lia. }
  set (raw := replicate (cap - length xs - 1) (@None T)).
  assert (Hcells : cells xs cap
    = (Some <$> ys) ++ (Some <$> mid) ++ Some xl :: None :: raw).
  { unfold cells, xs, raw. rewrite !fmap_app, <- !app_assoc. simpl.
    do 3 f_equal. fold xs. apply raw_cons. lia. }
  rewrite Hcells in Hb.
  unfold Emplace.
  erewrite bind_Ok by by apply begin__Ok.
  erewrite bind_Ok by (apply ptr_diff_block; lia).
  erewrite bind_Ok by by apply get_size__Ok.
  erewrite bind_Ok by by apply Capacity_Ok.
  simpl. rewrite decide_False by lia. rewrite Nat.sub_0_r.
  erewrite bind_Ok; last first.
  { erewrite bind_Ok by by apply end__Ok.
    unfold ptr_add. simpl. rewrite decide_False by (intros [=]; lia).
    erewrite bind_Ok by by apply tick_Ok.
    erewrite bind_Ok; last first.
    { apply unwind_Ok.
      erewrite bind_Ok by by apply end__Ok.
      unfold ptr_add. simpl.
      erewrite bind_Ok by (apply ptr_sub_block; lia).
      rewrite Hlen.
      replace (length ys + length mid + 1 - 1)
        with (length ys + length mid) by lia.
      erewrite bind_Ok; last first.
      { unfold move_construct_at.
        erewrite bind_Ok; last first.
        { eapply read_block; [done|].
          apply lookup_middle2. by rewrite !length_fmap. }
        erewrite bind_Ok by by apply tick_move_Ok.
        erewrite bind_Ok; last first.
        { eapply place_block; [done|].
          apply lookup_middle2_next. by rewrite !length_fmap. }
        eapply store_block; [by rewrite lookup_insert_eq|].
        rewrite length_insert, !length_app, !length_fmap. simpl. lia. }
      rewrite insert_insert_eq.
      rewrite insert_middle2_next by by rewrite !length_fmap.
      rewrite insert_middle2 by by rewrite !length_fmap.
      erewrite bind_Ok; last first.
      { unfold move_backward.
        erewrite bind_Ok by (apply ptr_diff_block; lia).
        replace (length ys + length mid - length ys) with (length mid) by lia.
        eapply (move_backward_n_block b (length ys) (length mid) _ _ _ o _ mf d l
                  (Some <$> ys) mid (moved_from xl) (Some xl :: raw));
          try done.
        - by rewrite lookup_insert_eq.
        - by rewrite length_fmap. }
      rewrite insert_insert_eq.
      erewrite bind_Ok by by apply get_data__Ok.
      erewrite bind_Ok; last first.
      { unfold RawMemory_index. simpl.
        rewrite bool_decide_eq_true_2 by lia. reflexivity. }
      unfold ptr_add. simpl.
      eapply move_assign_local_block; [done|by rewrite lookup_insert_eq|].
      apply lookup_middle. by rewrite length_fmap. }
    reflexivity. }
  erewrite bind_Ok by by apply set_size__Ok.
  erewrite bind_Ok by (apply begin__Ok, lookup_insert_eq).
  unfold ret, ptr_add. simpl.
  rewrite insert_insert_eq, insert_middle by by rewrite length_fmap.
  do 3 f_equal. unfold cells.
  rewrite !length_app. simpl. rewrite !length_app. simpl.
  rewrite !fmap_app, <- !app_assoc. simpl. rewrite fmap_app. simpl.
  rewrite <- !app_assoc. simpl. do 4 f_equal.
  unfold raw. f_equal. lia.
Qed.

Lemma split_last_of_drop xs i :
  i < length xs → ∃ mid xl, drop i xs = mid ++ [xl].
Proof.
  intros Hi. destruct (drop i xs) as [|z zs] eqn:Hd using rev_ind.
  - apply (f_equal length) in Hd. rewrite length_drop in Hd. simpl in Hd. lia.
  - eauto.
Qed.

(** ** [Emplace], when nothing throws *)
Lemma Emplace_spec this v xs i x h o d l :
  o !! this = Some v → rep h v xs → i ≤ length xs →
  ∃ h' v' d',
    Emplace this (buffer_ (data_ v) +ₚ i) x (World h o None None d l)
    = Ok (buffer_ (data_ v') +ₚ i) (World h' (<[this := v']> o) None None d' l) ∧
    rep h' v' (take i xs ++ x :: drop i xs) ∧
    capacity_ (data_ v')
    = (if decide (size_ v = capacity_ (data_ v))
       then new_capacity_for (size_ v) else capacity_ (data_ v)) ∧
    frame h v h' v'.
Proof.
  intros Ho Hrep Hi.
  pose proof (rep_size _ _ _ Hrep) as Hsize.
  pose proof (rep_capacity _ _ _ Hrep) as Hcap.
  assert (Hlen : length (take i xs ++ x :: drop i xs) = length xs + 1).
  { rewrite length_app, length_take, length_cons, length_drop. lia. }
  destruct (decide (size_ v = capacity_ (data_ v))) as [Hfull|Hspare].
  - destruct (Emplace_grow this v xs i x h o None None d l Ho Hrep Hfull Hi)
      as (r & <- & HOk & _); [by right|].
    rewrite HOk by done.
    eexists _, (mkVector (mkRawMemory (Ptr (Some (fresh (dom h))) 0) _) _), _.
    split; [reflexivity|].
    pose proof (new_capacity_for_gt (length xs)).
    split; [|split].
    + rewrite <- Hlen. apply (rep_release_fresh h v xs); [done|lia|lia].
    + simpl. by rewrite Hsize.
    + apply frame_fresh_block; [apply fresh_block_None|done].
  - destruct Hrep as [-> -> | b cap -> Hc0 Hle Hb]; simpl in *; [done|].
    unfold ptr_add. simpl.
    destruct (decide (i = length xs)) as [->|Hmid].
    + rewrite (Emplace_at_end this b cap xs x h o None None d l)
        by (done || lia).
      eexists _, (mkVector (mkRawMemory (Ptr (Some b) 0) _) _), _.
      split; [reflexivity|].
      rewrite take_ge, drop_ge by lia.
      split; [|split; [done|by apply frame_same_block]].
      apply rep_block_at; [by rewrite lookup_insert_eq|done| |lia].
      rewrite length_app. simpl. lia.
    + destruct (split_last_of_drop xs i) as (mid & xl & Hdrop); [lia|].
      assert (Hxs : xs = take i xs ++ mid ++ [xl])
        by by rewrite <- Hdrop, take_drop.
      assert (Hti : length (take i xs) = i) by (rewrite length_take; lia).
      pose proof (Emplace_in_middle this b cap (take i xs) mid xl x
                    h o None None d l) as HE.
      simpl in HE. rewrite <- Hxs, Hti in HE.
      rewrite HE by (done || lia || by right).
      eexists _, (mkVector (mkRawMemory (Ptr (Some b) 0) _) _), _.
      split; [reflexivity|].
      rewrite Hdrop in Hlen |- *.
      split; [|split; [done|by apply frame_same_block]].
      apply rep_block_at; [by rewrite lookup_insert_eq|done|done|lia].
Qed.

(** ** [Erase] and [PopBack] *)
Lemma cells_erase ys zs cap :
  length (ys ++ zs) < cap →
  (Some <$> ys) ++ (Some <$> zs) ++ None :: replicate (cap - S (length (ys ++ zs))) None
  = cells (ys ++ zs) cap.
Proof.
  intros. unfold cells. rewrite fmap_app, <- app_assoc. do 2 f_equal.
  symmetry. rewrite raw_cons by lia. do 2 f_equal. lia.
Qed.

Lemma Erase_block this b cap ys a zs h o f mf d l :
  let xs := ys ++ a :: zs in
  let v := mkVector (mkRawMemory (Ptr (Some b) 0) cap) (length xs) in
  o !! this = Some v → h !! b = Some (cells xs cap) → length xs ≤ cap →
  move_ok is_nothrow_move_assignable mf →
  Erase this (Ptr (Some b) (length ys)) (World h o f mf d l)
  = Ok (Ptr (Some b) (length ys))
       (World (<[b := cells (ys ++ zs) cap]> h)
              (<[this := mkVector (mkRawMemory (Ptr (Some b) 0) cap)
                                  (length xs - 1)]> o)
              f mf (S d) l).
Proof.
  intros xs v Ho Hb Hle Hma.
  assert (Hlen : length xs = length ys + length zs + 1).
  { unfold xs. rewrite length_app. simpl. lia. }
  set (raw := replicate (cap - length xs) (@None T)).
  assert (Hcells : cells xs cap = (Some <$> ys) ++ Some a :: (Some <$> zs) ++ raw).
  { unfold cells, xs. by rewrite fmap_app, <- app_assoc. }
  rewrite Hcells in Hb.
  unfold Erase.
  erewrite bind_Ok by by apply end__Ok.
  unfold ptr_add. simpl.
  rewrite bool_decide_eq_true_2 by (intros [=]; lia).
  erewrite bind_Ok by reflexivity.
  erewrite bind_Ok by by apply end__Ok.
  unfold ptr_add. simpl.
  erewrite bind_Ok; last first.
  { unfold move. erewrite bind_Ok by (apply ptr_diff_block; lia).
    replace (length xs - (length ys + 1)) with (length zs) by lia.
    by eapply (move_n_block b (length ys) (length zs) h o f mf d l
                 (Some <$> ys) a zs raw); rewrite ?length_fmap. }
  erewrite bind_Ok; last first.
  { unfold Destroy. eapply destroy_at_block; [by rewrite lookup_insert_eq|].
    apply lookup_middle2. by rewrite !length_fmap. }
  rewrite insert_insert_eq, insert_middle2 by by rewrite !length_fmap.
  erewrite bind_Ok by by apply get_size__Ok.
  erewrite bind_Ok by by apply set_size__Ok.
  unfold ret. simpl. do 3 f_equal.
  unfold raw. rewrite <- cells_erase by (rewrite length_app; lia).
  do 4 f_equal. rewrite length_app. lia.
Qed.

Lemma Erase_spec this v xs i h o f mf d l :
  o !! this = Some v → rep h v xs → i < length xs →
  move_ok is_nothrow_move_assignable mf →
  ∃ h' v',
    Erase this (buffer_ (data_ v) +ₚ i) (World h o f mf d l)
    = Ok (buffer_ (data_ v) +ₚ i) (World h' (<[this := v']> o) f mf (S d) l) ∧
    rep h' v' (take i xs ++ drop (S i) xs) ∧
    data_ v' = data_ v ∧
    frame h v h' v'.
Proof.
  intros Ho Hrep Hi Hmv.
  destruct Hrep as [-> -> | b cap -> Hc0 Hle Hb]; simpl in *; [lia|].
  destruct (lookup_lt_is_Some_2 xs i Hi) as [a Ha].
  pose proof (take_drop_middle xs i a Ha) as Hxs.
  assert (Hti : length (take i xs) = i) by (rewrite length_take; lia).
  pose proof (Erase_block this b cap (take i xs) a (drop (S i) xs)
                h o f mf d l) as HE.
  simpl in HE. rewrite Hxs, Hti in HE.
  unfold ptr_add. simpl. rewrite HE by done.
  eexists _, _. split; [reflexivity|].
  split; [|split; [done|by apply frame_same_block]].
  apply rep_block_at; [by rewrite lookup_insert_eq|done| |lia].
  apply (f_equal length) in Hxs. rewrite length_app in *. simpl in *. lia.
Qed.

Lemma PopBack_spec this v xs h o f mf d l :
  o !! this = Some v → rep h v xs → 0 < length xs →
  ∃ h' v',
    PopBack this (World h o f mf d l)
    = Ok () (World h' (<[this := v']> o) f mf (S d) l) ∧
    rep h' v' (take (length xs - 1) xs) ∧
    data_ v' = data_ v ∧
    frame h v h' v'.
Proof.
  intros Ho Hrep Hpos.
  destruct Hrep as [-> -> | b cap -> Hc0 Hle Hb]; simpl in *; [lia|].
  destruct xs as [|z zs _] using rev_ind; simpl in *; [lia|].
  rewrite length_app in *. simpl in *.
  replace (length zs + 1 - 1) with (length zs) by lia.
  rewrite take_app_length.
  unfold PopBack.
  erewrite bind_Ok by by apply get_size__Ok.
  simpl. rewrite bool_decide_eq_true_2 by lia.
  erewrite bind_Ok by reflexivity.
  erewrite bind_Ok by by apply get_data__Ok.
  erewrite bind_Ok; last first.
  { unfold RawMemory_index. simpl.
    rewrite bool_decide_eq_true_2 by lia. reflexivity. }
  unfold ptr_add. simpl.
  replace (length zs + 1 - 1) with (length zs) by lia.
  erewrite bind_Ok; last first.
  { eapply destroy_at_block; [done|].
    apply cells_lookup_live. by apply lookup_middle. }
  erewrite set_size__Ok by done. simpl.
  eexists _, _. split; [reflexivity|].
  split; [|split; [done|by apply frame_same_block]].
  apply rep_block_at; [|done|lia|lia].
  rewrite lookup_insert_eq. f_equal. unfold cells.
  rewrite fmap_app, <- app_assoc, length_app. simpl.
  rewrite insert_middle by by rewrite length_fmap.
  f_equal. rewrite (raw_cons (cap - length zs)) by lia.
  do 2 f_equal. lia.
Qed.

(** ** [Swap] and the two move operations: whatever the fuses *)
Lemma Swap_spec this other a c h o f mf d l :
  o !! this = Some a → o !! other = Some c →
  Swap this other (World h o f mf d l)
  = Ok () (World h (<[other := a]> (<[this := c]> o)) f mf d l).
Proof.
  intros Ha Hc. unfold Swap.
  erewrite bind_Ok by by apply get_data__Ok.
  erewrite bind_Ok by by apply get_data__Ok.
  erewrite bind_Ok by by apply set_data__Ok.
  destruct a as [da sa], c as [dc sc], da as [ba ca], dc as [bc cc].
  simpl.
  destruct (decide (this = other)) as [<-|Hne].
  - rewrite Ha in Hc. injection Hc as <- <- <-.
    erewrite bind_Ok by (apply set_data__Ok, lookup_insert_eq).
    erewrite bind_Ok by (apply get_size__Ok, lookup_insert_eq).
    erewrite bind_Ok by (apply get_size__Ok, lookup_insert_eq).
    erewrite bind_Ok by (apply set_size__Ok, lookup_insert_eq).
    erewrite set_size__Ok by apply lookup_insert_eq.
    simpl. by rewrite !insert_insert_eq.
  - erewrite bind_Ok
      by (apply set_data__Ok; rewrite lookup_insert_ne by done; done).
    erewrite bind_Ok; last first.
    { apply get_size__Ok. rewrite lookup_insert_ne by done.
      apply lookup_insert_eq. }
    erewrite bind_Ok by (apply get_size__Ok, lookup_insert_eq).
    erewrite bind_Ok; last first.
    { apply set_size__Ok. rewrite lookup_insert_ne by done.
      apply lookup_insert_eq. }
    erewrite set_size__Ok; last first.
    { rewrite lookup_insert_ne by done. apply lookup_insert_eq. }
    simpl. do 2 f_equal.
    apply map_eq. intros k.
    destruct (decide (k = other)), (decide (k = this)); by simplify_map_eq.
Qed.

Lemma Vector_move_spec this other c h o f mf d l :
  this ≠ other → o !! other = Some c →
  Vector_move this other (World h o f mf d l)
  = Ok () (World h (<[other := empty_vector]> (<[this := c]> o)) f mf d l).
Proof.
  intros Hne Hc. unfold Vector_move, Vector_default.
  erewrite bind_Ok by reflexivity.
  erewrite Swap_spec;
    [|apply lookup_insert_eq|by rewrite lookup_insert_ne].
  by rewrite insert_insert_eq.
Qed.

(** ** Constructors and the destructor, when nothing throws *)
Lemma frame_new_block h v b' cs :
  h !! b' = None → block_of v = Some b' →
  frame h empty_vector (<[b' := cs]> h) v.
Proof.
  intros. apply (frame_fresh_block h empty_vector v b' cs); done.
Qed.

Lemma cells_full xs : cells xs (length xs) = Some <$> xs.
Proof. unfold cells. rewrite Nat.sub_diag. simpl. by rewrite app_nil_r. Qed.

Lemma Vector_default_spec this h o f mf d l :
  Vector_default this (World h o f mf d l)
  = Ok () (World h (<[this := empty_vector]> o) f mf d l).
Proof. done. Qed.

Lemma rep_empty h : rep h empty_vector [].
Proof. by apply rep_null. Qed.

Lemma Vector_sized_spec this n h o d l :
  ∃ h' v',
    Vector_sized this n (World h o None None d l)
    = Ok () (World h' (<[this := v']> o) None None d l) ∧
    rep h' v' (replicate n value_init) ∧
    capacity_ (data_ v') = n ∧
    frame h empty_vector h' v'.
Proof.
  unfold Vector_sized. destruct (decide (n = 0)) as [->|Hn].
  - exists h, empty_vector. split; [done|].
    split; [apply rep_empty|]. split; [done|apply frame_refl].
  - erewrite bind_Ok by (apply RawMemory_new_Ok; done).
    erewrite bind_Ok by reflexivity.
    pose proof (fresh_block_None h) as Hfresh.
    set (b' := fresh (dom h)) in *.
    erewrite unwind_Ok; last first.
    { unfold uninitialized_value_construct_n. simpl.
      rewrite (uninitialized_value_construct_from_block b' 0 0 n _ _ None None
                 d l [] [] []); [reflexivity| |done..].
      rewrite lookup_insert_eq. simpl. by rewrite app_nil_r. }
    simpl. rewrite insert_insert_eq, app_nil_r.
    eexists _, _. split; [reflexivity|].
    split; [|split; [done|by apply frame_new_block]].
    apply rep_block_at; [|done|by rewrite length_replicate|done].
    rewrite lookup_insert_eq. f_equal.
    rewrite <- (cells_full (replicate n value_init)).
    by rewrite length_replicate.
Qed.

Lemma Vector_dtor_spec this v xs h o f mf d l :
  o !! this = Some v → rep h v xs →
  Vector_dtor this (World h o f mf d l)
  = Ok () (World (release (buffer_ (data_ v)) h) (delete this o) f mf
                 (length xs + d) l).
Proof.
  intros Ho Hrep. unfold Vector_dtor.
  erewrite bind_Ok by by apply get_data__Ok.
  erewrite bind_Ok by by apply get_size__Ok.
  destruct Hrep as [-> -> | b cap -> Hc0 Hle Hb]; simpl in *.
  - by erewrite bind_Ok by reflexivity.
  - erewrite bind_Ok; last first.
    { by apply (destroy_n_block b 0 (length xs) h o f mf d l
                  [] xs (replicate (cap - length xs) None)). }
    erewrite bind_Ok; last first.
    { eapply RawMemory_dtor_block. by rewrite lookup_insert_eq. }
    unfold end_object, release. simpl.
    rewrite live_count_app, !live_count_raw, delete_insert_eq.
    do 2 f_equal. lia.
Qed.

(** ** Copying out of a vector *)
Lemma copy_n_from_rep c ys bt di n h o f mf d l dpre zs dpost :
  rep h c ys → block_of c ≠ Some bt →
  h !! bt = Some (dpre ++ (Some <$> zs) ++ dpost) →
  length dpre = di → length zs = n → n ≤ length ys → passes n f →
  copy_n (buffer_ (data_ c)) n (Ptr (Some bt) di) (World h o f mf d l)
  = Ok () (World (<[bt := dpre ++ (Some <$> take n ys) ++ dpost]> h)
                 o (spend n f) mf d l).
Proof.
  intros Hrep Hne Hbt Hdi Hn Hle Hp.
  destruct Hrep as [-> -> | b cap -> Hc0 Hcap Hb]; simpl in *.
  - assert (n = 0) as -> by lia. destruct zs; [|done].
    simpl. unfold ret. rewrite spend_0. by rewrite insert_id.
  - apply (copy_n_blocks b bt 0 di n h o f mf d l [] (take n ys)
             ((Some <$> drop n ys) ++ replicate (cap - length ys) None)
             dpre zs dpost); try done.
    + unfold block_of in Hne. simpl in Hne. congruence.
    + rewrite Hb. f_equal. simpl. apply cells_take_drop; lia.
    + rewrite length_take. lia.
Qed.

Lemma uninitialized_copy_n_from_rep c ys bd n h o f mf d l :
  rep h c ys → block_of c ≠ Some bd → n = length ys →
  h !! bd = Some (replicate n None) → passes n f →
  uninitialized_copy_n (buffer_ (data_ c)) n (Ptr (Some bd) 0)
    (World h o f mf d l)
  = Ok () (World (<[bd := Some <$> ys]> h) o (spend n f) mf d l).
Proof.
  intros Hrep Hne -> Hbd Hp. unfold uninitialized_copy_n.
  destruct Hrep as [-> -> | b cap -> Hc0 Hcap Hb]; simpl in *.
  - unfold ret. rewrite spend_0. by rewrite insert_id.
  - rewrite (uninitialized_copy_from_blocks b bd 0 0 0 (length ys) h o f mf d l
               [] ys (replicate (cap - length ys) None) [] [] []); try done.
    + rewrite decide_True by done. simpl. by rewrite app_nil_r.
    + unfold block_of in Hne. simpl in Hne. congruence.
    + simpl. by rewrite app_nil_r.
Qed.

Lemma Vector_copy_spec this other c ys h o d l :
  this ≠ other → o !! other = Some c → rep h c ys →
  ∃ h' v',
    Vector_copy this other (World h o None None d l)
    = Ok () (World h' (<[this := v']> o) None None d l) ∧
    rep h' v' ys ∧
    capacity_ (data_ v') = length ys ∧
    frame h empty_vector h' v'.
Proof.
  intros Hne Hc Hrep. unfold Vector_copy.
  erewrite bind_Ok by by apply get_size__Ok.
  rewrite (rep_size _ _ _ Hrep).
  destruct (decide (length ys = 0)) as [Hz|Hnz].
  - rewrite Hz. erewrite bind_Ok by reflexivity.
    erewrite bind_Ok by reflexivity.
    erewrite bind_Ok
      by (apply get_data__Ok; rewrite lookup_insert_ne by done; done).
    erewrite unwind_Ok by reflexivity.
    exists h, empty_vector. split; [done|].
    destruct ys; [|done].
    split; [apply rep_empty|]. split; [done|apply frame_refl].
  - erewrite bind_Ok by (apply RawMemory_new_Ok; done).
    erewrite bind_Ok by reflexivity.
    erewrite bind_Ok
      by (apply get_data__Ok; rewrite lookup_insert_ne by done; done).
    pose proof (fresh_block_None h) as Hfresh.
    set (b' := fresh (dom h)) in *.
    assert (block_of c ≠ Some b') as Hcb.
    { intros Hcb. eapply rep_block_of in Hcb as [? Hcb]; [|done]. congruence. }
    erewrite unwind_Ok; last first.
    { simpl. apply (uninitialized_copy_n_from_rep c ys b'); try done.
      - eapply rep_frame; [done|]. intros b Hb.
        rewrite lookup_insert_ne; [done|congruence].
      - by rewrite lookup_insert_eq. }
    simpl. rewrite insert_insert_eq.
    eexists _, _. split; [reflexivity|].
    split; [|split; [done|by apply frame_new_block]].
    apply rep_block_at; [|done|done|done].
    by rewrite lookup_insert_eq, cells_full.
Qed.

(** ** Copy assignment *)
Lemma operator_assign_self this w : operator_assign this this w = Ok () w.
Proof. unfold operator_assign. by rewrite decide_False by naive_solver. Qed.

Lemma fresh_address_None o : o !! fresh (dom o) = None.
Proof. apply not_elem_of_dom, is_fresh. Qed.

(** The source is longer than the target's capacity: copy and swap. *)
Lemma operator_assign_realloc this rhs v c xs ys h o d l :
  this ≠ rhs → o !! this = Some v → o !! rhs = Some c →
  rep h v xs → rep h c ys → capacity_ (data_ v) < length ys →
  ∃ h' v',
    operator_assign this rhs (World h o None None d l)
    = Ok () (World h' (<[this := v']> o) None None (length xs + d) l) ∧
    rep h' v' ys ∧
    capacity_ (data_ v') = length ys ∧
    frame h v h' v'.
Proof.
  intros Hne Hv Hc Hrv Hrc Hlt. unfold operator_assign.
  rewrite decide_True by done.
  erewrite bind_Ok by by apply get_size__Ok.
  erewrite bind_Ok by by apply Capacity_Ok.
  rewrite (rep_size _ _ _ Hrc), decide_True by done.
  unfold local_address. erewrite bind_Ok by reflexivity. simpl.
  pose proof (fresh_address_None o) as Hfresh.
  set (cc := fresh (dom o)) in *.
  assert (cc ≠ this) by congruence. assert (cc ≠ rhs) by congruence.
  destruct (Vector_copy_spec cc rhs c ys h o d l) as (h1 & vc & HC & Hrvc & Hcap & Hfr);
    [done..|].
  erewrite bind_Ok by done.
  erewrite bind_Ok; last first.
  { apply Swap_spec; [by rewrite lookup_insert_ne|apply lookup_insert_eq]. }
  assert (Hrv1 : rep h1 v xs).
  { eapply rep_frame; [done|]. intros b Hb. apply Hfr; [|done].
    exact (rep_block_of h v xs b Hrv Hb). }
  erewrite Vector_dtor_spec; [|apply lookup_insert_eq|done].
  assert (Hblocks : ∀ b, block_of vc = Some b → block_of v ≠ Some b).
  { intros b Hb Hb'. destruct Hfr as [_ F2].
    destruct (F2 b Hb) as [?|Hn]; [done|].
    destruct (rep_block_of h v xs b Hrv Hb') as [? ?]. congruence. }
  exists (release (buffer_ (data_ v)) h1), vc. split; [|split; [|split]].
  - do 2 f_equal. apply map_eq. intros k.
    destruct (decide (k = cc)) as [->|]; [|destruct (decide (k = this)) as [->|]];
      by simplify_map_eq.
  - eapply rep_frame; [done|]. intros b Hb. unfold release.
    specialize (Hblocks b Hb). unfold block_of in Hblocks.
    destruct (blk (buffer_ (data_ v))); [|done].
    rewrite lookup_delete_ne; [done|congruence].
  - done.
  - destruct Hfr as [F1 F2]. split.
    + intros b Hb Hvb. rewrite <- (F1 b) by done.
      unfold release, block_of in *.
      destruct (blk (buffer_ (data_ v))); [|done].
      rewrite lookup_delete_ne; [done|congruence].
    + intros b Hb. right. by destruct (F2 b Hb).
Qed.

Lemma ptr_diff_offset p n w : ptr_diff (p +ₚ n) p w = Ok n w.
Proof.
  unfold ptr_diff, ptr_add. simpl. rewrite decide_True by (split; [done|lia]).
  unfold ret. f_equal. lia.
Qed.

(** The source is no longer than the target: the target's storage is
    reused, the common prefix assigned and the surplus destroyed. *)
Lemma operator_assign_shrink this rhs v c xs ys h o d l :
  this ≠ rhs → o !! this = Some v → o !! rhs = Some c →
  rep h v xs → rep h c ys → block_of c ≠ block_of v ∨ block_of v = None →
  length ys ≤ length xs →
  ∃ h' v',
    operator_assign this rhs (World h o None None d l)
    = Ok () (World h' (<[this := v']> o) None None
                   (length xs - length ys + d) l) ∧
    rep h' v' ys ∧
    data_ v' = data_ v ∧
    frame h v h' v'.
Proof.
  intros Hne Hv Hc Hrv Hrc Hdisj Hle. unfold operator_assign.
  rewrite decide_True by done.
  erewrite bind_Ok by by apply get_size__Ok.
  erewrite bind_Ok by by apply Capacity_Ok.
  pose proof (rep_capacity _ _ _ Hrv).
  rewrite (rep_size _ _ _ Hrc), decide_False by lia.
  erewrite bind_Ok by by apply get_size__Ok.
  rewrite (rep_size _ _ _ Hrv).
  destruct Hrv as [-> -> | b cap -> Hc0 Hcap Hb]; simpl in *.
  - destruct ys; [|simpl in *; lia]. simpl.
    erewrite bind_Ok; last first.
    { erewrite bind_Ok by by apply begin__Ok.
      erewrite bind_Ok by by apply begin__Ok.
      reflexivity. }
    erewrite set_size__Ok by done.
    exists h, empty_vector. split; [done|].
    split; [apply rep_empty|]. split; [done|apply frame_refl].
  - assert (block_of c ≠ Some b) as Hcb.
    { destruct Hdisj as [Hd|Hd]; unfold block_of in *; simpl in *; congruence. }
    assert (Hxs : h !! b = Some ([] ++ (Some <$> take (length ys) xs)
                    ++ (Some <$> drop (length ys) xs)
                    ++ replicate (cap - length xs) None)).
    { rewrite Hb. f_equal. apply cells_take_drop; lia. }
    assert (Hlt : length (take (length ys) xs) = length ys)
      by (rewrite length_take; lia).
    pose proof (copy_n_from_rep c ys b 0 (length ys) h o None None d l
                  [] _ _ Hrc Hcb Hxs eq_refl Hlt (Nat.le_refl _) I) as Hcopy.
    rewrite firstn_all in Hcopy. simpl in Hcopy.
    set (h1 := <[b := (Some <$> ys) ++ (Some <$> drop (length ys) xs)
                      ++ replicate (cap - length xs) None]> h) in *.
    assert (Hfinal : <[b := (Some <$> ys)
                        ++ replicate (length xs - length ys) None
                        ++ replicate (cap - length xs) None]> h1
                     = <[b := cells ys cap]> h).
    { unfold h1. rewrite insert_insert_eq. f_equal. unfold cells.
      f_equal. rewrite <- replicate_add. f_equal. lia. }
    destruct (decide (length ys < length xs)) as [Hshort|Hsame].
    + erewrite bind_Ok; last first.
      { erewrite bind_Ok by by apply begin__Ok.
        erewrite bind_Ok by by apply end__Ok.
        erewrite bind_Ok by by apply begin__Ok.
        rewrite (rep_size _ _ _ Hrc). simpl.
        erewrite bind_Ok; last first.
        { unfold copy. erewrite bind_Ok by apply ptr_diff_offset. done. }
        unfold ptr_add. simpl.
        apply (destroy_n_block b (length ys) (length xs - length ys) h1 o
                 None None d l (Some <$> ys) (drop (length ys) xs)
                 (replicate (cap - length xs) None)).
        - unfold h1. by rewrite lookup_insert_eq.
        - by rewrite length_fmap.
        - by rewrite length_drop. }
      erewrite set_size__Ok by done. simpl. rewrite Hfinal.
      eexists _, _. split; [reflexivity|].
      split; [|split; [done|by apply frame_same_block]].
      apply rep_block_at; [by rewrite lookup_insert_eq|done|done|lia].
    + assert (length ys = length xs) as Heq by lia.
      erewrite bind_Ok; last first.
      { erewrite bind_Ok by by apply begin__Ok.
        erewrite bind_Ok by by apply begin__Ok.
        simpl. rewrite <- Heq.
        erewrite bind_Ok by done.
        rewrite Nat.sub_diag. reflexivity. }
      erewrite set_size__Ok by done. simpl.
      eexists _, _. split; [do 2 f_equal; lia|].
      split; [|split; [done|by apply frame_same_block]].
      apply rep_block_at; [|done|done|lia].
      unfold h1. rewrite lookup_insert_eq. f_equal. unfold cells.
      rewrite drop_ge by lia. simpl. by rewrite Heq.
Qed.

Lemma try_catch_Undefined {A} (m hd : M A) w :
  m w = Undefined → try_catch m hd w = Undefined.
Proof. unfold try_catch. by intros ->. Qed.

(** Copying a non-empty range of raw slots onto itself is undefined. *)
Lemma uninitialized_copy_n_raw b i n h o f mf d l cs :
  h !! b = Some cs → cs !! i = Some None → 0 < n →
  uninitialized_copy_n (Ptr (Some b) i) n (Ptr (Some b) i) (World h o f mf d l)
  = Undefined.
Proof.
  intros Hb Hi Hn. destruct n as [|n]; [lia|].
  unfold uninitialized_copy_n. simpl.
  apply bind_Undefined, try_catch_Undefined, bind_Undefined.
  unfold ptr_add. simpl. rewrite Nat.add_0_r. by eapply read_raw.
Qed.

(** The source is longer than the target but fits its capacity: the slots
    past the target's length are copy-constructed from themselves. *)
Lemma operator_assign_raw_read this rhs v c xs ys h o d l :
  this ≠ rhs → o !! this = Some v → o !! rhs = Some c →
  rep h v xs → rep h c ys → block_of c ≠ block_of v →
  length xs < length ys → length ys ≤ capacity_ (data_ v) →
  operator_assign this rhs (World h o None None d l) = Undefined.
Proof.
  intros Hne Hv Hc Hrv Hrc Hdisj Hlt Hle. unfold operator_assign.
  rewrite decide_True by done.
  erewrite bind_Ok by by apply get_size__Ok.
  erewrite bind_Ok by by apply Capacity_Ok.
  rewrite (rep_size _ _ _ Hrc), decide_False by lia.
  erewrite bind_Ok by by apply get_size__Ok.
  rewrite (rep_size _ _ _ Hrv).
  rewrite decide_False by lia.
  destruct Hrv as [-> -> | b cap -> Hc0 Hcap Hb]; simpl in *; [lia|].
  apply bind_Undefined.
  erewrite bind_Ok by by apply begin__Ok.
  erewrite bind_Ok by by apply begin__Ok.
  simpl.
  erewrite bind_Ok; last first.
  { apply (copy_n_from_rep c ys b 0 (length xs) h o None None d l
             [] xs (replicate (cap - length xs) None)); try done.
    lia. }
  unfold ptr_add. simpl.
  eapply uninitialized_copy_n_raw; [by rewrite lookup_insert_eq| |lia].
  rewrite lookup_app_r; rewrite length_fmap, length_take; [|lia].
  apply lookup_replicate_2. lia.
Qed.

Lemma live_exactly_cells xs cap : live_exactly (cells xs cap) (length xs).
Proof.
  intros j c Hj. unfold cells in Hj.
  apply lookup_app_Some in Hj as [Hj | [Hlen Hj]].
  - apply list_lookup_fmap_Some in Hj as (x & -> & Hx).
    apply lookup_lt_Some in Hx. split; [done|by eauto].
  - rewrite length_fmap in Hlen.
    apply lookup_replicate in Hj as [-> _].
    split; [by intros [? ?]|lia].
Qed.

Lemma live_exactly_inv (cs : list (option T)) n :
  live_exactly cs n → n ≤ length cs →
  ∃ xs, length xs = n ∧ cs = cells xs (length cs).
Proof.
  revert n. induction cs as [|c cs IH]; intros n Hl Hn; simpl in *.
  - exists []. split; [simpl; lia|done].
  - destruct n as [|n].
    + exists []. split; [done|]. unfold cells. simpl.
      destruct c as [x|].
      { destruct (Hl 0 (Some x)) as [Hc _]; [done|].
        specialize (Hc (ltac:(eauto))). lia. }
      f_equal. destruct (IH 0) as (xs & Hxs & Hcs); [|lia|].
      * intros j c Hj. specialize (Hl (S j) c Hj). split; [|lia].
        intros Hc. apply Hl in Hc. lia.
      * destruct xs; [|done]. unfold cells in Hcs. simpl in Hcs.
        by rewrite Nat.sub_0_r in Hcs.
    + destruct (IH n) as (xs & Hxs & Hcs); [|lia|].
      * intros j c' Hj. specialize (Hl (S j) c' Hj). rewrite Hl. lia.
      * destruct c as [x|].
        -- exists (x :: xs). split; [simpl; lia|].
           unfold cells. csimpl. f_equal. exact Hcs.
        -- destruct (Hl 0 None) as [_ Hc]; [done|].
           destruct Hc as [? ?]; [lia|done].
Qed.

Lemma vector_inv_rep h v : vector_inv h v ↔ ∃ xs, rep h v xs.
Proof.
  split.
  - destruct v as [[[b o] cap] n]. unfold vector_inv. simpl.
    intros (Hle & -> & Hst). destruct b as [b|].
    + destruct Hst as (Hcap & cs & Hb & Hlen & Hlive).
      destruct (live_exactly_inv cs n Hlive) as (xs & <- & Hcs); [lia|].
      exists xs. eapply rep_block; [done|done|done|]. by rewrite Hb, Hcs, Hlen.
    + subst cap. exists []. assert (n = 0) as -> by lia. by apply rep_null.
  - intros [xs [-> -> | b cap -> Hc0 Hle Hb]]; unfold vector_inv; simpl.
    + done.
    + split; [done|]. split; [done|]. split; [done|].
      exists (cells xs cap). split; [done|].
      split; [by apply cells_length|apply live_exactly_cells].
Qed.

Lemma wf_rep w a v : wf w → objs w !! a = Some v → ∃ xs, rep (heap w) v xs.
Proof. intros [Hinv _] Ha. by apply vector_inv_rep, (Hinv a). Qed.

(** A member function that respects its footprint keeps the world well
    formed; [v] is the object before the call, or the empty vector for a
    constructor. *)
Lemma wf_update h o f mf d l f' mf' d' l' this v v' h' xs' :
  wf (World h o f mf d l) →
  o !! this = Some v ∨ (o !! this = None ∧ block_of v = None) →
  rep h' v' xs' → frame h v h' v' →
  wf (World h' (<[this := v']> o) f' mf' d' l').
Proof.
  intros [Hinv Hdis] Hthis Hrep [F1 F2]. simpl in *.
  assert (Hother : ∀ a va b, a ≠ this → o !! a = Some va →
            block_of va = Some b → is_Some (h !! b) ∧ block_of v ≠ Some b).
  { intros a va b Hne Ha Hb.
    destruct (proj1 (vector_inv_rep h va) (Hinv a va Ha)) as [xs Hxs].
    split; [by eapply rep_block_of|].
    intros Hvb. destruct Hthis as [Hv | [_ Hv]]; [|congruence].
    destruct Hne. by eapply (Hdis a this va v b). }
  split; simpl.
  - intros a va Ha. destruct (decide (a = this)) as [->|Hne].
    + rewrite lookup_insert_eq in Ha. injection Ha as <-.
      apply vector_inv_rep. eauto.
    + rewrite lookup_insert_ne in Ha by done.
      destruct (proj1 (vector_inv_rep h va) (Hinv a va Ha)) as [xs Hxs].
      apply vector_inv_rep. exists xs. eapply rep_frame; [done|].
      intros b Hb. destruct (Hother a va b) as [? ?]; [done..|]. by apply F1.
  - intros a1 a2 v1 v2 b Ha1 Ha2 Hb1 Hb2.
    destruct (decide (a1 = this)) as [->|Hne1],
             (decide (a2 = this)) as [->|Hne2]; [done| | |].
    + rewrite lookup_insert_eq in Ha1. injection Ha1 as <-.
      rewrite lookup_insert_ne in Ha2 by done.
      destruct (Hother a2 v2 b) as [[? Hin] Hnot]; [done..|].
      destruct (F2 b Hb1); [done|congruence].
    + rewrite lookup_insert_eq in Ha2. injection Ha2 as <-.
      rewrite lookup_insert_ne in Ha1 by done.
      destruct (Hother a1 v1 b) as [[? Hin] Hnot]; [done..|].
      destruct (F2 b Hb2); [done|congruence].
    + rewrite lookup_insert_ne in Ha1, Ha2 by done. by eapply Hdis.
Qed.

Lemma exists_with_inv P w a : exists_with P w a → ∃ v, objs w !! a = Some v ∧ P v.
Proof. unfold exists_with. destruct (objs w !! a); naive_solver. Qed.

Lemma PushBack_spec this v xs x h o d l :
  o !! this = Some v → rep h v xs →
  ∃ h' v' d',
    PushBack this x (World h o None None d l)
    = Ok () (World h' (<[this := v']> o) None None d' l) ∧
    rep h' v' (xs ++ [x]) ∧
    capacity_ (data_ v')
    = (if decide (size_ v = capacity_ (data_ v))
       then new_capacity_for (size_ v) else capacity_ (data_ v)) ∧
    frame h v h' v'.
Proof.
  intros Ho Hrep.
  destruct (Emplace_spec this v xs (length xs) x h o d l)
    as (h' & v' & d' & HE & Hrep' & Hcap & Hfr); [done..|].
  rewrite take_ge, drop_ge in Hrep' by lia.
  exists h', v', d'. split; [|done].
  unfold PushBack, EmplaceBack.
  erewrite bind_Ok; [reflexivity|].
  erewrite bind_Ok by by apply end__Ok.
  by rewrite (rep_size _ _ _ Hrep).
Qed.

Lemma wf_permute h o f mf d l f' mf' d' l' a1 a2 v1 v2 :
  wf (World h o f mf d l) →
  o !! a1 = Some v1 → o !! a2 = Some v2 →
  wf (World h (<[a2 := v1]> (<[a1 := v2]> o)) f' mf' d' l').
Proof.
  intros [Hinv Hdis] H1 H2. simpl in *.
  set (σ := λ a, if decide (a = a2) then a1 else if decide (a = a1) then a2 else a).
  assert (Hσ : ∀ a v, <[a2 := v1]> (<[a1 := v2]> o) !! a = Some v →
                      o !! σ a = Some v).
  { intros a v. unfold σ. repeat case_decide; simplify_map_eq; done. }
  assert (Hinj : ∀ a a', σ a = σ a' → a = a').
  { intros a a'. unfold σ. repeat case_decide; congruence. }
  split; simpl.
  - intros a v Ha. eapply Hinv, Hσ, Ha.
  - intros b1 b2 w1 w2 b Hb1 Hb2 ? ?. apply Hinj.
    eapply Hdis; eauto.
Qed.

Lemma wf_single w a v xs :
  objs w = {[a := v]} → rep (heap w) v xs → wf w.
Proof.
  intros Ho Hrep. split; rewrite Ho.
  - intros a' v' [<- <-]%lookup_singleton_Some. apply vector_inv_rep. eauto.
  - intros a1 a2 v1 v2 b [<- _]%lookup_singleton_Some
      [<- _]%lookup_singleton_Some _ _. done.
Qed.

Lemma wf_disjoint_blocks w a1 a2 v1 v2 :
  wf w → a1 ≠ a2 → objs w !! a1 = Some v1 → objs w !! a2 = Some v2 →
  block_of v2 ≠ block_of v1 ∨ block_of v1 = None.
Proof.
  intros [_ Hdis] Hne H1 H2.
  destruct (block_of v1) as [b|] eqn:Hb; [left|by right].
  intros Hb2. destruct Hne. by eapply Hdis.
Qed.

(** Every operation keeps the world well formed when nothing is scheduled
    to throw. *)
Lemma invariant_no_faults (c : op) (w w' : world) :
  wf w → no_faults w → contract c w → run c w = Ok () w' → wf w'.
Proof.
  destruct w as [h o f mf d l]. intros Hwf [Hf Hmf] Hc Hrun.
  simpl in Hf, Hmf. subst f mf.
  destruct c; simpl in Hc, Hrun.
  - (* Vector() *)
    rewrite Vector_default_spec in Hrun. injection Hrun as <-.
    eapply (wf_update _ _ _ _ _ _ _ _ _ _ _ empty_vector);
      [done|by right|apply rep_empty|apply frame_refl].
  - (* Vector(size) *)
    destruct (Vector_sized_spec this size h o d l) as (h' & v' & HR & ? & ? & ?).
    rewrite HR in Hrun. injection Hrun as <-.
    by eapply (wf_update _ _ _ _ _ _ _ _ _ _ _ empty_vector); [|right|..].
  - (* Vector(const Vector&) *)
    destruct Hc as [Hthis (vo & Hvo & _)%exists_with_inv]. simpl in *.
    destruct (wf_rep _ _ _ Hwf Hvo) as [ys Hys].
    destruct (Vector_copy_spec this other vo ys h o d l)
      as (h' & v' & HR & ? & ? & ?); [congruence|done..|].
    rewrite HR in Hrun. injection Hrun as <-.
    by eapply (wf_update _ _ _ _ _ _ _ _ _ _ _ empty_vector); [|right|..].
  - (* Vector(Vector&&) *)
    destruct Hc as [Hthis (vo & Hvo & _)%exists_with_inv]. simpl in *.
    rewrite (Vector_move_spec this other vo) in Hrun by (done || congruence).
    injection Hrun as <-.
    assert (this ≠ other) by congruence.
    rewrite <- (insert_insert_eq o this vo empty_vector).
    eapply wf_permute;
      [|apply lookup_insert_eq|by rewrite lookup_insert_ne].
    eapply (wf_update h o None None d l None None d l this empty_vector);
      [done|by right|apply rep_empty|apply frame_refl].
  - (* operator=(const Vector&) *)
    destruct Hc as [(v & Hv & _)%exists_with_inv (vr & Hvr & _)%exists_with_inv].
    simpl in *.
    destruct (decide (this = rhs)) as [->|Hne].
    { rewrite operator_assign_self in Hrun. by injection Hrun as <-. }
    destruct (wf_rep _ _ _ Hwf Hv) as [xs Hxs].
    destruct (wf_rep _ _ _ Hwf Hvr) as [ys Hys]. simpl in *.
    pose proof (wf_disjoint_blocks _ this rhs v vr Hwf Hne Hv Hvr) as Hdis.
    destruct (decide (capacity_ (data_ v) < length ys)) as [Hbig|Hfit].
    { destruct (operator_assign_realloc this rhs v vr xs ys h o d l)
        as (h' & v' & HR & ? & ? & ?); [done..|].
      rewrite HR in Hrun. injection Hrun as <-.
      by eapply wf_update; [|left|..]. }
    destruct (decide (length ys ≤ length xs)) as [Hshort|Hlong].
    { destruct (operator_assign_shrink this rhs v vr xs ys h o d l)
        as (h' & v' & HR & ? & ? & ?); [done..|].
      rewrite HR in Hrun. injection Hrun as <-.
      by eapply wf_update; [|left|..]. }
    rewrite (operator_assign_raw_read this rhs v vr xs ys) in Hrun;
      [done|done..| |lia|lia].
    destruct Hdis as [?|Hnull]; [done|].
    pose proof (rep_capacity _ _ _ Hxs).
    destruct Hxs as [-> -> | b cap -> ? ? ?]; simpl in *; [lia|done].
  - (* operator=(Vector&&) *)
    destruct Hc as [(v & Hv & _)%exists_with_inv (vr & Hvr & _)%exists_with_inv].
    simpl in *. unfold operator_assign_move in Hrun.
    rewrite (Swap_spec this rhs v vr) in Hrun by done.
    injection Hrun as <-. by eapply wf_permute.
  - (* Swap *)
    destruct Hc as [(v & Hv & _)%exists_with_inv (vr & Hvr & _)%exists_with_inv].
    simpl in *.
    rewrite (Swap_spec this other v vr) in Hrun by done.
    injection Hrun as <-. by eapply wf_permute.
  - (* Reserve *)
    apply exists_with_inv in Hc as (v & Hv & _). simpl in *.
    destruct (wf_rep _ _ _ Hwf Hv) as [xs Hxs]. simpl in *.
    destruct (Reserve_spec this v xs n h o d l)
      as (h' & v' & d' & HR & ? & ? & ? & ?); [done..|].
    rewrite HR in Hrun. injection Hrun as <-.
    by eapply wf_update; [|left|..].
  - (* Resize *)
    apply exists_with_inv in Hc as (v & Hv & _). simpl in *.
    destruct (wf_rep _ _ _ Hwf Hv) as [xs Hxs]. simpl in *.
    destruct (Resize_spec this v xs n h o d l)
      as (h' & v' & d' & HR & ? & ? & ? & ?); [done..|].
    rewrite HR in Hrun. injection Hrun as <-.
    by eapply wf_update; [|left|..].
  - (* PushBack *)
    apply exists_with_inv in Hc as (v & Hv & _). simpl in *.
    destruct (wf_rep _ _ _ Hwf Hv) as [xs Hxs]. simpl in *.
    destruct (PushBack_spec this v xs x h o d l)
      as (h' & v' & d' & HR & ? & ? & ?); [done..|].
    rewrite HR in Hrun. injection Hrun as <-.
    by eapply wf_update; [|left|..].
  - (* Emplace *)
    apply exists_with_inv in Hc as (v & Hv & Hi). simpl in *.
    destruct (wf_rep _ _ _ Hwf Hv) as [xs Hxs]. simpl in *.
    rewrite (rep_size _ _ _ Hxs) in Hi.
    destruct (Emplace_spec this v xs i x h o d l)
      as (h' & v' & d' & HR & ? & ? & ?); [done..|].
    erewrite bind_Ok in Hrun by by apply begin__Ok.
    erewrite bind_Ok in Hrun by done.
    injection Hrun as <-.
    by eapply wf_update; [|left|..].
  - (* Insert *)
    apply exists_with_inv in Hc as (v & Hv & Hi). simpl in *.
    destruct (wf_rep _ _ _ Hwf Hv) as [xs Hxs]. simpl in *.
    rewrite (rep_size _ _ _ Hxs) in Hi.
    destruct (Emplace_spec this v xs i x h o d l)
      as (h' & v' & d' & HR & ? & ? & ?); [done..|].
    erewrite bind_Ok in Hrun by by apply begin__Ok.
    unfold Insert in Hrun.
    erewrite bind_Ok in Hrun by done.
    injection Hrun as <-.
    by eapply wf_update; [|left|..].
  - (* Erase *)
    apply exists_with_inv in Hc as (v & Hv & Hi). simpl in *.
    destruct (wf_rep _ _ _ Hwf Hv) as [xs Hxs]. simpl in *.
    rewrite (rep_size _ _ _ Hxs) in Hi.
    destruct (Erase_spec this v xs i h o None None d l)
      as (h' & v' & HR & ? & ? & ?); [done|done|done|by right|].
    erewrite bind_Ok in Hrun by by apply begin__Ok.
    erewrite bind_Ok in Hrun by done.
    injection Hrun as <-.
    by eapply wf_update; [|left|..].
  - (* PopBack *)
    apply exists_with_inv in Hc as (v & Hv & Hi). simpl in *.
    destruct (wf_rep _ _ _ Hwf Hv) as [xs Hxs]. simpl in *.
    rewrite (rep_size _ _ _ Hxs) in Hi.
    destruct (PopBack_spec this v xs h o None None d l)
      as (h' & v' & HR & ? & ? & ?); [done..|].
    rewrite HR in Hrun. injection Hrun as <-.
    by eapply wf_update; [|left|..].
Qed.

(** ** Elements before and after an inserted or erased position *)
Lemma lookup_inserted {A} (xs : list A) i x :
  i ≤ length xs →
  (take i xs ++ x :: drop i xs) !! i = Some x ∧
  (∀ j, j < i → (take i xs ++ x :: drop i xs) !! j = xs !! j) ∧
  (∀ j, i ≤ j → (take i xs ++ x :: drop i xs) !! (j + 1) = xs !! j).
Proof.
  intros Hi.
  assert (Hlen : length (take i xs) = i) by (rewrite length_take; lia).
  split; [|split].
  - by apply lookup_middle.
  - intros j Hj. rewrite lookup_app_l by lia. by apply lookup_take_lt.
  - intros j Hj. rewrite lookup_app_r by lia. rewrite Hlen.
    replace (j + 1 - i) with (S (j - i)) by lia. simpl.
    rewrite lookup_drop. f_equal. lia.
Qed.

Lemma lookup_erased {A} (xs : list A) i :
  i < length xs →
  (∀ j, j < i → (take i xs ++ drop (S i) xs) !! j = xs !! j) ∧
  (∀ j, i ≤ j → (take i xs ++ drop (S i) xs) !! j = xs !! (j + 1)).
Proof.
  intros Hi.
  assert (Hlen : length (take i xs) = i) by (rewrite length_take; lia).
  split.
  - intros j Hj. rewrite lookup_app_l by lia. by apply lookup_take_lt.
  - intros j Hj. rewrite lookup_app_r by lia. rewrite Hlen, lookup_drop.
    f_equal. lia.
Qed.

(** ** The operations in the world where nothing throws *)

(** [Reserve] when nothing is scheduled to throw. *)
Lemma Reserve_no_faults (w : world) (this : nat) (v : Vector) (xs : list T)
    (n : nat) :
  objs w !! this = Some v → rep (heap w) v xs → no_faults w →
  (n ≤ capacity_ (data_ v) → Reserve this n w = Ok () w) ∧
  (capacity_ (data_ v) < n →
   ∃ w' v', Reserve this n w = Ok () w' ∧
            objs w' !! this = Some v' ∧
            capacity_ (data_ v') = n ∧
            size_ v' = size_ v ∧
            rep (heap w') v' xs).
Proof.
  destruct w as [h o f mf d l]. intros Ho Hrep [Hf Hmf].
  simpl in *. subst f mf. split.
  - intros Hn. by eapply Reserve_noop.
  - intros Hn.
    destruct (Reserve_spec this v xs n h o d l)
      as (h' & v' & d' & HR & Hrep' & Hcap & _ & _); [done..|].
    eexists _, v'. split; [done|]. simpl.
    split; [apply lookup_insert_eq|]. split; [lia|]. split; [|done].
    by rewrite (rep_size _ _ _ Hrep), (rep_size _ _ _ Hrep').
Qed.

(** [Resize] when nothing is scheduled to throw. *)
Lemma Resize_no_faults (w : world) (this : nat) (v : Vector) (xs : list T)
    (n : nat) :
  objs w !! this = Some v → rep (heap w) v xs → no_faults w →
  ∃ w' v' ys,
    Resize this n w = Ok () w' ∧
    objs w' !! this = Some v' ∧
    rep (heap w') v' ys ∧
    size_ v' = n ∧ length ys = n ∧ n ≤ capacity_ (data_ v') ∧
    (∀ j, j < length xs `min` n → ys !! j = xs !! j) ∧
    (∀ j, length xs ≤ j → j < n → ys !! j = Some value_init) ∧
    (n ≤ length xs →
       dtors w' = length xs - n + dtors w ∧ data_ v' = data_ v).
Proof.
  destruct w as [h o f mf d l]. intros Ho Hrep [Hf Hmf].
  simpl in *. subst f mf.
  destruct (Resize_spec this v xs n h o d l)
    as (h' & v' & d' & HR & Hrep' & Hcap & Hshrink & _); [done..|].
  eexists _, v', _. split; [done|]. simpl.
  split; [apply lookup_insert_eq|]. split; [done|].
  assert (Hlen : length (take n xs ++ replicate (n - length xs) value_init) = n).
  { rewrite length_app, length_take, length_replicate. lia. }
  split; [by rewrite (rep_size _ _ _ Hrep')|]. split; [done|].
  split; [lia|]. split; [|split; [|done]].
  - intros j Hj. rewrite lookup_app_l by (rewrite length_take; lia).
    apply lookup_take_lt. lia.
  - intros j Hj Hjn. rewrite lookup_app_r by (rewrite length_take; lia).
    apply lookup_replicate_2. rewrite length_take. lia.
Qed.

(** [Erase] when its move assignments do not throw. *)
Lemma Erase_no_throw (w : world) (this : nat) (v : Vector) (xs : list T)
    (i : nat) :
  objs w !! this = Some v → rep (heap w) v xs → i < length xs →
  move_ok is_nothrow_move_assignable (move_fuse w) →
  ∃ w' v' ys,
    Erase this (buffer_ (data_ v) +ₚ i) w = Ok (buffer_ (data_ v') +ₚ i) w' ∧
    objs w' !! this = Some v' ∧
    rep (heap w') v' ys ∧
    (∀ j, j < i → ys !! j = xs !! j) ∧
    (∀ j, i ≤ j → ys !! j = xs !! (j + 1)) ∧
    size_ v' = size_ v - 1 ∧
    capacity_ (data_ v') = capacity_ (data_ v).
Proof.
  destruct w as [h o f mf d l]. intros Ho Hrep Hi Hmv. simpl in *.
  destruct (Erase_spec this v xs i h o f mf d l)
    as (h' & v' & HR & Hrep' & Hdata & _); [done..|].
  eexists _, v', _. rewrite Hdata. split; [done|]. simpl.
  split; [apply lookup_insert_eq|]. split; [done|].
  destruct (lookup_erased xs i Hi) as [Hbefore Hafter].
  split; [done|]. split; [done|]. split; [|done].
  rewrite (rep_size _ _ _ Hrep), (rep_size _ _ _ Hrep').
  rewrite length_app, length_take, length_drop. lia.
Qed.

(** [Emplace] and [Insert] when nothing is scheduled to throw. *)
Lemma Emplace_no_faults (w : world) (this : nat) (v : Vector) (xs : list T)
    (i : nat) (x : T) :
  objs w !! this = Some v → rep (heap w) v xs → i ≤ length xs →
  no_faults w →
  ∃ w' v' ys,
    Emplace this (buffer_ (data_ v) +ₚ i) x w = Ok (buffer_ (data_ v') +ₚ i) w' ∧
    Insert this (buffer_ (data_ v) +ₚ i) x w = Ok (buffer_ (data_ v') +ₚ i) w' ∧
    objs w' !! this = Some v' ∧
    rep (heap w') v' ys ∧
    ys !! i = Some x ∧
    (∀ j, j < i → ys !! j = xs !! j) ∧
    (∀ j, i ≤ j → ys !! (j + 1) = xs !! j) ∧
    size_ v' = size_ v + 1.
Proof.
  destruct w as [h o f mf d l]. intros Ho Hrep Hi [Hf Hmf].
  simpl in *. subst f mf.
  destruct (Emplace_spec this v xs i x h o d l)
    as (h' & v' & d' & HR & Hrep' & _ & _); [done..|].
  eexists _, v', _. split; [done|]. split; [done|]. simpl.
  split; [apply lookup_insert_eq|]. split; [done|].
  destruct (lookup_inserted xs i x Hi) as (Hat & Hbefore & Hafter).
  split; [done|]. split; [done|]. split; [done|].
  rewrite (rep_size _ _ _ Hrep), (rep_size _ _ _ Hrep').
  rewrite length_app, length_take, length_cons, length_drop. lia.
Qed.


Lemma doubling_power n :
  0 < n → ∃ k, doubling n = 2 ^ k ∧ n ≤ 2 ^ k ∧ (k = 0 ∨ 2 ^ (k - 1) < n).
Proof.
  induction n as [|n IH]; [lia|]. intros _. simpl.
  destruct (decide (n = 0)) as [->|Hn].
  { exists 0. simpl. split; [done|]. split; [lia|by left]. }
  destruct IH as (k & Hk & Hle & Hlow); [lia|].
  case_decide as Hfull.
  - exists (S k). unfold new_capacity_for. rewrite decide_False by done.
    rewrite Hfull, Hk. simpl. rewrite Nat.sub_0_r. split; [lia|].
    split; [lia|]. right. lia.
  - exists k. split; [done|]. split; [lia|].
    destruct Hlow as [->|?]; [simpl in *; lia|right; lia].
Qed.

Lemma doubling_log2_up n : 0 < n → doubling n = 2 ^ Nat.log2_up n.
Proof.
  intros Hn. destruct (doubling_power n Hn) as (k & -> & Hle & Hlow).
  f_equal. symmetry. destruct Hlow as [->|Hlow].
  - simpl in Hle. assert (n = 1) as -> by lia. done.
  - destruct (decide (k = 0)) as [->|Hk].
    + simpl in Hle. assert (n = 1) as -> by lia. done.
    + apply Nat.log2_up_unique; [lia|].
      replace (Nat.pred k) with (k - 1) by lia. lia.
Qed.

Lemma PushBack_all_spec this v xs0 xs h o d l :
  o !! this = Some v → rep h v xs0 →
  capacity_ (data_ v) = doubling (length xs0) →
  ∃ h' v' d',
    PushBack_all this xs (World h o None None d l)
    = Ok () (World h' (<[this := v']> o) None None d' l) ∧
    rep h' v' (xs0 ++ xs) ∧
    capacity_ (data_ v') = doubling (length (xs0 ++ xs)).
Proof.
  revert v xs0 h o d. induction xs as [|x xs IH]; intros v xs0 h o d Ho Hrep Hcap.
  - exists h, v, d. rewrite insert_id, app_nil_r by done. done.
  - destruct (PushBack_spec this v xs0 x h o d l)
      as (h1 & v1 & d1 & HP & Hrep1 & Hcap1 & _); [done..|].
    destruct (IH v1 (xs0 ++ [x]) h1 (<[this := v1]> o) d1)
      as (h' & v' & d' & HA & Hrep' & Hcap'); [apply lookup_insert_eq|done| |].
    { rewrite Hcap1, Hcap, (rep_size _ _ _ Hrep), length_app.
      simpl. rewrite Nat.add_1_r. done. }
    rewrite insert_insert_eq in HA. rewrite <- app_assoc in Hrep', Hcap'.
    exists h', v', d'. split; [|done].
    simpl. by erewrite bind_Ok by done.
Qed.

(** The growth policy when nothing is scheduled to throw. *)
Lemma growth_no_faults (w : world) (this : nat) :
  no_faults w →
  (∀ v xs i x,
     objs w !! this = Some v → rep (heap w) v xs →
     size_ v = capacity_ (data_ v) → i ≤ length xs →
     ∃ w' v' b' p,
       Emplace this (buffer_ (data_ v) +ₚ i) x w = Ok p w' ∧
       objs w' !! this = Some v' ∧
       buffer_ (data_ v') = Ptr (Some b') 0 ∧ heap w !! b' = None ∧
       capacity_ (data_ v') = (if decide (length xs = 0) then 1
                               else length xs * 2)) ∧
  (∀ xs,
     ∃ w' v',
       (Vector_default this;; PushBack_all this xs) w = Ok () w' ∧
       objs w' !! this = Some v' ∧
       rep (heap w') v' xs ∧
       size_ v' = length xs ∧
       capacity_ (data_ v') = doubling (length xs) ∧
       length xs ≤ doubling (length xs) ∧
       (0 < length xs → doubling (length xs) = 2 ^ Nat.log2_up (length xs))).
Proof.
  destruct w as [h o f mf d l]. intros [Hf Hmf]. simpl in *. subst f mf.
  split.
  - intros v xs i x Ho Hrep Hfull Hi.
    destruct (Emplace_grow this v xs i x h o None None d l)
      as (r & Hr & HOk & _); [done..|by right|].
    rewrite HOk in Hr by done.
    eexists _, _, _, _. split; [done|]. simpl.
    split; [apply lookup_insert_eq|]. split; [done|].
    split; [apply fresh_block_None|done].
  - intros xs.
    destruct (PushBack_all_spec this empty_vector [] xs h
                (<[this := empty_vector]> o) d l)
      as (h' & v' & d' & HA & Hrep' & Hcap');
      [apply lookup_insert_eq|apply rep_empty|done|].
    rewrite insert_insert_eq in HA. simpl in Hrep', Hcap'.
    eexists _, v'. split.
    { erewrite bind_Ok by apply Vector_default_spec. done. }
    simpl. split; [apply lookup_insert_eq|]. split; [done|].
    split; [by apply rep_size in Hrep'|]. split; [done|].
    split; [|apply doubling_log2_up].
    destruct (decide (length xs = 0)) as [->|]; [done|].
    destruct (doubling_power (length xs)) as (k & -> & ? & _); [lia|done].
Qed.

(** C2, as the code has it. After move-construction from source the
    receiver holds source's pre-move storage, length and element content and
    source becomes empty (length 0, capacity 0); after move-assignment the
    receiver holds source's pre-move storage, length and element content and
    source holds the receiver's pre-move storage, length and element content:
    the two vectors are exchanged, so that source is empty only if the
    receiver was.  Neither operation can fail, whatever exceptions are
    scheduled, and no element destructor fires during the move itself. *)
Theorem move_transfers_or_exchanges (w : world) (new this source : nat)
    (c : Vector) :
  new ≠ source → objs w !! source = Some c →
  (∃ w', Vector_move new source w = Ok () w' ∧
         objs w' !! new = Some c ∧
         objs w' !! source = Some empty_vector ∧
         heap w' = heap w ∧ dtors w' = dtors w) ∧
  (∀ a, objs w !! this = Some a →
     ∃ w', operator_assign_move this source w = Ok () w' ∧
           objs w' !! this = Some c ∧
           (this ≠ source → objs w' !! source = Some a) ∧
           heap w' = heap w ∧ dtors w' = dtors w).
Proof.
  destruct w as [h o f mf d l]. simpl. intros Hne Hc. split.
  - eexists. split; [by apply Vector_move_spec|]. simpl.
    split; [by rewrite lookup_insert_ne, lookup_insert_eq|].
    split; [apply lookup_insert_eq|done].
  - intros a Ha. eexists. split; [by apply Swap_spec|]. simpl.
    split; [|split; [intros; apply lookup_insert_eq|done]].
    destruct (decide (this = source)) as [->|].
    + rewrite lookup_insert_eq. congruence.
    + by rewrite lookup_insert_ne, lookup_insert_eq.
Qed.

(** Copy assignment outside the path that reads raw storage: the target
    gets the source's elements and the source keeps them. *)
Lemma operator_assign_copies (w : world) (this rhs : nat) (v c : Vector)
    (xs ys : list T) :
  wf w → no_faults w → this ≠ rhs →
  objs w !! this = Some v → objs w !! rhs = Some c →
  rep (heap w) v xs → rep (heap w) c ys →
  capacity_ (data_ v) < length ys ∨ length ys ≤ length xs →
  ∃ w' v', operator_assign this rhs w = Ok () w' ∧
           objs w' !! this = Some v' ∧ objs w' !! rhs = Some c ∧
           rep (heap w') v' ys ∧ rep (heap w') c ys ∧
           capacity_ (data_ v) ≤ capacity_ (data_ v').
Proof.
  destruct w as [h o f mf d l]. intros Hwf [Hf Hmf] Hne Hv Hc Hrv Hrc Hcase.
  simpl in *. subst f mf.
  pose proof (wf_disjoint_blocks _ this rhs v c Hwf Hne Hv Hc) as Hdis.
  assert (Hkeep : ∀ h' v', frame h v h' v' → rep h' c ys).
  { intros h' v' [F1 _]. eapply rep_frame; [done|]. intros b Hb.
    apply F1; [by eapply rep_block_of|].
    simpl in Hdis. destruct Hdis as [?|Hnull]; congruence. }
  destruct (decide (capacity_ (data_ v) < length ys)) as [Hbig|Hfit].
  - destruct (operator_assign_realloc this rhs v c xs ys h o d l)
      as (h' & v' & HR & ? & ? & ?); [done..|].
    eexists _, v'. split; [done|]. simpl.
    split; [apply lookup_insert_eq|]. split; [by rewrite lookup_insert_ne|].
    split; [done|]. split; [by eapply Hkeep|lia].
  - destruct (operator_assign_shrink this rhs v c xs ys h o d l)
      as (h' & v' & HR & ? & Hdata & ?); [done..|lia|].
    eexists _, v'. split; [done|]. simpl.
    split; [apply lookup_insert_eq|]. split; [by rewrite lookup_insert_ne|].
    split; [done|]. split; [by eapply Hkeep|by rewrite Hdata].
Qed.

(** Capacities when nothing is scheduled to throw. *)
Lemma capacity_no_faults (c : op) (w w' : world) (this : nat)
    (v : Vector) :
  wf w → no_faults w → contract c w → mutated c = Some this →
  objs w !! this = Some v → run c w = Ok () w' →
  ∃ v', objs w' !! this = Some v' ∧
        capacity_ (data_ v) ≤ capacity_ (data_ v').
Proof.
  destruct w as [h o f mf d l]. intros Hwf [Hf Hmf] Hc Hm Hv Hrun.
  simpl in Hf, Hmf, Hv. subst f mf.
  destruct (wf_rep _ _ _ Hwf Hv) as [xs Hxs]. simpl in Hxs.
  destruct c; simpl in Hc, Hrun, Hm; try done; injection Hm as ->.
  - (* operator=(const Vector&) *)
    destruct Hc as [_ (vr & Hvr & _)%exists_with_inv]. simpl in *.
    destruct (decide (this = rhs)) as [->|Hne].
    { rewrite operator_assign_self in Hrun. injection Hrun as <-. eauto. }
    destruct (wf_rep _ _ _ Hwf Hvr) as [ys Hys]. simpl in *.
    destruct (decide (capacity_ (data_ v) < length ys ∨ length ys ≤ length xs))
      as [Hcase|Hraw].
    + destruct (operator_assign_copies _ this rhs v vr xs ys Hwf)
        as (w1 & v' & HR & ? & _ & _ & _ & ?); [done..|].
      rewrite HR in Hrun. injection Hrun as <-. eauto.
    + rewrite (operator_assign_raw_read this rhs v vr xs ys) in Hrun;
        [done|done..| |lia|lia].
      destruct (wf_disjoint_blocks _ this rhs v vr Hwf Hne Hv Hvr)
        as [?|Hnull]; [done|].
      pose proof (rep_capacity _ _ _ Hxs).
      destruct Hxs as [-> -> | b cap -> ? ? ?]; simpl in *; [lia|done].
  - (* Reserve *)
    destruct (Reserve_spec this v xs n h o d l)
      as (h' & v' & d' & HR & _ & Hcap & _); [done..|].
    rewrite HR in Hrun. injection Hrun as <-.
    exists v'. split; [apply lookup_insert_eq|lia].
  - (* Resize *)
    destruct (Resize_spec this v xs n h o d l)
      as (h' & v' & d' & HR & _ & Hcap & _); [done..|].
    rewrite HR in Hrun. injection Hrun as <-.
    exists v'. split; [apply lookup_insert_eq|lia].
  - (* PushBack *)
    destruct (PushBack_spec this v xs x h o d l)
      as (h' & v' & d' & HR & _ & Hcap & _); [done..|].
    rewrite HR in Hrun. injection Hrun as <-.
    exists v'. split; [apply lookup_insert_eq|].
    rewrite Hcap. case_decide as Hfull; [|done].
    rewrite <- Hfull. pose proof (new_capacity_for_gt (size_ v)). lia.
  - (* Emplace *)
    apply exists_with_inv in Hc as (v0 & Hv0 & Hi). simpl in *.
    rewrite Hv in Hv0. injection Hv0 as <-.
    rewrite (rep_size _ _ _ Hxs) in Hi.
    destruct (Emplace_spec this v xs i x h o d l)
      as (h' & v' & d' & HR & _ & Hcap & _); [done..|].
    erewrite bind_Ok in Hrun by by apply begin__Ok.
    erewrite bind_Ok in Hrun by done.
    injection Hrun as <-.
    exists v'. split; [apply lookup_insert_eq|].
    rewrite Hcap. case_decide as Hfull; [|done].
    rewrite <- Hfull. pose proof (new_capacity_for_gt (size_ v)). lia.
  - (* Insert *)
    apply exists_with_inv in Hc as (v0 & Hv0 & Hi). simpl in *.
    rewrite Hv in Hv0. injection Hv0 as <-.
    rewrite (rep_size _ _ _ Hxs) in Hi.
    destruct (Emplace_spec this v xs i x h o d l)
      as (h' & v' & d' & HR & _ & Hcap & _); [done..|].
    erewrite bind_Ok in Hrun by by apply begin__Ok.
    unfold Insert in Hrun.
    erewrite bind_Ok in Hrun by done.
    injection Hrun as <-.
    exists v'. split; [apply lookup_insert_eq|].
    rewrite Hcap. case_decide as Hfull; [|done].
    rewrite <- Hfull. pose proof (new_capacity_for_gt (size_ v)). lia.
  - (* Erase *)
    apply exists_with_inv in Hc as (v0 & Hv0 & Hi). simpl in *.
    rewrite Hv in Hv0. injection Hv0 as <-.
    rewrite (rep_size _ _ _ Hxs) in Hi.
    destruct (Erase_spec this v xs i h o None None d l)
      as (h' & v' & HR & _ & Hdata & _); [done|done|done|by right|].
    erewrite bind_Ok in Hrun by by apply begin__Ok.
    erewrite bind_Ok in Hrun by done.
    injection Hrun as <-.
    exists v'. split; [apply lookup_insert_eq|by rewrite Hdata].
  - (* PopBack *)
    apply exists_with_inv in Hc as (v0 & Hv0 & Hi). simpl in *.
    rewrite Hv in Hv0. injection Hv0 as <-.
    rewrite (rep_size _ _ _ Hxs) in Hi.
    destruct (PopBack_spec this v xs h o None None d l)
      as (h' & v' & HR & _ & Hdata & _); [done..|].
    rewrite HR in Hrun. injection Hrun as <-.
    exists v'. split; [apply lookup_insert_eq|by rewrite Hdata].
Qed.

(** ** From the calm world to every world *)
Lemma no_faults_calm w : no_faults w → calm w = w.
Proof. destruct w. intros [Hf Hmf]. simpl in *. by subst. Qed.

Lemma calm_no_faults w : no_faults (calm w).
Proof. done. Qed.

(** Every call made within its contract returns when nothing is scheduled
    to throw, except the copy assignments that read raw storage. *)
Lemma run_returns (c : op) (w : world) :
  wf w → no_faults w → contract c w → ¬ raw_read c w →
  ∃ w', run c w = Ok () w'.
Proof.
  destruct w as [h o f mf d l]. intros Hwf [Hf Hmf] Hc Hraw.
  simpl in Hf, Hmf. subst f mf.
  destruct c; simpl in Hc, Hraw |- *.
  - by eexists.
  - destruct (Vector_sized_spec this size h o d l) as (h' & v' & -> & _).
    by eexists.
  - destruct Hc as [Hthis (vo & Hvo & _)%exists_with_inv]. simpl in *.
    destruct (wf_rep _ _ _ Hwf Hvo) as [ys Hys].
    destruct (Vector_copy_spec this other vo ys h o d l)
      as (h' & v' & -> & _); [congruence|done..|].
    by eexists.
  - destruct Hc as [Hthis (vo & Hvo & _)%exists_with_inv]. simpl in *.
    rewrite (Vector_move_spec this other vo) by (done || congruence).
    by eexists.
  - destruct Hc as [(v & Hv & _)%exists_with_inv (vr & Hvr & _)%exists_with_inv].
    simpl in *.
    destruct (decide (this = rhs)) as [->|Hne].
    { rewrite operator_assign_self. by eexists. }
    destruct (wf_rep _ _ _ Hwf Hv) as [xs Hxs].
    destruct (wf_rep _ _ _ Hwf Hvr) as [ys Hys]. simpl in *.
    rewrite Hv, Hvr, (rep_size _ _ _ Hxs), (rep_size _ _ _ Hys) in Hraw.
    destruct (operator_assign_copies _ this rhs v vr xs ys Hwf)
      as (w1 & v' & -> & _); [done..| |by eexists].
    destruct (decide (capacity_ (data_ v) < length ys)); [by left|right].
    destruct (decide (length ys ≤ length xs)); [done|].
    destruct Hraw. split; [done|lia].
  - destruct Hc as [(v & Hv & _)%exists_with_inv (vr & Hvr & _)%exists_with_inv].
    simpl in *. unfold operator_assign_move.
    rewrite (Swap_spec this rhs v vr) by done. by eexists.
  - destruct Hc as [(v & Hv & _)%exists_with_inv (vr & Hvr & _)%exists_with_inv].
    simpl in *. rewrite (Swap_spec this other v vr) by done. by eexists.
  - apply exists_with_inv in Hc as (v & Hv & _). simpl in *.
    destruct (wf_rep _ _ _ Hwf Hv) as [xs Hxs]. simpl in *.
    destruct (Reserve_spec this v xs n h o d l)
      as (h' & v' & d' & -> & _); [done..|]. by eexists.
  - apply exists_with_inv in Hc as (v & Hv & _). simpl in *.
    destruct (wf_rep _ _ _ Hwf Hv) as [xs Hxs]. simpl in *.
    destruct (Resize_spec this v xs n h o d l)
      as (h' & v' & d' & -> & _); [done..|]. by eexists.
  - apply exists_with_inv in Hc as (v & Hv & _). simpl in *.
    destruct (wf_rep _ _ _ Hwf Hv) as [xs Hxs]. simpl in *.
    destruct (PushBack_spec this v xs x h o d l)
      as (h' & v' & d' & -> & _); [done..|]. by eexists.
  - apply exists_with_inv in Hc as (v & Hv & Hi). simpl in *.
    destruct (wf_rep _ _ _ Hwf Hv) as [xs Hxs]. simpl in *.
    rewrite (rep_size _ _ _ Hxs) in Hi.
    destruct (Emplace_spec this v xs i x h o d l)
      as (h' & v' & d' & HR & _); [done..|].
    erewrite bind_Ok by by apply begin__Ok.
    erewrite bind_Ok by done. by eexists.
  - apply exists_with_inv in Hc as (v & Hv & Hi). simpl in *.
    destruct (wf_rep _ _ _ Hwf Hv) as [xs Hxs]. simpl in *.
    rewrite (rep_size _ _ _ Hxs) in Hi.
    destruct (Emplace_spec this v xs i x h o d l)
      as (h' & v' & d' & HR & _); [done..|].
    erewrite bind_Ok by by apply begin__Ok.
    unfold Insert. erewrite bind_Ok by done. by eexists.
  - apply exists_with_inv in Hc as (v & Hv & Hi). simpl in *.
    destruct (wf_rep _ _ _ Hwf Hv) as [xs Hxs]. simpl in *.
    rewrite (rep_size _ _ _ Hxs) in Hi.
    destruct (Erase_spec this v xs i h o None None d l)
      as (h' & v' & HR & _); [done|done|done|by right|].
    erewrite bind_Ok by by apply begin__Ok.
    erewrite bind_Ok by done. by eexists.
  - apply exists_with_inv in Hc as (v & Hv & Hi). simpl in *.
    destruct (wf_rep _ _ _ Hwf Hv) as [xs Hxs]. simpl in *.
    rewrite (rep_size _ _ _ Hxs) in Hi.
    destruct (PopBack_spec this v xs h o None None d l)
      as (h' & v' & -> & _); [done..|]. by eexists.
Qed.

(** * The claims *)



(** C6. For every non-empty vector and every position strictly before end,
    Erase at index i removes exactly that element, leaving
    result[j] == before[j] for j < i and result[j] == before[j+1] for
    j >= i, decreases the length by 1, does not change the capacity, and
    returns an iterator to the element that followed the erased one.  The
    call returns when the move assignment of the elements does not throw. *)
Theorem Erase_correct (w : world) (this : nat) (v : Vector) (xs : list T)
    (i : nat) :
  objs w !! this = Some v → rep (heap w) v xs → i < length xs →
  (move_ok is_nothrow_move_assignable (move_fuse w) →
   ∃ p w', Erase this (buffer_ (data_ v) +ₚ i) w = Ok p w') ∧
  (∀ p w', Erase this (buffer_ (data_ v) +ₚ i) w = Ok p w' →
     ∃ v' ys,
       p = buffer_ (data_ v') +ₚ i ∧
       objs w' !! this = Some v' ∧
       rep (heap w') v' ys ∧
       (∀ j, j < i → ys !! j = xs !! j) ∧
       (∀ j, i ≤ j → ys !! j = xs !! (j + 1)) ∧
       size_ v' = size_ v - 1 ∧
       capacity_ (data_ v') = capacity_ (data_ v)).
Proof.
  intros Ho Hrep Hi. split.
  - intros Hmv.
    destruct (Erase_no_throw w this v xs i Ho Hrep Hi Hmv)
      as (w1 & v1 & ys & HR & _). eauto.
  - intros p w' Hrun.
    destruct (Erase_no_throw (calm w) this v xs i Ho Hrep Hi)
      as (w1 & v1 & ys & HR & Hrest); [by right|].
    destruct (returns_as_calm _ _ _ _ _ _ Hrun HR) as [-> <-]. by exists v1, ys.
Qed.

(** C5. For every vector and every valid position in [begin, end],
    Emplace/Insert at index i places the new value exactly at index i,
    shifts each element previously at index j >= i to index j+1 while
    preserving the relative order of all pre-existing elements, increases
    the length by 1, and returns an iterator to the newly inserted
    element.  The call returns when no exception is scheduled. *)
Theorem Emplace_correct (w : world) (this : nat) (v : Vector) (xs : list T)
    (i : nat) (x : T) :
  objs w !! this = Some v → rep (heap w) v xs → i ≤ length xs →
  Insert this (buffer_ (data_ v) +ₚ i) x w
  = Emplace this (buffer_ (data_ v) +ₚ i) x w ∧
  (no_faults w →
   ∃ p w', Emplace this (buffer_ (data_ v) +ₚ i) x w = Ok p w') ∧
  (∀ p w', Emplace this (buffer_ (data_ v) +ₚ i) x w = Ok p w' →
     ∃ v' ys,
       p = buffer_ (data_ v') +ₚ i ∧
       objs w' !! this = Some v' ∧
       rep (heap w') v' ys ∧
       ys !! i = Some x ∧
       (∀ j, j < i → ys !! j = xs !! j) ∧
       (∀ j, i ≤ j → ys !! (j + 1) = xs !! j) ∧
       size_ v' = size_ v + 1).
Proof.
  intros Ho Hrep Hi. split; [done|].
  destruct (Emplace_no_faults (calm w) this v xs i x Ho Hrep Hi
              (calm_no_faults w))
    as (w1 & v1 & ys & HR & _ & Hrest).
  split.
  - intros Hnf. exists (buffer_ (data_ v1) +ₚ i), w1.
    by rewrite <- (no_faults_calm w Hnf).
  - intros p w' Hrun.
    destruct (returns_as_calm _ _ _ _ _ _ Hrun HR) as [-> <-]. by exists v1, ys.
Qed.

(** C4. For every vector whose length equals its capacity, an insertion
    (Emplace/PushBack) allocates a new block of capacity 1 if the length is
    0 and twice the length otherwise; consequently, for every N, appending N
    elements to an empty vector yields final length N and a capacity reached
    through the doubling sequence 0, 1, 2, 4, 8, ... up to the first value at
    least N: [doubling N], which is 0 for N = 0 and the least power of two
    that is at least N otherwise.  The calls return when no exception is
    scheduled. *)
Theorem growth_policy (w : world) (this : nat) :
  (∀ v xs i x,
     objs w !! this = Some v → rep (heap w) v xs →
     size_ v = capacity_ (data_ v) → i ≤ length xs →
     (no_faults w →
      ∃ p w', Emplace this (buffer_ (data_ v) +ₚ i) x w = Ok p w') ∧
     (∀ p w', Emplace this (buffer_ (data_ v) +ₚ i) x w = Ok p w' →
        ∃ v' b',
          objs w' !! this = Some v' ∧
          buffer_ (data_ v') = Ptr (Some b') 0 ∧ heap w !! b' = None ∧
          capacity_ (data_ v') = (if decide (length xs = 0) then 1
                                  else length xs * 2))) ∧
  (∀ xs,
     (no_faults w →
      ∃ w', (Vector_default this;; PushBack_all this xs) w = Ok () w') ∧
     (∀ w', (Vector_default this;; PushBack_all this xs) w = Ok () w' →
        ∃ v',
          objs w' !! this = Some v' ∧
          rep (heap w') v' xs ∧
          size_ v' = length xs ∧
          capacity_ (data_ v') = doubling (length xs) ∧
          length xs ≤ doubling (length xs) ∧
          (∀ k, length xs ≤ 2 ^ k → doubling (length xs) ≤ 2 ^ k) ∧
          (0 < length xs →
           doubling (length xs) = 2 ^ Nat.log2_up (length xs)))).
Proof.
  destruct (growth_no_faults (calm w) this (calm_no_faults w)) as [Hone Hall].
  split.
  - intros v xs i x Ho Hrep Hfull Hi.
    destruct (Hone v xs i x Ho Hrep Hfull Hi)
      as (w1 & v1 & b1 & p1 & HR & Hrest).
    split.
    + intros Hnf. exists p1, w1. by rewrite <- (no_faults_calm w Hnf).
    + intros p w' Hrun.
      destruct (returns_as_calm _ _ _ _ _ _ Hrun HR) as [-> <-].
      by exists v1, b1.
  - intros xs.
    destruct (Hall xs) as (w1 & v1 & HR & Hv & Hrep & Hs & Hc & Hle & Hlog).
    split.
    + intros Hnf. exists w1. by rewrite <- (no_faults_calm w Hnf).
    + intros w' Hrun.
      assert (Stable (Vector_default this;; PushBack_all this xs))
        by (apply bind_stable; [|intros ?]; apply _).
      destruct (returns_as_calm _ _ _ _ _ _ Hrun HR) as [_ <-].
      exists v1. do 5 (split; [done|]). split; [|done].
      intros k Hk. destruct (decide (length xs = 0)) as [->|Hpos]; [simpl; lia|].
      rewrite Hlog by lia. apply Nat.pow_le_mono_r; [lia|].
      apply Nat.log2_up_le_pow2; lia.
Qed.


(** C10. For every vector, the capacity never decreases across any
    single-object mutating operation: after Reserve, Resize (including
    resizing to a smaller length), PushBack/Emplace/Insert, Erase, PopBack,
    or copy-assignment, the new capacity is greater than or equal to the
    capacity before the call. *)
Theorem capacity_never_decreases (c : op) (w w' : world) (this : nat)
    (v : Vector) :
  wf w → contract c w → mutated c = Some this →
  objs w !! this = Some v → run c w = Ok () w' →
  ∃ v', objs w' !! this = Some v' ∧
        capacity_ (data_ v) ≤ capacity_ (data_ v').
Proof.
  intros Hwf Hc Hm Hv Hrun. apply stable in Hrun.
  by apply (capacity_no_faults c (calm w) (calm w') this v).
Qed.

End Exec.

(** * Further properties: construction, destruction, exception safety
    and composition *)
Section Further.
Context {T : Type} {ET : Element T}.
Abbreviation world := (world T).
Abbreviation M := (M T).
Implicit Types (h : gmap nat (list (option T))) (o : gmap nat Vector).
Implicit Types (f mf : option nat) (d l : nat) (w : world).
Implicit Types (cs pre post : list (option T)) (xs ys : list T).

Lemma bind_assoc {A B C} (m : M A) (k1 : A → M B) (k2 : B → M C) w :
  bind (bind m k1) k2 w = bind m (λ a, bind (k1 a) k2) w.
Proof. unfold bind. by destruct (m w). Qed.

(** ** Constructors: what they build, and what is left when they throw *)
Lemma Vector_sized_exec this n h o f mf d l :
  n ≠ 0 →
  Vector_sized this n (World h o f mf d l)
  = if decide (passes (1 + n) f) then
      Ok () (World (<[fresh (dom h) := Some <$> replicate n value_init]> h)
                   (<[this := mkVector (mkRawMemory (Ptr (Some (fresh (dom h))) 0) n) n]> o)
                   (spend (1 + n) f) mf d l)
    else if decide (passes 1 f) then
      Throw (World h (delete this o) None mf (default 0 (spend 1 f) + d) l)
    else Throw (World h o None mf d l).
Proof.
  intros Hn. unfold Vector_sized.
  pose proof (fresh_block_None h) as Hfresh.
  set (b' := fresh (dom h)) in *.
  destruct (decide (passes 1 f)) as [P1|P1]; last first.
  { rewrite decide_False; last first.
    { intros HP. destruct P1. eapply passes_le, HP. lia. }
    apply bind_Throw, RawMemory_new_Throw; done. }
  erewrite bind_Ok by (apply RawMemory_new_Ok; done).
  erewrite bind_Ok by reflexivity.
  fold b'. simpl.
  pose proof (uninitialized_value_construct_from_block b' 0 0 n
                (<[b' := replicate n None]> h)
                (<[this := mkVector (mkRawMemory (Ptr (Some b') 0) n) n]> o)
                (spend 1 f) mf d l [] [] []) as HU.
  simpl in HU. rewrite app_nil_r, lookup_insert_eq in HU.
  specialize (HU eq_refl eq_refl eq_refl).
  unfold uninitialized_value_construct_n.
  destruct (decide (passes n (spend 1 f))) as [P2|P2].
  - rewrite decide_True by by apply (passes_add 1).
    erewrite unwind_Ok by done.
    by rewrite insert_insert_eq, app_nil_r, spend_spend.
  - rewrite decide_False by (intros [_ ?]%(passes_add 1); done).
    erewrite unwind_Throw; [reflexivity|exact HU|].
    erewrite bind_Ok; last first.
    { eapply RawMemory_dtor_block. apply lookup_insert_eq. }
    unfold end_object. simpl.
    rewrite insert_insert_eq, delete_fresh_insert by done.
    by rewrite live_count_raw, delete_insert_eq, Nat.add_0_r.
Qed.

Lemma Vector_sized_empty this h o f mf d l :
  Vector_sized this 0 (World h o f mf d l)
  = Ok () (World h (<[this := empty_vector]> o) f mf d l).
Proof. done. Qed.

Lemma Vector_copy_empty this other c h o f mf d l :
  this ≠ other → o !! other = Some c → size_ c = 0 →
  Vector_copy this other (World h o f mf d l)
  = Ok () (World h (<[this := empty_vector]> o) f mf d l).
Proof.
  intros Hne Hc Hz. unfold Vector_copy.
  erewrite bind_Ok by by apply get_size__Ok.
  rewrite Hz. erewrite bind_Ok by reflexivity.
  erewrite bind_Ok by reflexivity.
  erewrite bind_Ok
    by (apply get_data__Ok; rewrite lookup_insert_ne by done; done).
  by erewrite unwind_Ok by reflexivity.
Qed.

Lemma Vector_copy_exec this other c ys h o f mf d l :
  this ≠ other → o !! other = Some c → rep h c ys → length ys ≠ 0 →
  Vector_copy this other (World h o f mf d l)
  = if decide (passes (1 + length ys) f) then
      Ok () (World (<[fresh (dom h) := Some <$> ys]> h)
                   (<[this := mkVector (mkRawMemory (Ptr (Some (fresh (dom h))) 0)
                                                    (length ys)) (length ys)]> o)
                   (spend (1 + length ys) f) mf d l)
    else if decide (passes 1 f) then
      Throw (World h (delete this o) None mf (default 0 (spend 1 f) + d) l)
    else Throw (World h o None mf d l).
Proof.
  intros Hne Hc Hrep Hn. unfold Vector_copy.
  erewrite bind_Ok by by apply get_size__Ok.
  rewrite (rep_size _ _ _ Hrep).
  pose proof (fresh_block_None h) as Hfresh.
  set (b' := fresh (dom h)) in *.
  destruct (decide (passes 1 f)) as [P1|P1]; last first.
  { rewrite decide_False; last first.
    { intros HP. destruct P1. eapply passes_le, HP. lia. }
    apply bind_Throw, RawMemory_new_Throw; done. }
  erewrite bind_Ok by (apply RawMemory_new_Ok; done).
  erewrite bind_Ok by reflexivity.
  erewrite bind_Ok
    by (apply get_data__Ok; rewrite lookup_insert_ne by done; done).
  fold b'. simpl.
  destruct Hrep as [-> -> | b cap -> Hc0 Hcap Hb]; simpl in *; [done|].
  assert (b ≠ b') as Hbb by congruence.
  pose proof (uninitialized_copy_from_blocks b b' 0 0 0 (length ys)
                (<[b' := replicate (length ys) None]> h)
                (<[this := mkVector (mkRawMemory (Ptr (Some b') 0) (length ys))
                                    (length ys)]> o)
                (spend 1 f) mf d l
                [] ys (replicate (cap - length ys) None) [] [] []) as HU.
  simpl in HU. rewrite app_nil_r, lookup_insert_eq in HU.
  rewrite lookup_insert_ne in HU by done.
  specialize (HU Hbb Hb eq_refl eq_refl eq_refl eq_refl eq_refl).
  unfold uninitialized_copy_n.
  destruct (decide (passes (length ys) (spend 1 f))) as [P2|P2].
  - rewrite decide_True by by apply (passes_add 1).
    erewrite unwind_Ok by done.
    by rewrite insert_insert_eq, app_nil_r, spend_spend.
  - rewrite decide_False by (intros [_ ?]%(passes_add 1); done).
    erewrite unwind_Throw; [reflexivity|exact HU|].
    erewrite bind_Ok; last first.
    { eapply RawMemory_dtor_block. apply lookup_insert_eq. }
    unfold end_object. simpl.
    rewrite insert_insert_eq, delete_fresh_insert by done.
    by rewrite live_count_raw, delete_insert_eq, Nat.add_0_r.
Qed.

(** ** [Reserve] and [Resize] when they throw *)
Lemma Reserve_throw this v xs n h o f mf d l :
  o !! this = Some v → rep h v xs → capacity_ (data_ v) < n →
  move_ok is_nothrow_move_constructible mf →
  ¬ passes (1 + reloc_ticks (length xs)) f →
  ∃ d', Reserve this n (World h o f mf d l) = Throw (World h o None mf d' l).
Proof.
  intros Ho Hrep Hcap Hmv HP. unfold Reserve.
  erewrite bind_Ok by by apply Capacity_Ok.
  rewrite decide_False by lia.
  destruct (decide (passes 1 f)) as [P1|P1]; last first.
  { exists d. apply bind_Throw, RawMemory_new_Throw; [lia|done]. }
  erewrite bind_Ok by (apply RawMemory_new_Ok; [lia|done]).
  erewrite bind_Ok by by apply get_data__Ok.
  erewrite bind_Ok by by apply get_size__Ok.
  pose proof (fresh_block_None h) as Hfresh.
  set (b' := fresh (dom h)) in *.
  assert (P2 : ¬ passes (reloc_ticks (length xs)) (spend 1 f)).
  { intros P2. apply HP. by apply (passes_add 1). }
  destruct Hrep as [-> -> | b cap -> Hc0 Hle Hb]; simpl in *.
  { destruct P2. rewrite reloc_ticks_0. apply passes_0. }
  assert (b ≠ b') as Hne by congruence.
  eexists. apply bind_Throw.
  eapply unwind_Throw.
  - apply bind_Throw.
    rewrite (CopyMoveNElements_blocks b b' 0 0 (length xs) _ o _ mf d l
               [] xs (replicate (cap - length xs) None)
               [] (replicate (n - length xs) None)); try done.
    + by rewrite decide_False.
    + by rewrite lookup_insert_ne.
    + rewrite lookup_insert_eq. simpl. f_equal. apply raw_split. lia.
  - erewrite RawMemory_dtor_block by apply lookup_insert_eq.
    by rewrite delete_fresh_insert, live_count_raw, Nat.add_0_r.
Qed.


Lemma value_construct_tail b xs cap n h o f mf d l :
  h !! b = Some (cells xs cap) → length xs ≤ n → n ≤ cap →
  uninitialized_value_construct_n (Ptr (Some b) (length xs)) (n - length xs)
    (World h o f mf d l)
  = if decide (passes (n - length xs) f) then
      Ok () (World (<[b := cells (xs ++ replicate (n - length xs) value_init) cap]> h)
                   o (spend (n - length xs) f) mf d l)
    else Throw (World h o None mf (default 0 f + d) l).
Proof.
  intros Hb Hle Hcap. unfold uninitialized_value_construct_n.
  rewrite (uninitialized_value_construct_from_block b (length xs) 0
             (n - length xs) h o f mf d l (Some <$> xs) []
             (replicate (cap - n) None)); [| |by rewrite length_fmap|done].
  - destruct (decide (passes (n - length xs) f)).
    + do 3 f_equal. unfold cells. simpl.
      rewrite fmap_app, <- app_assoc, length_app, length_replicate.
      do 3 f_equal. lia.
    + simpl. do 2 f_equal. rewrite <- replicate_add.
      replace (n - length xs + (cap - n)) with (cap - length xs) by lia.
      by apply insert_id.
  - rewrite Hb. unfold cells. simpl. do 2 f_equal.
    rewrite <- replicate_add. f_equal. lia.
Qed.

Lemma Resize_throw this v xs n h o f mf d l w' :
  o !! this = Some v → rep h v xs →
  move_ok is_nothrow_move_constructible mf →
  Resize this n (World h o f mf d l) = Throw w' →
  ∃ h' v' d',
    w' = World h' (<[this := v']> o) None mf d' l ∧
    rep h' v' xs ∧ size_ v' = size_ v ∧
    capacity_ (data_ v) ≤ capacity_ (data_ v') ∧
    frame h v h' v'.
Proof.
  intros Ho Hrep Hmv. unfold Resize.
  erewrite bind_Ok by by apply get_size__Ok.
  pose proof (rep_size _ _ _ Hrep) as Hsize.
  pose proof (rep_capacity _ _ _ Hrep) as Hcap.
  destruct (decide (size_ v = n)) as [Heq|Hneq]; [done|].
  destruct (decide (n < size_ v)) as [Hlt|Hge].
  { destruct Hrep as [-> -> | b cap -> Hc0 Hle Hb]; simpl in *; [lia|].
    erewrite bind_Ok; last first.
    { erewrite bind_Ok by by apply get_data__Ok.
      simpl. unfold ptr_add. simpl.
      apply (destroy_n_block b n (length xs - n) h o f mf d l
               (Some <$> take n xs) (drop n xs)
               (replicate (cap - length xs) None)).
      - rewrite Hb. f_equal. apply cells_take_drop; lia.
      - rewrite length_fmap, length_take. lia.
      - rewrite length_drop. lia. }
    by erewrite set_size__Ok by done. }
  assert (Hn : length xs < n) by lia.
  destruct (decide (n ≤ capacity_ (data_ v))) as [Hfit|Hbig].
  - (* no reallocation *)
    erewrite bind_cong; last first.
    { erewrite bind_Ok by by eapply Reserve_noop.
      erewrite bind_Ok by by apply get_data__Ok. reflexivity. }
    destruct Hrep as [-> -> | b cap -> Hc0 Hle Hb]; simpl in *; [lia|].
    unfold ptr_add, bind. simpl.
    rewrite (value_construct_tail b xs cap n) by (done || lia).
    destruct (decide (passes (n - length xs) f)).
    + by erewrite set_size__Ok by done.
    + intros [= <-]. eexists h, _, _. rewrite insert_id by done.
      split; [reflexivity|]. split; [by eapply rep_block|].
      split; [done|]. split; [done|apply frame_refl].
  - destruct (decide (passes (1 + reloc_ticks (length xs)) f)) as [P|P].
    + rewrite !bind_assoc.
      erewrite bind_Ok by (apply Reserve_grow; done || lia).
      rewrite bind_assoc.
      erewrite bind_Ok by (apply get_data__Ok, lookup_insert_eq).
      pose proof (rep_release_fresh h v xs xs n Hrep) as Hrep1.
      unfold ptr_add, bind. simpl. rewrite Hsize.
      assert (Hb' : release (buffer_ (data_ v))
                      (<[fresh (dom h) := cells xs n]> h) !! fresh (dom h)
                    = Some (cells xs n)).
      { destruct (release_fresh_lookup h (buffer_ (data_ v)) (fresh (dom h))
                    (cells xs n) (fresh_block_None h)) as [?|Hb]; [done|].
        eapply rep_block_of in Hrep as [c Hc]; [|done].
        by rewrite fresh_block_None in Hc. }
      rewrite (value_construct_tail _ xs n n) by (done || lia).
      destruct (decide (passes (n - length xs) _)).
      * by erewrite set_size__Ok by apply lookup_insert_eq.
      * intros [= <-]. eexists _, _, _. split; [reflexivity|].
        split; [apply Hrep1; lia|]. split; [done|]. split; [simpl; lia|].
        apply frame_fresh_block; [apply fresh_block_None|done].
    + destruct (Reserve_throw this v xs n h o f mf d l) as [d' HR];
        [done|done|lia|done|done|].
      erewrite bind_Throw by by apply bind_Throw.
      intros [= <-]. eexists h, v, d'. rewrite insert_id by done.
      split; [done|]. split; [done|]. split; [done|].
      split; [done|apply frame_refl].
Qed.

(** ** Insertion with spare capacity, when the element's constructor throws *)
Lemma Emplace_at_end_throw this b cap xs x h o f mf d l :
  let v := mkVector (mkRawMemory (Ptr (Some b) 0) cap) (length xs) in
  o !! this = Some v → h !! b = Some (cells xs cap) → length xs < cap →
  ¬ passes 1 f →
  Emplace this (Ptr (Some b) (length xs)) x (World h o f mf d l)
  = Throw (World h o None mf d l).
Proof.
  intros v Ho Hb Hlt Hp. unfold Emplace.
  erewrite bind_Ok by by apply begin__Ok.
  erewrite bind_Ok by (apply ptr_diff_block; lia).
  erewrite bind_Ok by by apply get_size__Ok.
  erewrite bind_Ok by by apply Capacity_Ok.
  simpl. rewrite decide_False by lia. rewrite Nat.sub_0_r.
  apply bind_Throw.
  erewrite bind_Ok by by apply end__Ok.
  unfold ptr_add. simpl. rewrite decide_True by done.
  erewrite bind_Ok by by apply end__Ok.
  unfold construct_at. apply bind_Throw. by apply tick_Throw.
Qed.

Lemma Emplace_in_middle_throw this b cap xs i x h o f mf d l :
  let v := mkVector (mkRawMemory (Ptr (Some b) 0) cap) (length xs) in
  o !! this = Some v → length xs < cap → i < length xs →
  ¬ passes 1 f →
  Emplace this (Ptr (Some b) i) x (World h o f mf d l)
  = Throw (World h o None mf d l).
Proof.
  intros v Ho Hlt Hi Hp. unfold Emplace.
  erewrite bind_Ok by by apply begin__Ok.
  erewrite bind_Ok by (apply ptr_diff_block; lia).
  erewrite bind_Ok by by apply get_size__Ok.
  erewrite bind_Ok by by apply Capacity_Ok.
  simpl. rewrite decide_False by lia. rewrite Nat.sub_0_r.
  apply bind_Throw.
  erewrite bind_Ok by by apply end__Ok.
  unfold ptr_add. simpl. rewrite decide_False by (intros [=]; lia).
  apply bind_Throw. by apply tick_Throw.
Qed.

(** [Emplace] at any position of any vector, when moves do not throw: it
    returns, or throws and leaves the world as it was but for the fuse and
    the count of destructor calls. *)
Lemma Emplace_outcome this v xs i x h o f mf d l :
  o !! this = Some v → rep h v xs → i ≤ length xs →
  move_ok is_nothrow_move_constructible mf →
  move_ok is_nothrow_move_assignable mf →
  (∃ p w', Emplace this (buffer_ (data_ v) +ₚ i) x (World h o f mf d l) = Ok p w') ∨
  (∃ d', Emplace this (buffer_ (data_ v) +ₚ i) x (World h o f mf d l)
         = Throw (World h o None mf d' l)).
Proof.
  intros Ho Hrep Hi Hmc Hma.
  pose proof (rep_size _ _ _ Hrep) as Hsize.
  pose proof (rep_capacity _ _ _ Hrep) as Hcap.
  destruct (decide (size_ v = capacity_ (data_ v))) as [Hfull|Hspare].
  - destruct (Emplace_grow this v xs i x h o f mf d l Ho Hrep Hfull Hi Hmc)
      as (r & <- & HOk & HThrow).
    destruct (decide (passes (2 + reloc_ticks (length xs)) f)) as [P|P].
    + left. rewrite (HOk P). eauto.
    + right. destruct (HThrow P) as [d' ->]. eauto.
  - destruct Hrep as [-> -> | b cap -> Hc0 Hle Hb]; simpl in *; [done|].
    unfold ptr_add. simpl.
    destruct (decide (passes 1 f)) as [P|P].
    + left. destruct (decide (i = length xs)) as [->|Hmid].
      * rewrite (Emplace_at_end this b cap xs x h o f mf d l) by (done || lia).
        eauto.
      * destruct (split_last_of_drop xs i) as (mid & xl & Hdrop); [lia|].
        assert (Hxs : xs = take i xs ++ mid ++ [xl])
          by by rewrite <- Hdrop, take_drop.
        assert (Hti : length (take i xs) = i) by (rewrite length_take; lia).
        pose proof (Emplace_in_middle this b cap (take i xs) mid xl x
                      h o f mf d l) as HE.
        simpl in HE. rewrite <- Hxs, Hti in HE.
        rewrite HE by (done || lia). eauto.
    + right. exists d. destruct (decide (i = length xs)) as [->|Hmid].
      * apply (Emplace_at_end_throw this b cap xs); done || lia.
      * apply (Emplace_in_middle_throw this b cap xs); done || lia.
Qed.


(** ** Construction, and what a throwing call leaves behind *)


(** X2. If [Vector(size)] throws (the allocation fails or the constructor
    of an element throws), no object comes to exist at [this], the block
    that had been allocated is released and the heap is the one before the
    call, and no object is lost: the elements that had been constructed
    were destroyed. *)
Theorem Vector_sized_throw_releases (w w' : world) (this n : nat) :
  objs w !! this = None →
  Vector_sized this n w = Throw w' →
  unchanged w w' ∧ objs w' !! this = None ∧
  ∃ k, fuse w = Some k ∧ k ≤ n ∧ dtors w' = k - 1 + dtors w.
Proof.
  destruct w as [h o f mf d l]. simpl. intros Ho.
  destruct (decide (n = 0)) as [->|Hn]; [by rewrite Vector_sized_empty|].
  rewrite Vector_sized_exec by done.
  destruct (decide (passes (1 + n) f)) as [P|P]; [done|].
  destruct f as [k|]; [|by destruct P]. simpl in P.
  case_decide as P1; intros [= <-]; unfold unchanged; simpl.
  - rewrite delete_id by done. split; [done|]. split; [done|].
    exists k. split; [done|]. split; [lia|done].
  - simpl in P1. split; [done|]. split; [done|].
    exists k. split; [done|]. split; [lia|]. lia.
Qed.

(** X3. The copy constructor builds a vector that holds the elements of
    [other] in a block of its own, never the source's, whose capacity is
    the length of [other] and not its capacity; [other] and its elements
    are as before, and no destructor runs.  It returns when no exception
    is scheduled. *)
Theorem Vector_copy_deep (w : world) (this other : nat) (c : Vector)
    (ys : list T) :
  this ≠ other → objs w !! other = Some c → rep (heap w) c ys →
  (no_faults w → ∃ w', Vector_copy this other w = Ok () w') ∧
  (∀ w', Vector_copy this other w = Ok () w' →
     ∃ v', objs w' !! this = Some v' ∧
           rep (heap w') v' ys ∧
           capacity_ (data_ v') = length ys ∧
           objs w' !! other = Some c ∧
           rep (heap w') c ys ∧
           (ys ≠ [] → block_of v' ≠ block_of c) ∧
           dtors w' = dtors w ∧ leaked w' = leaked w).
Proof.
  destruct w as [h o f mf d l]. simpl. intros Hne Hc Hrep.
  destruct (decide (length ys = 0)) as [Hz|Hnz].
  { rewrite (Vector_copy_empty this other c)
      by (done || by rewrite (rep_size _ _ _ Hrep)).
    split; [by eauto|]. intros w' [= <-]. simpl.
    destruct ys; [|done].
    exists empty_vector. split; [apply lookup_insert_eq|].
    split; [apply rep_empty|]. split; [done|].
    split; [by rewrite lookup_insert_ne|]. done. }
  rewrite (Vector_copy_exec this other c ys) by done. split.
  - intros [Hf _]. simpl in Hf. subst f. rewrite decide_True by done. eauto.
  - intros w' Hrun.
    destruct (decide (passes (1 + length ys) f)); [|by repeat case_decide].
    injection Hrun as <-. simpl.
    pose proof (fresh_block_None h) as Hfresh.
    eexists. split; [apply lookup_insert_eq|]. simpl.
    split.
    { apply rep_block_at; [|done|done|done].
      by rewrite lookup_insert_eq, cells_full. }
    split; [done|]. split; [by rewrite lookup_insert_ne|].
    assert (Hcb : block_of c ≠ Some (fresh (dom h))).
    { intros Hcb. eapply rep_block_of in Hcb as [? Hcb]; [|done]. congruence. }
    split.
    { eapply rep_frame; [done|]. intros b Hb.
      rewrite lookup_insert_ne; [done|congruence]. }
    split; [|done]. intros _ Heq. by rewrite <- Heq in Hcb.
Qed.

(** X4. If the copy constructor throws (the allocation fails or the copy
    constructor of an element throws), no object comes to exist at
    [this], the heap is the one before the call, and no object is lost;
    the source is untouched. *)
Theorem Vector_copy_throw_releases (w w' : world) (this other : nat)
    (c : Vector) (ys : list T) :
  this ≠ other → objs w !! this = None →
  objs w !! other = Some c → rep (heap w) c ys →
  Vector_copy this other w = Throw w' →
  unchanged w w' ∧ objs w' !! this = None ∧ rep (heap w') c ys.
Proof.
  destruct w as [h o f mf d l]. simpl. intros Hne Ho Hc Hrep.
  destruct (decide (length ys = 0)) as [Hz|Hnz].
  { by rewrite (Vector_copy_empty this other c)
      by (done || by rewrite (rep_size _ _ _ Hrep)). }
  rewrite (Vector_copy_exec this other c ys) by done.
  repeat case_decide; [done|..]; intros [= <-]; unfold unchanged; simpl;
    rewrite ?delete_id by done; done.
Qed.

(** X5. [Reserve] gives the strong exception guarantee when the move
    constructor of the elements does not throw: if the call throws (the
    allocation fails or a copy constructor throws while the elements are
    relocated), the vector, its elements, the heap and every other object
    are as before the call, and no object is lost. *)
Theorem Reserve_strong_guarantee (w w' : world) (this : nat) (v : Vector)
    (xs : list T) (n : nat) :
  objs w !! this = Some v → rep (heap w) v xs →
  move_ok is_nothrow_move_constructible (move_fuse w) →
  Reserve this n w = Throw w' →
  unchanged w w' ∧ objs w' !! this = Some v ∧ rep (heap w') v xs.
Proof.
  destruct w as [h o f mf d l]. simpl. intros Ho Hrep Hmv Hrun.
  destruct (decide (n ≤ capacity_ (data_ v))) as [Hn|Hn].
  { by rewrite (Reserve_noop this v n) in Hrun. }
  destruct (decide (passes (1 + reloc_ticks (length xs)) f)) as [P|P].
  { by rewrite (Reserve_grow this v xs n) in Hrun by (done || lia). }
  destruct (Reserve_throw this v xs n h o f mf d l) as [d' HR];
    [done|done|lia|done|done|].
  rewrite HR in Hrun. injection Hrun as <-. done.
Qed.


(** X7. [Emplace] and [Insert] on a vector with spare capacity give the
    strong exception guarantee when the move operations of the elements
    do not throw: if the call throws (the constructor of the new element
    throws), the vector, the heap and every other object are as before the
    call. *)
Theorem Emplace_in_place_strong_guarantee (w w' : world) (this : nat)
    (v : Vector) (xs : list T) (i : nat) (x : T) :
  objs w !! this = Some v → rep (heap w) v xs →
  size_ v < capacity_ (data_ v) → i ≤ length xs →
  move_ok is_nothrow_move_constructible (move_fuse w) →
  move_ok is_nothrow_move_assignable (move_fuse w) →
  Emplace this (buffer_ (data_ v) +ₚ i) x w = Throw w' →
  Insert this (buffer_ (data_ v) +ₚ i) x w = Throw w' ∧
  unchanged w w' ∧ objs w' !! this = Some v ∧ rep (heap w') v xs.
Proof.
  destruct w as [h o f mf d l]. simpl. intros Ho Hrep Hspare Hi Hmc Hma Hrun.
  split; [done|].
  destruct (Emplace_outcome this v xs i x h o f mf d l)
    as [(p & w1 & HR)|[d' HR]]; [done..| |]; rewrite HR in Hrun; [done|].
  by injection Hrun as <-.
Qed.

(** X8. [PushBack] gives the strong exception guarantee when the move
    constructor of the elements does not throw: whether the vector is full
    or not, if the call throws, the vector, the heap and every other
    object are as before the call, and no object is lost. *)
Theorem PushBack_strong_guarantee (w w' : world) (this : nat) (v : Vector)
    (xs : list T) (x : T) :
  objs w !! this = Some v → rep (heap w) v xs →
  move_ok is_nothrow_move_constructible (move_fuse w) →
  PushBack this x w = Throw w' →
  unchanged w w' ∧ objs w' !! this = Some v ∧ rep (heap w') v xs.
Proof.
  destruct w as [h o f mf d l]. simpl. intros Ho Hrep Hmc.
  pose proof (rep_size _ _ _ Hrep) as Hsize.
  unfold PushBack, EmplaceBack.
  rewrite bind_assoc. erewrite bind_Ok by by apply end__Ok.
  rewrite Hsize. unfold GetAddress.
  assert (HE : (∃ p w1, Emplace this (buffer_ (data_ v) +ₚ length xs) x
                          (World h o f mf d l) = Ok p w1) ∨
               (∃ d', Emplace this (buffer_ (data_ v) +ₚ length xs) x
                        (World h o f mf d l) = Throw (World h o None mf d' l))).
  { destruct (decide (size_ v = capacity_ (data_ v))) as [Hfull|Hspare].
    - destruct (Emplace_grow this v xs (length xs) x h o f mf d l)
        as (r & <- & HOk & HThrow); [done..|].
      destruct (decide (passes (2 + reloc_ticks (length xs)) f)) as [P|P].
      + left. rewrite (HOk P). eauto.
      + right. destruct (HThrow P) as [d' ->]. eauto.
    - pose proof (rep_capacity _ _ _ Hrep).
      destruct Hrep as [-> -> | b cap -> Hc0 Hle Hb]; simpl in *; [done|].
      unfold ptr_add. simpl.
      destruct (decide (passes 1 f)) as [P|P].
      + left. rewrite (Emplace_at_end this b cap xs x h o f mf d l)
          by (done || lia). eauto.
      + right. exists d.
        apply (Emplace_at_end_throw this b cap xs); done || lia. }
  destruct HE as [(p & w1 & HR)|[d' HR]].
  - by erewrite bind_Ok by done.
  - erewrite bind_Throw by done. by intros [= <-].
Qed.


(** X9. The functions declared [noexcept] (the move constructor, the move
    assignment, [Swap], [PopBack]) and the default constructor never throw
    and perform no operation that could: called within their contract they
    return whatever exceptions are scheduled, leave the schedule as it was,
    and lose no object. *)
Theorem noexcept_never_throws (c : op) (w : world) :
  is_noexcept c = true → wf w → contract c w →
  ∃ w', run c w = Ok () w' ∧
        fuse w' = fuse w ∧ move_fuse w' = move_fuse w ∧
        leaked w' = leaked w.
Proof.
  destruct w as [h o f mf d l]. intros Hn Hwf Hc.
  destruct c; try discriminate Hn; simpl in Hc |- *.
  - eexists. split; [apply Vector_default_spec|done].
  - destruct Hc as [Hthis (vo & Hvo & _)%exists_with_inv]. simpl in *.
    rewrite (Vector_move_spec this other vo) by (done || congruence).
    by eexists.
  - destruct Hc as [(v & Hv & _)%exists_with_inv (vr & Hvr & _)%exists_with_inv].
    simpl in *. unfold operator_assign_move.
    rewrite (Swap_spec this rhs v vr) by done. by eexists.
  - destruct Hc as [(v & Hv & _)%exists_with_inv (vr & Hvr & _)%exists_with_inv].
    simpl in *. rewrite (Swap_spec this other v vr) by done. by eexists.
  - apply exists_with_inv in Hc as (v & Hv & Hi). simpl in *.
    destruct (wf_rep _ _ _ Hwf Hv) as [xs Hxs]. simpl in *.
    rewrite (rep_size _ _ _ Hxs) in Hi.
    destruct (PopBack_spec this v xs h o f mf d l)
      as (h' & v' & -> & _); [done..|]. by eexists.
Qed.

(** X10. [Swap] exchanges the two vectors without touching the heap: each
    object ends with the other's buffer, capacity and length, so no element
    is moved or copied and every other object is as before.  It does not
    matter which of the two it is called on, and swapping twice restores
    the world. *)
Theorem Swap_exchanges_and_undoes (w : world) (this other : nat)
    (a c : Vector) :
  objs w !! this = Some a → objs w !! other = Some c →
  (∃ w', Swap this other w = Ok () w' ∧
         objs w' !! this = Some c ∧ objs w' !! other = Some a ∧
         (∀ k, k ≠ this → k ≠ other → objs w' !! k = objs w !! k) ∧
         heap w' = heap w ∧ dtors w' = dtors w) ∧
  Swap other this w = Swap this other w ∧
  (Swap this other;; Swap this other) w = Ok () w.
Proof.
  destruct w as [h o f mf d l]. simpl. intros Ha Hc.
  rewrite (Swap_spec this other a c), (Swap_spec other this c a) by done.
  split; [|split].
  - eexists. split; [done|]. simpl.
    split.
    { destruct (decide (this = other)) as [->|];
        [rewrite lookup_insert_eq; congruence|].
      by rewrite lookup_insert_ne, lookup_insert_eq. }
    split; [apply lookup_insert_eq|].
    split; [|done]. intros k ? ?. by rewrite !lookup_insert_ne.
  - do 2 f_equal. apply map_eq. intros k.
    destruct (decide (k = other)), (decide (k = this));
      simplify_map_eq; congruence.
  - erewrite bind_Ok by by apply Swap_spec.
    rewrite (Swap_spec this other c a); last first.
    { apply lookup_insert_eq. }
    { destruct (decide (this = other)) as [->|];
        [rewrite lookup_insert_eq; congruence|].
      by rewrite lookup_insert_ne, lookup_insert_eq. }
    do 2 f_equal. apply map_eq. intros k.
    destruct (decide (k = other)), (decide (k = this));
      simplify_map_eq; congruence.
Qed.

(** ** Observers *)
Lemma read_rep h v xs i x o f mf d l :
  rep h v xs → xs !! i = Some x →
  read (buffer_ (data_ v) +ₚ i) (World h o f mf d l)
  = Ok x (World h o f mf d l).
Proof.
  intros [-> -> | b cap -> Hc0 Hle Hb] Hi; [done|].
  unfold ptr_add. simpl. eapply read_block; [done|].
  by apply cells_lookup_live.
Qed.

Lemma read_end_rep h v xs o f mf d l :
  rep h v xs →
  read (buffer_ (data_ v) +ₚ length xs) (World h o f mf d l) = Undefined.
Proof.
  intros [-> -> | b cap -> Hc0 Hle Hb]; [done|].
  unfold ptr_add. simpl.
  destruct (decide (length xs < cap)) as [Hlt|Hfull].
  - eapply read_raw; [done|]. by apply cells_lookup_raw.
  - unfold read. apply bind_Undefined. unfold load. simpl. rewrite Hb.
    rewrite (lookup_ge_None_2 (cells xs cap)); [done|].
    rewrite cells_length by done. lia.
Qed.

(** X11. [operator[]] checks its index against the length: for an index
    below the length it returns the address [begin() + index], where the
    element of that index lives, and changes nothing; for any other index
    its assertion fails. *)
Theorem index_checked (w : world) (this : nat) (v : Vector) (xs : list T)
    (i : nat) :
  objs w !! this = Some v → rep (heap w) v xs →
  (∀ x, xs !! i = Some x →
        index this i w = Ok (buffer_ (data_ v) +ₚ i) w ∧
        read (buffer_ (data_ v) +ₚ i) w = Ok x w) ∧
  (length xs ≤ i → index this i w = Undefined).
Proof.
  destruct w as [h o f mf d l]. simpl. intros Ho Hrep.
  pose proof (rep_size _ _ _ Hrep) as Hsize.
  pose proof (rep_capacity _ _ _ Hrep) as Hcap.
  unfold index. erewrite bind_Ok by by apply get_size__Ok.
  rewrite Hsize. split.
  - intros x Hx. pose proof (lookup_lt_Some _ _ _ Hx) as Hi.
    split; [|by eapply read_rep].
    rewrite bool_decide_eq_true_2 by done.
    erewrite bind_Ok by reflexivity.
    erewrite bind_Ok by by apply get_data__Ok.
    unfold RawMemory_index. rewrite bool_decide_eq_true_2 by lia. done.
  - intros Hi. by rewrite bool_decide_eq_false_2 by lia.
Qed.

(** X12. The iterators and observers describe the elements: [begin()] is
    the buffer and [end()] is [begin() + Size()], the constant versions
    agree with them, [Size()] is the number of elements and [Capacity()]
    the capacity, none of them changes anything; every element is read
    at [begin() + i] for its index [i], and reading through [end()] is
    undefined. *)
Theorem iterators_span_elements (w : world) (this : nat) (v : Vector)
    (xs : list T) :
  objs w !! this = Some v → rep (heap w) v xs →
  begin_ this w = Ok (buffer_ (data_ v)) w ∧
  end_ this w = Ok (buffer_ (data_ v) +ₚ length xs) w ∧
  cbegin this w = begin_ this w ∧ cend this w = end_ this w ∧
  Size this w = Ok (length xs) w ∧
  Capacity this w = Ok (capacity_ (data_ v)) w ∧
  length xs ≤ capacity_ (data_ v) ∧
  ptr_diff (buffer_ (data_ v) +ₚ length xs) (buffer_ (data_ v)) w
  = Ok (length xs) w ∧
  (∀ i x, xs !! i = Some x → read (buffer_ (data_ v) +ₚ i) w = Ok x w) ∧
  read (buffer_ (data_ v) +ₚ length xs) w = Undefined.
Proof.
  destruct w as [h o f mf d l]. simpl. intros Ho Hrep.
  pose proof (rep_size _ _ _ Hrep) as Hsize.
  split; [by apply begin__Ok|].
  split; [by rewrite (end__Ok this v), Hsize|].
  do 2 (split; [done|]).
  split; [by unfold Size; rewrite (get_size__Ok this v), Hsize|].
  split; [by apply Capacity_Ok|].
  split; [by eapply rep_capacity|].
  split; [apply ptr_diff_offset|].
  split; [intros i x Hx; by eapply read_rep|by eapply read_end_rep].
Qed.

(** X13. [PopBack] on a non-empty vector destroys the last element and
    nothing else: the other elements, the buffer and the capacity are as
    before, the length decreases by one and exactly one destructor runs;
    it returns whatever exceptions are scheduled.  On an empty vector its
    assertion fails. *)
Theorem PopBack_removes_last (w : world) (this : nat) (v : Vector)
    (xs : list T) :
  objs w !! this = Some v → rep (heap w) v xs →
  (xs = [] → PopBack this w = Undefined) ∧
  (∀ ys x, xs = ys ++ [x] →
     ∃ w' v', PopBack this w = Ok () w' ∧
              objs w' !! this = Some v' ∧
              rep (heap w') v' ys ∧
              data_ v' = data_ v ∧ size_ v' = size_ v - 1 ∧
              dtors w' = S (dtors w) ∧ leaked w' = leaked w ∧
              fuse w' = fuse w ∧ move_fuse w' = move_fuse w).
Proof.
  destruct w as [h o f mf d l]. simpl. intros Ho Hrep.
  pose proof (rep_size _ _ _ Hrep) as Hsize. split.
  - intros ->. unfold PopBack. erewrite bind_Ok by by apply get_size__Ok.
    by rewrite Hsize.
  - intros ys x ->.
    destruct (PopBack_spec this v (ys ++ [x]) h o f mf d l)
      as (h' & v' & -> & Hrep' & Hdata & _); [done|done| |].
    { rewrite length_app. simpl. lia. }
    rewrite length_app in Hrep'. simpl in Hrep'.
    replace (length ys + 1 - 1) with (length ys) in Hrep' by lia.
    rewrite take_app_length in Hrep'.
    eexists _, v'. split; [done|]. simpl.
    split; [apply lookup_insert_eq|]. split; [done|]. split; [done|].
    split; [|done].
    rewrite (rep_size _ _ _ Hrep'), Hsize, length_app. simpl. lia.
Qed.


(** ** Appending *)
Lemma release_release_fresh h buf b' cs :
  h !! b' = None →
  release (Ptr (Some b') 0) (release buf (<[b' := cs]> h)) = release buf h.
Proof.
  intros Hfresh. unfold release. simpl. destruct (blk buf) as [b|].
  - apply map_eq. intros k.
    destruct (decide (k = b')) as [->|]; [|destruct (decide (k = b)) as [->|]];
      simplify_map_eq; try done.
    destruct (decide (b = b')) as [->|]; by simplify_map_eq.
  - by apply delete_fresh_insert.
Qed.

Lemma EmplaceBack_calm this v xs x h o d l :
  o !! this = Some v → rep h v xs →
  ∃ h' v' d',
    EmplaceBack this x (World h o None None d l)
    = Ok (buffer_ (data_ v') +ₚ length xs)
         (World h' (<[this := v']> o) None None d' l) ∧
    rep h' v' (xs ++ [x]) ∧
    (size_ v < capacity_ (data_ v) → data_ v' = data_ v) ∧
    (size_ v = capacity_ (data_ v) →
     capacity_ (data_ v') = new_capacity_for (size_ v)) ∧
    release (buffer_ (data_ v')) h' = release (buffer_ (data_ v)) h ∧
    frame h v h' v' ∧ d ≤ d'.
Proof.
  intros Ho Hrep.
  pose proof (rep_size _ _ _ Hrep) as Hsize.
  pose proof (rep_capacity _ _ _ Hrep) as Hcap.
  unfold EmplaceBack. erewrite bind_Ok by by apply end__Ok.
  rewrite Hsize. unfold GetAddress.
  assert (Hlen : length (xs ++ [x]) = length xs + 1)
    by (rewrite length_app; simpl; lia).
  destruct (decide (size_ v = capacity_ (data_ v))) as [Hfull|Hspare].
  - destruct (Emplace_grow this v xs (length xs) x h o None None d l)
      as (r & <- & HOk & _); [done|done|done|lia|by right|].
    rewrite HOk by done. rewrite take_ge, drop_ge by lia.
    pose proof (new_capacity_for_gt (length xs)).
    eexists _, (mkVector (mkRawMemory (Ptr (Some (fresh (dom h))) 0) _) _), _.
    split; [reflexivity|].
    split; [|split; [lia|split; [|split; [|split; [|lia]]]]].
    + rewrite <- Hlen. apply (rep_release_fresh h v xs); [done|lia|lia].
    + done.
    + apply release_release_fresh, fresh_block_None.
    + apply frame_fresh_block; [apply fresh_block_None|done].
  - destruct Hrep as [-> -> | b cap -> Hc0 Hle Hb]; simpl in *; [done|].
    unfold ptr_add. simpl.
    rewrite (Emplace_at_end this b cap xs x h o None None d l)
      by (done || lia).
    eexists _, (mkVector (mkRawMemory (Ptr (Some b) 0) _) _), _.
    split; [reflexivity|].
    split; [|split; [done|split; [lia|split; [|split; [|lia]]]]].
    + apply rep_block_at; [by rewrite lookup_insert_eq|done|done|lia].
    + unfold release. simpl. by rewrite delete_insert_eq.
    + by apply frame_same_block.
Qed.

Lemma PushBack_all_calm this v xs ys h o d l :
  o !! this = Some v → rep h v xs →
  ∃ h' v' d',
    PushBack_all this ys (World h o None None d l)
    = Ok () (World h' (<[this := v']> o) None None d' l) ∧
    rep h' v' (xs ++ ys) ∧
    (length xs + length ys ≤ capacity_ (data_ v) → data_ v' = data_ v) ∧
    release (buffer_ (data_ v')) h' = release (buffer_ (data_ v)) h ∧
    d ≤ d'.
Proof.
  revert v xs h o d. induction ys as [|y ys IH]; intros v xs h o d Ho Hrep.
  - exists h, v, d. rewrite insert_id, app_nil_r by done. done.
  - destruct (EmplaceBack_calm this v xs y h o d l)
      as (h1 & v1 & d1 & HP & Hrep1 & Hsame1 & _ & Hrel1 & _ & Hd1); [done..|].
    destruct (IH v1 (xs ++ [y]) h1 (<[this := v1]> o) d1)
      as (h' & v' & d' & HA & Hrep' & Hsame' & Hrel' & Hd');
      [apply lookup_insert_eq|done|].
    rewrite insert_insert_eq in HA. rewrite <- app_assoc in Hrep'.
    exists h', v', d'. split; [|split; [done|split; [|split; [|lia]]]].
    + simpl. unfold PushBack. rewrite bind_assoc.
      erewrite bind_Ok by done. by erewrite bind_Ok by reflexivity.
    + simpl. intros Hfit. rewrite (rep_size _ _ _ Hrep) in Hsame1.
      rewrite length_app in Hsame'. simpl in Hsame'.
      rewrite Hsame', Hsame1; [done|lia|]. rewrite Hsame1 by lia. lia.
    + by rewrite Hrel', Hrel1.
Qed.

(** X14. [PushBack] appends: when it returns the vector holds the elements
    it held followed by the new one and its length has grown by one; with
    spare capacity the buffer and the capacity are as before, so that no
    element has changed address, and a full vector ends with the capacity
    of the growth rule.  [EmplaceBack] returns the address of the new last
    element.  They return when no exception is scheduled. *)
Theorem PushBack_appends (w : world) (this : nat) (v : Vector) (xs : list T)
    (x : T) :
  objs w !! this = Some v → rep (heap w) v xs →
  (no_faults w → ∃ w', PushBack this x w = Ok () w') ∧
  (∀ w', PushBack this x w = Ok () w' →
     ∃ v', objs w' !! this = Some v' ∧
           rep (heap w') v' (xs ++ [x]) ∧
           size_ v' = size_ v + 1 ∧
           (size_ v < capacity_ (data_ v) → data_ v' = data_ v) ∧
           (size_ v = capacity_ (data_ v) →
            capacity_ (data_ v') = new_capacity_for (size_ v)) ∧
           leaked w' = leaked w) ∧
  (∀ p w', EmplaceBack this x w = Ok p w' →
     ∃ v', objs w' !! this = Some v' ∧
           p = buffer_ (data_ v') +ₚ length xs ∧
           read p w' = Ok x w').
Proof.
  intros Ho Hrep.
  destruct (EmplaceBack_calm this v xs x (heap w) (objs w) (dtors w) (leaked w))
    as (h1 & v1 & d1 & HE & Hrep1 & Hsame & Hgrow & _); [done..|].
  fold (calm w) in HE.
  assert (HP : PushBack this x (calm w)
               = Ok () (World h1 (<[this := v1]> (objs w)) None None d1 (leaked w))).
  { unfold PushBack. by erewrite bind_Ok by done. }
  split; [|split].
  - intros Hnf. rewrite <- (no_faults_calm w Hnf). eauto.
  - intros w' Hrun.
    destruct (returns_as_calm _ _ _ _ _ _ Hrun HP) as [_ Hw'].
    destruct w' as [h' o' f' mf' d' l']. injection Hw' as -> -> -> ->.
    exists v1. simpl. split; [apply lookup_insert_eq|].
    split; [done|]. split; [|done].
    rewrite (rep_size _ _ _ Hrep1), (rep_size _ _ _ Hrep), length_app.
    simpl. lia.
  - intros p w' Hrun.
    destruct (returns_as_calm _ _ _ _ _ _ Hrun HE) as [-> Hw'].
    destruct w' as [h' o' f' mf' d' l']. injection Hw' as -> -> -> ->.
    exists v1. simpl. split; [apply lookup_insert_eq|]. split; [done|].
    eapply read_rep; [done|]. by apply lookup_middle.
Qed.


(** X15. [PushBack] followed by [PopBack] gives back the elements the
    vector held: when the two calls return, the vector holds exactly its
    former elements with its former length, and its capacity has not
    decreased.  They return when no exception is scheduled. *)
Theorem PushBack_PopBack_round_trip (w : world) (this : nat) (v : Vector)
    (xs : list T) (x : T) :
  objs w !! this = Some v → rep (heap w) v xs →
  (no_faults w → ∃ w', (PushBack this x;; PopBack this) w = Ok () w') ∧
  (∀ w', (PushBack this x;; PopBack this) w = Ok () w' →
     ∃ v', objs w' !! this = Some v' ∧
           rep (heap w') v' xs ∧
           size_ v' = size_ v ∧
           capacity_ (data_ v) ≤ capacity_ (data_ v') ∧
           leaked w' = leaked w).
Proof.
  intros Ho Hrep.
  pose proof (rep_size _ _ _ Hrep) as Hsize.
  pose proof (rep_capacity _ _ _ Hrep) as Hcap.
  destruct (EmplaceBack_calm this v xs x (heap w) (objs w) (dtors w) (leaked w))
    as (h1 & v1 & d1 & HE & Hrep1 & Hsame & Hgrow & _); [done..|].
  fold (calm w) in HE.
  destruct (PopBack_spec this v1 (xs ++ [x]) h1 (<[this := v1]> (objs w))
              None None d1 (leaked w))
    as (h2 & v2 & HP & Hrep2 & Hdata & _);
    [apply lookup_insert_eq|done|rewrite length_app; simpl; lia|].
  rewrite length_app in Hrep2. simpl in Hrep2.
  replace (length xs + 1 - 1) with (length xs) in Hrep2 by lia.
  rewrite take_app_length, insert_insert_eq in *.
  assert (HR : (PushBack this x;; PopBack this) (calm w)
               = Ok () (World h2 (<[this := v2]> (objs w)) None None (S d1)
                              (leaked w))).
  { unfold PushBack. rewrite bind_assoc. erewrite bind_Ok by done.
    by erewrite bind_Ok by reflexivity. }
  split.
  - intros Hnf. rewrite <- (no_faults_calm w Hnf). eauto.
  - intros w' Hrun.
    assert (Stable (PushBack this x;; PopBack this))
      by (apply bind_stable; [|intros ?]; apply _).
    destruct (returns_as_calm _ _ _ _ _ _ Hrun HR) as [_ Hw'].
    destruct w' as [h' o' f' mf' d' l']. injection Hw' as -> -> -> ->.
    exists v2. simpl. split; [apply lookup_insert_eq|].
    split; [done|]. split; [by rewrite (rep_size _ _ _ Hrep2)|].
    split; [|done]. rewrite Hdata.
    destruct (decide (size_ v = capacity_ (data_ v))) as [Hfull|Hspare].
    + rewrite Hgrow by done. pose proof (new_capacity_for_gt (size_ v)). lia.
    + rewrite Hsame by lia. done.
Qed.

Lemma insert_then_erase xs i (x : T) :
  i ≤ length xs →
  take i (take i xs ++ x :: drop i xs)
  ++ drop (S i) (take i xs ++ x :: drop i xs) = xs.
Proof.
  intros Hi.
  assert (Hti : length (take i xs) = i) by (rewrite length_take; lia).
  rewrite take_app_length' by done.
  rewrite (cons_middle x), app_assoc.
  rewrite drop_app_length' by (rewrite length_app; simpl; lia).
  apply take_drop.
Qed.

(** X16. [Insert] at a position followed by [Erase] at the iterator that
    [Insert] returned gives back the elements the vector held: when the
    two calls return, the vector holds exactly its former elements, and
    the iterator returned by [Erase] is the position of index [i] again.
    They return when no exception is scheduled. *)
Theorem Insert_Erase_round_trip (w : world) (this : nat) (v : Vector)
    (xs : list T) (i : nat) (x : T) :
  objs w !! this = Some v → rep (heap w) v xs → i ≤ length xs →
  (no_faults w →
   ∃ p w', (p <- Insert this (buffer_ (data_ v) +ₚ i) x;; Erase this p) w
           = Ok p w') ∧
  (∀ p w', (p <- Insert this (buffer_ (data_ v) +ₚ i) x;; Erase this p) w
           = Ok p w' →
     ∃ v', objs w' !! this = Some v' ∧
           rep (heap w') v' xs ∧
           size_ v' = size_ v ∧
           p = buffer_ (data_ v') +ₚ i ∧
           leaked w' = leaked w).
Proof.
  intros Ho Hrep Hi.
  destruct (Emplace_spec this v xs i x (heap w) (objs w) (dtors w) (leaked w))
    as (h1 & v1 & d1 & HE & Hrep1 & _); [done..|].
  fold (calm w) in HE.
  destruct (Erase_spec this v1 (take i xs ++ x :: drop i xs) i h1
              (<[this := v1]> (objs w)) None None d1 (leaked w))
    as (h2 & v2 & HP & Hrep2 & Hdata & _);
    [apply lookup_insert_eq|done| |by right|].
  { rewrite length_app, length_take, length_cons, length_drop. lia. }
  rewrite insert_then_erase, insert_insert_eq in * by done.
  assert (HR : (p <- Insert this (buffer_ (data_ v) +ₚ i) x;; Erase this p)
                 (calm w)
               = Ok (buffer_ (data_ v1) +ₚ i)
                    (World h2 (<[this := v2]> (objs w)) None None (S d1)
                           (leaked w))).
  { unfold Insert. by erewrite bind_Ok by done. }
  split.
  - intros Hnf. rewrite <- (no_faults_calm w Hnf). eauto.
  - intros p w' Hrun.
    assert (Stable (p <- Insert this (buffer_ (data_ v) +ₚ i) x;; Erase this p))
      by (apply bind_stable; [|intros ?]; apply _).
    destruct (returns_as_calm _ _ _ _ _ _ Hrun HR) as [-> Hw'].
    destruct w' as [h' o' f' mf' d' l']. injection Hw' as -> -> -> ->.
    exists v2. simpl. split; [apply lookup_insert_eq|].
    split; [done|].
    split; [by rewrite (rep_size _ _ _ Hrep2), (rep_size _ _ _ Hrep)|].
    by rewrite Hdata.
Qed.



(** X18. The destructor destroys each element once and releases the
    buffer: exactly [size] destructors run, the block of the vector leaves
    the heap while every other block stays, the object is gone, and
    nothing is lost.  It returns whatever exceptions are scheduled. *)
Theorem Vector_dtor_releases (w : world) (this : nat) (v : Vector)
    (xs : list T) :
  objs w !! this = Some v → rep (heap w) v xs →
  ∃ w', Vector_dtor this w = Ok () w' ∧
        objs w' = delete this (objs w) ∧
        (∀ b, block_of v = Some b → heap w' !! b = None) ∧
        (∀ b, block_of v ≠ Some b → heap w' !! b = heap w !! b) ∧
        dtors w' = length xs + dtors w ∧ leaked w' = leaked w ∧
        fuse w' = fuse w ∧ move_fuse w' = move_fuse w.
Proof.
  destruct w as [h o f mf d l]. simpl. intros Ho Hrep.
  rewrite (Vector_dtor_spec this v xs) by done.
  eexists. split; [done|]. simpl. split; [done|].
  unfold release, block_of.
  split; [|split; [|done]].
  - intros b ->. apply lookup_delete_eq.
  - intros b Hb. destruct (blk (buffer_ (data_ v))); [|done].
    rewrite lookup_delete_ne; [done|congruence].
Qed.

(** X19. A whole lifetime leaves no trace: default construction, any
    number of [PushBack]s and destruction, when they return, leave the heap
    and the objects exactly as they were before the vector was constructed
    (every block that was allocated on the way has been released) and no
    object has been lost.  The calls return when no exception is
    scheduled. *)
Theorem lifetime_leaves_no_trace (w : world) (this : nat) (xs : list T) :
  objs w !! this = None →
  (no_faults w →
   ∃ w', (Vector_default this;; PushBack_all this xs;; Vector_dtor this) w
         = Ok () w') ∧
  (∀ w', (Vector_default this;; PushBack_all this xs;; Vector_dtor this) w
         = Ok () w' →
     heap w' = heap w ∧ objs w' = objs w ∧ leaked w' = leaked w ∧
     length xs ≤ dtors w' - dtors w).
Proof.
  intros Ho.
  destruct (PushBack_all_calm this empty_vector [] xs (heap w)
              (<[this := empty_vector]> (objs w)) (dtors w) (leaked w))
    as (h1 & v1 & d1 & HA & Hrep1 & _ & Hrel & Hd1);
    [apply lookup_insert_eq|apply rep_empty|].
  rewrite insert_insert_eq in HA. simpl in Hrep1, Hrel.
  assert (HR : (Vector_default this;; PushBack_all this xs;; Vector_dtor this)
                 (calm w)
               = Ok () (World (heap w) (objs w) None None (length xs + d1)
                              (leaked w))).
  { erewrite bind_Ok by apply Vector_default_spec.
    erewrite bind_Ok by done.
    rewrite (Vector_dtor_spec this v1 xs) by (done || apply lookup_insert_eq).
    by rewrite Hrel, delete_insert_eq, delete_id. }
  split.
  - intros Hnf. rewrite <- (no_faults_calm w Hnf). eauto.
  - intros w' Hrun.
    assert (Stable (Vector_default this;; PushBack_all this xs;;
                    Vector_dtor this))
      by (apply bind_stable; [|intros ?; apply bind_stable; [|intros ?]];
          apply _).
    destruct (returns_as_calm _ _ _ _ _ _ Hrun HR) as [_ Hw'].
    destruct w' as [h' o' f' mf' d' l']. injection Hw' as -> -> -> ->.
    simpl. do 3 (split; [done|]). lia.
Qed.


(** ** What a call leaves alone *)

(** A returning call within its contract, in the world where nothing
    throws: it loses no object, and a call that works on the single object
    [this] changes that object only and respects its footprint. *)
Lemma run_footprint (c : op) h o d l w' :
  wf (World h o None None d l) → contract c (World h o None None d l) →
  run c (World h o None None d l) = Ok () w' →
  leaked w' = l ∧
  ∀ this v, mutated c = Some this → o !! this = Some v →
    ∃ v', objs w' = <[this := v']> o ∧ frame h v (heap w') v'.
Proof.
  intros Hwf Hc Hrun.
  assert (Hdone : ∀ this v h' v' d',
            o !! this = Some v → frame h v h' v' →
            w' = World h' (<[this := v']> o) None None d' l →
            leaked w' = l ∧
            ∀ this0 v0, Some this = Some this0 → o !! this0 = Some v0 →
              ∃ v'0, objs w' = <[this0 := v'0]> o ∧ frame h v0 (heap w') v'0).
  { intros this v h' v' d' Ho Hfr ->. split; [done|].
    intros this0 v0 [= <-] Ho0. rewrite Ho in Ho0. injection Ho0 as <-.
    by exists v'. }
  destruct c; simpl in Hc, Hrun |- *.
  - rewrite Vector_default_spec in Hrun. by injection Hrun as <-.
  - destruct (Vector_sized_spec this size h o d l) as (h' & v' & HR & _).
    rewrite HR in Hrun. by injection Hrun as <-.
  - destruct Hc as [Hthis (vo & Hvo & _)%exists_with_inv]. simpl in *.
    destruct (wf_rep _ _ _ Hwf Hvo) as [ys Hys].
    destruct (Vector_copy_spec this other vo ys h o d l)
      as (h' & v' & HR & _); [congruence|done..|].
    rewrite HR in Hrun. by injection Hrun as <-.
  - destruct Hc as [Hthis (vo & Hvo & _)%exists_with_inv]. simpl in *.
    rewrite (Vector_move_spec this other vo) in Hrun by (done || congruence).
    by injection Hrun as <-.
  - destruct Hc as [(v & Hv & _)%exists_with_inv (vr & Hvr & _)%exists_with_inv].
    simpl in *.
    destruct (decide (this = rhs)) as [->|Hne].
    { rewrite operator_assign_self in Hrun. injection Hrun as <-.
      eapply (Hdone rhs v h v d); [done|apply frame_refl|].
      by rewrite insert_id. }
    destruct (wf_rep _ _ _ Hwf Hv) as [xs Hxs].
    destruct (wf_rep _ _ _ Hwf Hvr) as [ys Hys]. simpl in *.
    pose proof (wf_disjoint_blocks _ this rhs v vr Hwf Hne Hv Hvr) as Hdis.
    destruct (decide (capacity_ (data_ v) < length ys)) as [Hbig|Hfit].
    { destruct (operator_assign_realloc this rhs v vr xs ys h o d l)
        as (h' & v' & HR & ? & ? & ?); [done..|].
      rewrite HR in Hrun. injection Hrun as <-. by eapply Hdone. }
    destruct (decide (length ys ≤ length xs)) as [Hshort|Hlong].
    { destruct (operator_assign_shrink this rhs v vr xs ys h o d l)
        as (h' & v' & HR & ? & ? & ?); [done..|].
      rewrite HR in Hrun. injection Hrun as <-. by eapply Hdone. }
    rewrite (operator_assign_raw_read this rhs v vr xs ys) in Hrun;
      [done|done..| |lia|lia].
    destruct Hdis as [?|Hnull]; [done|].
    pose proof (rep_capacity _ _ _ Hxs).
    destruct Hxs as [-> -> | b cap -> ? ? ?]; simpl in *; [lia|done].
  - destruct Hc as [(v & Hv & _)%exists_with_inv (vr & Hvr & _)%exists_with_inv].
    simpl in *. unfold operator_assign_move in Hrun.
    rewrite (Swap_spec this rhs v vr) in Hrun by done.
    by injection Hrun as <-.
  - destruct Hc as [(v & Hv & _)%exists_with_inv (vr & Hvr & _)%exists_with_inv].
    simpl in *.
    rewrite (Swap_spec this other v vr) in Hrun by done.
    by injection Hrun as <-.
  - apply exists_with_inv in Hc as (v & Hv & _). simpl in *.
    destruct (wf_rep _ _ _ Hwf Hv) as [xs Hxs]. simpl in *.
    destruct (Reserve_spec this v xs n h o d l)
      as (h' & v' & d' & HR & ? & ? & ? & ?); [done..|].
    rewrite HR in Hrun. injection Hrun as <-. by eapply Hdone.
  - apply exists_with_inv in Hc as (v & Hv & _). simpl in *.
    destruct (wf_rep _ _ _ Hwf Hv) as [xs Hxs]. simpl in *.
    destruct (Resize_spec this v xs n h o d l)
      as (h' & v' & d' & HR & ? & ? & ? & ?); [done..|].
    rewrite HR in Hrun. injection Hrun as <-. by eapply Hdone.
  - apply exists_with_inv in Hc as (v & Hv & _). simpl in *.
    destruct (wf_rep _ _ _ Hwf Hv) as [xs Hxs]. simpl in *.
    destruct (PushBack_spec this v xs x h o d l)
      as (h' & v' & d' & HR & ? & ? & ?); [done..|].
    rewrite HR in Hrun. injection Hrun as <-. by eapply Hdone.
  - apply exists_with_inv in Hc as (v & Hv & Hi). simpl in *.
    destruct (wf_rep _ _ _ Hwf Hv) as [xs Hxs]. simpl in *.
    rewrite (rep_size _ _ _ Hxs) in Hi.
    destruct (Emplace_spec this v xs i x h o d l)
      as (h' & v' & d' & HR & ? & ? & ?); [done..|].
    erewrite bind_Ok in Hrun by by apply begin__Ok.
    erewrite bind_Ok in Hrun by done.
    injection Hrun as <-. by eapply Hdone.
  - apply exists_with_inv in Hc as (v & Hv & Hi). simpl in *.
    destruct (wf_rep _ _ _ Hwf Hv) as [xs Hxs]. simpl in *.
    rewrite (rep_size _ _ _ Hxs) in Hi.
    destruct (Emplace_spec this v xs i x h o d l)
      as (h' & v' & d' & HR & ? & ? & ?); [done..|].
    erewrite bind_Ok in Hrun by by apply begin__Ok.
    unfold Insert in Hrun.
    erewrite bind_Ok in Hrun by done.
    injection Hrun as <-. by eapply Hdone.
  - apply exists_with_inv in Hc as (v & Hv & Hi). simpl in *.
    destruct (wf_rep _ _ _ Hwf Hv) as [xs Hxs]. simpl in *.
    rewrite (rep_size _ _ _ Hxs) in Hi.
    destruct (Erase_spec this v xs i h o None None d l)
      as (h' & v' & HR & ? & ? & ?); [done|done|done|by right|].
    erewrite bind_Ok in Hrun by by apply begin__Ok.
    erewrite bind_Ok in Hrun by done.
    injection Hrun as <-. by eapply Hdone.
  - apply exists_with_inv in Hc as (v & Hv & Hi). simpl in *.
    destruct (wf_rep _ _ _ Hwf Hv) as [xs Hxs]. simpl in *.
    rewrite (rep_size _ _ _ Hxs) in Hi.
    destruct (PopBack_spec this v xs h o None None d l)
      as (h' & v' & HR & ? & ? & ?); [done..|].
    rewrite HR in Hrun. injection Hrun as <-. by eapply Hdone.
Qed.

(** X20. No operation loses an object: whenever a constructor, an
    assignment, [Swap], [Reserve], [Resize], [PushBack], [Emplace],
    [Insert], [Erase] or [PopBack] called within its contract returns, no
    block holding a live object has been released and no live object has
    been overwritten by a construction; every object that is gone had its
    destructor run. *)
Theorem no_object_lost (c : op) (w w' : world) :
  wf w → contract c w → run c w = Ok () w' → leaked w' = leaked w.
Proof.
  intros Hwf Hc Hrun. apply stable in Hrun.
  by destruct (run_footprint c (heap w) (objs w) (dtors w) (leaked w)
                 (calm w') Hwf Hc Hrun) as [Hl _].
Qed.

(** X21. A call that works on one vector leaves every other vector alone:
    when [Reserve], [Resize], [PushBack], [Emplace], [Insert], [Erase],
    [PopBack] or a copy assignment to [this] returns, every other vector
    of the store, the source of the assignment included, is the same
    object holding the same elements. *)
Theorem other_vectors_untouched (c : op) (w w' : world) (this a : nat)
    (va : Vector) (ys : list T) :
  wf w → contract c w → mutated c = Some this → a ≠ this →
  objs w !! a = Some va → rep (heap w) va ys →
  run c w = Ok () w' →
  objs w' !! a = Some va ∧ rep (heap w') va ys.
Proof.
  intros Hwf Hc Hm Hne Ha Hrep Hrun. apply stable in Hrun.
  destruct (run_footprint c (heap w) (objs w) (dtors w) (leaked w)
              (calm w') Hwf Hc Hrun) as [_ Hfoot].
  assert (∃ v, objs w !! this = Some v) as [v Hv].
  { destruct c; try discriminate Hm; injection Hm as ->; simpl in Hc;
      try destruct Hc as [Hc _];
      apply exists_with_inv in Hc as (v & Hv & _); eauto. }
  destruct (Hfoot this v Hm Hv) as (v' & Ho' & [F1 _]). simpl in *.
  rewrite Ho'. split; [by rewrite lookup_insert_ne|].
  eapply rep_frame; [done|]. intros b Hb. apply F1.
  - by eapply rep_block_of.
  - intros Hvb. destruct Hwf as [_ Hdis]. destruct Hne.
    by eapply (Hdis a this va v b).
Qed.


(** ** Copy assignment outside the path that reads raw storage *)

(** X22. Copy assignment is correct on its other paths.  Assigning a
    vector to itself changes nothing.  When the source is longer than the
    target's capacity, the target ends with the source's elements in a new
    block whose capacity is the source's length, and all its former
    elements are destroyed; when the source is not longer than the target,
    the target keeps its buffer and capacity, ends with the source's
    elements, and its surplus elements are destroyed.  The source is
    unchanged and nothing is lost.  The call returns when no exception is
    scheduled. *)
Theorem copy_assign_outside_raw_path (w : world) (this rhs : nat)
    (v c : Vector) (xs ys : list T) :
  wf w → this ≠ rhs →
  objs w !! this = Some v → objs w !! rhs = Some c →
  rep (heap w) v xs → rep (heap w) c ys →
  capacity_ (data_ v) < length ys ∨ length ys ≤ length xs →
  operator_assign this this w = Ok () w ∧
  (no_faults w → ∃ w', operator_assign this rhs w = Ok () w') ∧
  (∀ w', operator_assign this rhs w = Ok () w' →
     ∃ v', objs w' !! this = Some v' ∧ objs w' !! rhs = Some c ∧
           rep (heap w') v' ys ∧ rep (heap w') c ys ∧
           (capacity_ (data_ v) < length ys →
            capacity_ (data_ v') = length ys ∧
            dtors w' = length xs + dtors w) ∧
           (length ys ≤ length xs →
            data_ v' = data_ v ∧
            dtors w' = length xs - length ys + dtors w) ∧
           leaked w' = leaked w).
Proof.
  intros Hwf Hne Hv Hc Hrv Hrc Hcase.
  split; [apply operator_assign_self|].
  pose proof (wf_disjoint_blocks _ this rhs v c Hwf Hne Hv Hc) as Hdis.
  pose proof (rep_capacity _ _ _ Hrv) as Hcap.
  assert (Hkeep : ∀ h' v', frame (heap w) v h' v' → rep h' c ys).
  { intros h' v' [F1 _]. eapply rep_frame; [done|]. intros b Hb.
    apply F1; [by eapply rep_block_of|].
    destruct Hdis as [?|Hnull]; congruence. }
  assert (HR : ∃ h' v' d',
    operator_assign this rhs (calm w)
    = Ok () (World h' (<[this := v']> (objs w)) None None d' (leaked w)) ∧
    rep h' v' ys ∧ frame (heap w) v h' v' ∧
    (capacity_ (data_ v) < length ys →
     capacity_ (data_ v') = length ys ∧ d' = length xs + dtors w) ∧
    (length ys ≤ length xs →
     data_ v' = data_ v ∧ d' = length xs - length ys + dtors w)).
  { destruct (decide (capacity_ (data_ v) < length ys)) as [Hbig|Hfit].
    - destruct (operator_assign_realloc this rhs v c xs ys (heap w) (objs w)
                  (dtors w) (leaked w))
        as (h' & v' & HR & ? & ? & ?); [done..|].
      exists h', v', (length xs + dtors w).
      do 3 (split; [done|]). split; [done|lia].
    - destruct (operator_assign_shrink this rhs v c xs ys (heap w) (objs w)
                  (dtors w) (leaked w))
        as (h' & v' & HR & ? & Hdata & ?); [done..|lia|].
      exists h', v', (length xs - length ys + dtors w).
      do 3 (split; [done|]). split; [lia|done]. }
  destruct HR as (h' & v' & d' & HR & Hrep' & Hfr & Hbig & Hsmall).
  split.
  - intros Hnf. rewrite <- (no_faults_calm w Hnf). eauto.
  - intros w' Hrun.
    destruct (returns_as_calm _ _ _ _ _ _ Hrun HR) as [_ Hw'].
    destruct w' as [h1 o1 f1 mf1 d1 l1]. injection Hw' as -> -> -> ->.
    exists v'. simpl. split; [apply lookup_insert_eq|].
    split; [by rewrite lookup_insert_ne|]. split; [done|].
    split; [by eapply Hkeep|]. done.
Qed.

(** X23. Copy assignment from a source longer than the target's capacity
    goes through a copy and a swap and so gives the strong exception
    guarantee: if it throws (the allocation fails or the copy constructor
    of an element throws), the target, the source, the heap and every
    other object are as before the call, and nothing is lost. *)
Theorem copy_assign_realloc_strong_guarantee (w w' : world) (this rhs : nat)
    (v c : Vector) (xs ys : list T) :
  this ≠ rhs →
  objs w !! this = Some v → objs w !! rhs = Some c →
  rep (heap w) v xs → rep (heap w) c ys →
  capacity_ (data_ v) < length ys →
  operator_assign this rhs w = Throw w' →
  unchanged w w' ∧ rep (heap w') v xs ∧ rep (heap w') c ys.
Proof.
  destruct w as [h o f mf d l]. simpl. intros Hne Hv Hc Hrv Hrc Hlt.
  unfold operator_assign.
  rewrite decide_True by done.
  erewrite bind_Ok by by apply get_size__Ok.
  erewrite bind_Ok by by apply Capacity_Ok.
  rewrite (rep_size _ _ _ Hrc), decide_True by done.
  unfold local_address. erewrite bind_Ok by reflexivity. simpl.
  pose proof (fresh_address_None o) as Hfresh.
  set (cc := fresh (dom o)) in *.
  assert (cc ≠ this) by congruence. assert (cc ≠ rhs) by congruence.
  pose proof (Vector_copy_exec cc rhs c ys h o f mf d l
                ltac:(done) Hc Hrc ltac:(lia)) as HC.
  unfold bind at 1. rewrite HC. clear HC.
  pose proof (fresh_block_None h) as Hb'.
  set (b' := fresh (dom h)) in *.
  destruct (decide (passes (1 + length ys) f)) as [P|P].
  - erewrite bind_Ok; last first.
    { apply Swap_spec; [by rewrite lookup_insert_ne|apply lookup_insert_eq]. }
    assert (Hrv1 : rep (<[b' := Some <$> ys]> h) v xs).
    { eapply rep_frame; [done|]. intros b Hb.
      rewrite lookup_insert_ne; [done|].
      intros <-. eapply rep_block_of in Hb as [? Hb]; [|done]. congruence. }
    by erewrite Vector_dtor_spec; [|apply lookup_insert_eq|done].
  - case_decide; intros [= <-]; unfold unchanged; simpl;
      rewrite ?delete_id by done; done.
Qed.

(** ** [RawMemory] *)


(** ** Positions that [Erase] does not accept *)

(** X25. [Erase] accepts no position from [end()] on: at [end()] its
    assertion fails, and past it the distance from the position after it to
    [end()] is not defined. *)
Theorem Erase_rejects_end_and_beyond (w : world) (this : nat) (v : Vector)
    (xs : list T) (i : nat) :
  objs w !! this = Some v → rep (heap w) v xs → length xs ≤ i →
  Erase this (buffer_ (data_ v) +ₚ i) w = Undefined.
Proof.
  destruct w as [h o f mf d l]. simpl. intros Ho Hrep Hi.
  unfold Erase. erewrite bind_Ok by by apply end__Ok.
  rewrite (rep_size _ _ _ Hrep). unfold GetAddress.
  destruct (decide (i = length xs)) as [->|Hne].
  { by rewrite bool_decide_eq_false_2 by (intros Hne; by destruct Hne). }
  rewrite bool_decide_eq_true_2; last first.
  { unfold ptr_add. intros [= ?]. lia. }
  erewrite bind_Ok by reflexivity.
  erewrite bind_Ok by by apply end__Ok.
  apply bind_Undefined, bind_Undefined.
  unfold ptr_diff, ptr_add. simpl.
  rewrite decide_False; [done|]. rewrite (rep_size _ _ _ Hrep). lia.
Qed.


(** ** [Erase] when a move assignment throws *)
Lemma tick_move_cases nothrow h o f mf d l :
  (∃ mf', tick_move nothrow (World h o f mf d l) = Ok () (World h o f mf' d l)) ∨
  tick_move nothrow (World h o f mf d l) = Throw (World h o f None d l).
Proof.
  unfold tick_move. destruct nothrow; [by eauto|]. simpl.
  destruct (burn mf); by eauto.
Qed.

(** Moving a range of live objects one slot towards the front leaves every
    slot of the range and the slot before it alive, whether [std::move]
    returns or throws on the way. *)
Lemma move_n_live b i n h o f mf d l pre zs post :
  h !! b = Some (pre ++ (Some <$> zs) ++ post) →
  length pre = i → length zs = S n →
  ∃ zs' mf',
    length zs' = S n ∧
    (move_n (Ptr (Some b) (i + 1)) n (Ptr (Some b) i) (World h o f mf d l)
     = Ok (Ptr (Some b) (i + n))
          (World (<[b := pre ++ (Some <$> zs') ++ post]> h) o f mf' d l) ∨
     move_n (Ptr (Some b) (i + 1)) n (Ptr (Some b) i) (World h o f mf d l)
     = Throw (World (<[b := pre ++ (Some <$> zs') ++ post]> h) o f mf' d l)).
Proof.
  revert i pre zs h mf. induction n as [|n IH]; intros i pre zs h mf Hb Hi Hn.
  - exists zs, mf. split; [done|]. left. simpl. unfold ret.
    by rewrite insert_id, Nat.add_0_r.
  - destruct zs as [|a [|x zs]]; simpl in Hn; try lia.
    csimpl in Hb. simpl. unfold move_assign_at, ptr_add. simpl.
    assert (Hrs : read (Ptr (Some b) (i + 1)) (World h o f mf d l)
                  = Ok x (World h o f mf d l)).
    { eapply read_block; [done|].
      apply (lookup_middle2 pre [Some a]). simpl. lia. }
    assert (Hrd : read (Ptr (Some b) i) (World h o f mf d l)
                  = Ok a (World h o f mf d l)).
    { eapply read_block; [done|]. by apply lookup_middle. }
    destruct (tick_move_cases is_nothrow_move_assignable h o f mf d l)
      as [[mf1 Ht]|Ht].
    + erewrite bind_Ok; last first.
      { erewrite bind_Ok by done. erewrite bind_Ok by done.
        erewrite bind_Ok by done.
        erewrite bind_Ok; last first.
        { eapply store_block; [done|]. rewrite length_app. simpl. lia. }
        eapply store_block; [by rewrite lookup_insert_eq|].
        rewrite length_insert, length_app. simpl. lia. }
      rewrite insert_insert_eq, insert_middle by done.
      rewrite insert_middle_next by lia.
      destruct (IH (i + 1) (pre ++ [Some x]) (moved_from x :: zs)
                  (<[b := pre ++ Some x :: Some (moved_from x)
                               :: (Some <$> zs) ++ post]> h) mf1)
        as (zs' & mf' & Hlen' & Hres).
      { by rewrite lookup_insert_eq, <- app_assoc. }
      { rewrite length_app. simpl. lia. }
      { simpl. lia. }
      exists (x :: zs'), mf'. split; [simpl; lia|].
      replace (i + 1 + n) with (i + S n) in Hres by lia.
      rewrite insert_insert_eq, <- app_assoc in Hres. simpl in Hres.
      destruct Hres as [-> | ->]; [by left|by right].
    + exists (a :: x :: zs), None. split; [done|]. right.
      apply bind_Throw. erewrite bind_Ok by done. erewrite bind_Ok by done.
      apply bind_Throw. rewrite Ht. by rewrite insert_id.
Qed.

Lemma Erase_throw this v xs i h o f mf d l w' :
  o !! this = Some v → rep h v xs → i < length xs →
  Erase this (buffer_ (data_ v) +ₚ i) (World h o f mf d l) = Throw w' →
  ∃ h' ys mf',
    w' = World h' o f mf' d l ∧ rep h' v ys ∧
    length ys = length xs ∧ take i ys = take i xs ∧
    frame h v h' v.
Proof.
  intros Ho Hrep Hi.
  destruct Hrep as [-> -> | b cap -> Hc0 Hle Hb]; simpl in *; [lia|].
  assert (Hti : length (take i xs) = i) by (rewrite length_take; lia).
  assert (Hdi : length (drop i xs) = S (length xs - i - 1))
    by (rewrite length_drop; lia).
  assert (Hcells : cells xs cap
    = (Some <$> take i xs) ++ (Some <$> drop i xs)
      ++ replicate (cap - length xs) None) by (apply cells_take_drop; lia).
  rewrite Hcells in Hb.
  destruct (move_n_live b i (length xs - i - 1) h o f mf d l
              (Some <$> take i xs) (drop i xs)
              (replicate (cap - length xs) None))
    as (zs' & mf' & Hlen' & Hres); [done|by rewrite length_fmap|done|].
  set (h' := <[b := (Some <$> take i xs) ++ (Some <$> zs')
                    ++ replicate (cap - length xs) None]> h) in *.
  assert (Hys : length (take i xs ++ zs') = length xs)
    by (rewrite length_app; lia).
  assert (Hcells' : (Some <$> take i xs) ++ (Some <$> zs')
                    ++ replicate (cap - length xs) None
                    = cells (take i xs ++ zs') cap).
  { unfold cells. by rewrite Hys, fmap_app, <- app_assoc. }
  unfold Erase.
  erewrite bind_Ok by by apply end__Ok.
  unfold ptr_add. simpl.
  rewrite bool_decide_eq_true_2 by (intros [=]; lia).
  erewrite bind_Ok by reflexivity.
  erewrite bind_Ok by by apply end__Ok.
  unfold ptr_add, move. simpl.
  rewrite bind_assoc.
  erewrite bind_Ok by (apply ptr_diff_block; lia).
  replace (length xs - (i + 1)) with (length xs - i - 1) by lia.
  destruct Hres as [HOk|HThrow].
  - erewrite bind_Ok by done.
    destruct (lookup_lt_is_Some_2 zs' (length xs - i - 1)) as [z Hz]; [lia|].
    erewrite bind_Ok; last first.
    { unfold Destroy. eapply destroy_at_block; [apply lookup_insert_eq|].
      rewrite lookup_app_r; rewrite length_fmap, Hti; [|lia].
      apply lookup_app_l_Some.
      replace (i + (length xs - i - 1) - i) with (length xs - i - 1) by lia.
      by rewrite list_lookup_fmap, Hz. }
    erewrite bind_Ok by by apply get_size__Ok.
    by erewrite bind_Ok by by apply set_size__Ok.
  - erewrite bind_Throw by done. intros [= <-].
    exists h', (take i xs ++ zs'), mf'. split; [done|].
    split.
    { rewrite <- Hys. eapply rep_block; [by rewrite Hys|done|lia|].
      unfold h'. by rewrite lookup_insert_eq, Hcells'. }
    split; [done|]. split; [by rewrite take_app_length'|].
    by apply frame_same_block.
Qed.

(** X26. [Erase] keeps the vector valid when it throws (a move assignment
    of the elements throws while the tail is shifted): the vector still
    has its buffer, its capacity and its length, every slot below the
    length still holds a live object, the elements before the erased
    position are as before, no destructor has run, nothing is lost and no
    other object or block is touched. *)
Theorem Erase_throw_keeps_vector_valid (w w' : world) (this : nat)
    (v : Vector) (xs : list T) (i : nat) :
  objs w !! this = Some v → rep (heap w) v xs → i < length xs →
  Erase this (buffer_ (data_ v) +ₚ i) w = Throw w' →
  ∃ ys, objs w' = objs w ∧
        rep (heap w') v ys ∧
        length ys = length xs ∧
        (∀ j, j < i → ys !! j = xs !! j) ∧
        frame (heap w) v (heap w') v ∧
        dtors w' = dtors w ∧ leaked w' = leaked w.
Proof.
  destruct w as [h o f mf d l]. simpl. intros Ho Hrep Hi Hrun.
  destruct (Erase_throw this v xs i h o f mf d l w' Ho Hrep Hi Hrun)
    as (h' & ys & mf' & -> & Hrep' & Hlen & Htake & Hfr).
  exists ys. simpl. do 3 (split; [done|]). split; [|done].
  intros j Hj.
  by rewrite <- (lookup_take_lt ys i j), <- (lookup_take_lt xs i j), Htake.
Qed.


(** ** Insertion in the middle when a move assignment throws *)
Lemma Emplace_in_middle_assign_throws this b cap ys mid xl x h o f mf d l :
  let xs := ys ++ mid ++ [xl] in
  let v := mkVector (mkRawMemory (Ptr (Some b) 0) cap) (length xs) in
  o !! this = Some v → h !! b = Some (cells xs cap) → length xs < cap →
  passes 1 f →
  is_nothrow_move_assignable = false →
  mf = Some (if is_nothrow_move_constructible then 0 else 1) →
  Emplace this (Ptr (Some b) (length ys)) x (World h o f mf d l)
  = Throw (World (<[b := cells (ys ++ mid ++ [moved_from xl; xl]) cap]> h)
                 o (spend 1 f) None (S d) l).
Proof.
  intros xs v Ho Hb Hlt Hp Hnma ->.
  assert (Hlen : length xs = length ys + length mid + 1).
  { unfold xs. rewrite !length_app. simpl. lia. }
  set (raw := replicate (cap - length xs - 1) (@None T)).
  assert (Hcells : cells xs cap
    = (Some <$> ys) ++ (Some <$> mid) ++ Some xl :: None :: raw).
  { unfold cells, xs, raw. rewrite !fmap_app, <- !app_assoc. simpl.
    do 3 f_equal. fold xs. apply raw_cons. lia. }
  assert (Hcells' : cells (ys ++ mid ++ [moved_from xl; xl]) cap
    = (Some <$> ys) ++ (Some <$> mid) ++ Some (moved_from xl) :: Some xl :: raw).
  { unfold cells, raw. rewrite !fmap_app, <- !app_assoc. simpl.
    do 4 f_equal. rewrite !length_app. simpl. f_equal. lia. }
  rewrite Hcells in Hb. rewrite Hcells'.
  set (mf0 := Some (if is_nothrow_move_constructible then 0 else 1)).
  assert (Htm : ∀ h1 f1 d1,
            tick_move is_nothrow_move_constructible (World h1 o f1 mf0 d1 l)
            = Ok () (World h1 o f1 (Some 0) d1 l)).
  { intros. unfold tick_move, mf0.
    by destruct is_nothrow_move_constructible. }
  assert (Hta : ∀ h1 f1 d1,
            tick_move is_nothrow_move_assignable (World h1 o f1 (Some 0) d1 l)
            = Throw (World h1 o f1 None d1 l)).
  { intros. unfold tick_move. by rewrite Hnma. }
  unfold Emplace.
  erewrite bind_Ok by by apply begin__Ok.
  erewrite bind_Ok by (apply ptr_diff_block; lia).
  erewrite bind_Ok by by apply get_size__Ok.
  erewrite bind_Ok by by apply Capacity_Ok.
  simpl. rewrite decide_False by lia. rewrite Nat.sub_0_r.
  apply bind_Throw.
  erewrite bind_Ok by by apply end__Ok.
  unfold ptr_add. simpl. rewrite decide_False by (intros [=]; lia).
  erewrite bind_Ok by by apply tick_Ok.
  apply bind_Throw.
  set (h1 := <[b := (Some <$> ys) ++ (Some <$> mid)
                    ++ Some (moved_from xl) :: Some xl :: raw]> h).
  eapply (unwind_Throw _ _ _ (World h1 o (spend 1 f) None d l));
    [|reflexivity].
  erewrite bind_Ok by by apply end__Ok.
  unfold ptr_add. simpl.
  erewrite bind_Ok by (apply ptr_sub_block; lia).
  rewrite Hlen.
  replace (length ys + length mid + 1 - 1)
    with (length ys + length mid) by lia.
  erewrite bind_Ok; last first.
  { unfold move_construct_at.
    erewrite bind_Ok; last first.
    { eapply read_block; [done|].
      apply lookup_middle2. by rewrite !length_fmap. }
    erewrite bind_Ok by apply Htm.
    erewrite bind_Ok; last first.
    { eapply place_block; [done|].
      apply lookup_middle2_next. by rewrite !length_fmap. }
    eapply store_block; [by rewrite lookup_insert_eq|].
    rewrite length_insert, !length_app, !length_fmap. simpl. lia. }
  rewrite insert_insert_eq.
  rewrite insert_middle2_next by by rewrite !length_fmap.
  rewrite insert_middle2 by by rewrite !length_fmap.
  fold h1.
  assert (Hb1 : h1 !! b = Some ((Some <$> ys) ++ (Some <$> mid)
                    ++ Some (moved_from xl) :: Some xl :: raw))
    by apply lookup_insert_eq.
  unfold move_backward.
  rewrite bind_assoc.
  erewrite bind_Ok by (apply ptr_diff_block; lia).
  replace (length ys + length mid - length ys) with (length mid) by lia.
  destruct mid as [|z mid _] using rev_ind.
  - simpl in *. erewrite bind_Ok by reflexivity.
    erewrite bind_Ok by by apply get_data__Ok.
    erewrite bind_Ok; last first.
    { unfold RawMemory_index. simpl.
      rewrite bool_decide_eq_true_2 by lia. reflexivity. }
    unfold ptr_add, move_assign_local. simpl.
    erewrite bind_Ok; last first.
    { eapply read_block; [done|].
      apply lookup_middle. rewrite length_fmap. lia. }
    apply bind_Throw. apply Hta.
  - rewrite length_app, Nat.add_1_r. simpl.
    rewrite fmap_app, <- app_assoc in Hb1. simpl in Hb1.
    apply bind_Throw.
    erewrite bind_Ok by (apply ptr_sub_block; lia).
    erewrite bind_Ok by (apply ptr_sub_block; lia).
    replace (length ys + S (length mid) - 1)
      with (length ys + length mid) by lia.
    replace (length ys + S (length mid) + 1 - 1)
      with (length ys + length mid + 1) by lia.
    unfold move_assign_at.
    apply bind_Throw.
    erewrite bind_Ok; last first.
    { eapply read_block; [done|].
      apply lookup_middle2. by rewrite !length_fmap. }
    erewrite bind_Ok; last first.
    { eapply read_block; [done|].
      apply lookup_middle2_next. by rewrite !length_fmap. }
    apply bind_Throw. apply Hta.
Qed.

(** X27. [Emplace] in the middle of a vector with spare capacity does not
    restore the vector when a move assignment throws while the tail is
    shifted: the last element has already been move-constructed into the
    slot past the end and the length is not updated, so the call throws
    leaving a live object at index [size] of the buffer, outside the
    elements that the vector owns, and the class invariant no longer
    holds. *)
Theorem Emplace_failed_shift_orphans_last (w : world) (this : nat)
    (v : Vector) (xs : list T) (i : nat) (x : T) :
  objs w !! this = Some v → rep (heap w) v xs →
  size_ v < capacity_ (data_ v) → i < length xs →
  passes 1 (fuse w) →
  is_nothrow_move_assignable = false →
  move_fuse w = Some (if is_nothrow_move_constructible then 0 else 1) →
  ∃ w' b xl cs,
    Emplace this (buffer_ (data_ v) +ₚ i) x w = Throw w' ∧
    objs w' = objs w ∧
    buffer_ (data_ v) = Ptr (Some b) 0 ∧ heap w' !! b = Some cs ∧
    xs !! (size_ v - 1) = Some xl ∧ cs !! size_ v = Some (Some xl) ∧
    ¬ vector_inv (heap w') v ∧ ¬ wf w'.
Proof.
  destruct w as [h o f mf d l]. simpl.
  intros Ho Hrep Hspare Hi Hp Hnma Hmf.
  destruct Hrep as [-> -> | b cap -> Hc0 Hle Hb]; simpl in *; [lia|].
  destruct (split_last_of_drop xs i) as (mid & xl & Hdrop); [lia|].
  assert (Hxs : xs = take i xs ++ mid ++ [xl])
    by by rewrite <- Hdrop, take_drop.
  assert (Hti : length (take i xs) = i) by (rewrite length_take; lia).
  pose proof (Emplace_in_middle_assign_throws this b cap (take i xs) mid xl x
                h o f mf d l) as HE.
  simpl in HE. rewrite <- Hxs, Hti in HE.
  unfold ptr_add. simpl. rewrite HE by (done || lia). clear HE.
  set (cs := cells (take i xs ++ mid ++ [moved_from xl; xl]) cap).
  assert (Hlen : length xs = i + length mid + 1).
  { apply (f_equal length) in Hxs. rewrite !length_app, Hti in Hxs.
    simpl in Hxs. lia. }
  assert (Hcs : cs !! length xs = Some (Some xl)).
  { unfold cs. apply cells_lookup_live.
    rewrite app_assoc. rewrite (cons_middle (moved_from xl)), app_assoc.
    apply lookup_middle.
    rewrite !length_app, Hti. simpl. lia. }
  assert (Hinv : ¬ vector_inv (<[b := cs]> h)
                   (mkVector (mkRawMemory (Ptr (Some b) 0) cap) (length xs))).
  { unfold vector_inv. simpl. rewrite lookup_insert_eq.
    intros (_ & _ & _ & cs' & [= <-] & _ & Hlive).
    destruct (Hlive (length xs) (Some xl) Hcs) as [Hex _].
    specialize (Hex ltac:(by eexists)). lia. }
  eexists _, b, xl, cs. split; [reflexivity|]. simpl.
  split; [done|]. split; [done|]. split; [apply lookup_insert_eq|].
  split.
  { rewrite Hlen, Hxs. apply lookup_middle2. lia. }
  split; [done|]. split; [done|].
  intros [Hall _]. simpl in Hall. by apply Hinv, (Hall this).
Qed.


(** ** The steps of a relocation that can fail *)


(** Two vectors in blocks of their own make a well-formed world. *)
Lemma wf_two w a1 a2 v1 v2 xs1 xs2 :
  objs w = <[a2 := v2]> {[a1 := v1]} → a1 ≠ a2 →
  rep (heap w) v1 xs1 → rep (heap w) v2 xs2 →
  block_of v1 ≠ block_of v2 → wf w.
Proof.
  intros Ho Hne Hr1 Hr2 Hb. split; rewrite Ho.
  - intros a v Ha. apply vector_inv_rep.
    apply lookup_insert_Some in Ha as [[<- <-]|[_ Ha]]; [by eauto|].
    apply lookup_singleton_Some in Ha as [<- <-]. by eauto.
  - intros b1 b2 u1 u2 b H1 H2 Hu1 Hu2.
    apply lookup_insert_Some in H1 as [[<- <-]|[? H1]];
      apply lookup_insert_Some in H2 as [[<- <-]|[? H2]]; try done.
    + apply lookup_singleton_Some in H2 as [<- <-]. congruence.
    + apply lookup_singleton_Some in H1 as [<- <-]. congruence.
    + apply lookup_singleton_Some in H1 as [<- <-].
      by apply lookup_singleton_Some in H2 as [<- <-].
Qed.

(** ** Moving a [RawMemory] *)



(** ** Copy assignment into the target's own storage, when a copy throws *)

(** [std::copy_n] between two blocks when the [k]-th assignment throws:
    the first [k] objects of the destination hold the source's values, the
    others are as they were. *)
Lemma copy_n_throw bs bd si di k h o mf d l spre xs spost dpre zs dpost :
  bs ≠ bd →
  h !! bs = Some (spre ++ (Some <$> xs) ++ spost) →
  h !! bd = Some (dpre ++ (Some <$> zs) ++ dpost) →
  length spre = si → length dpre = di → length zs = length xs →
  k < length xs →
  copy_n (Ptr (Some bs) si) (length xs) (Ptr (Some bd) di)
    (World h o (Some k) mf d l)
  = Throw (World (<[bd := dpre ++ (Some <$> take k xs ++ drop k zs) ++ dpost]> h)
                 o None mf d l).
Proof.
  intros Hne. revert k zs si di spre dpre h.
  induction xs as [|x xs IH]; intros k zs si di spre dpre h Hs Hd Hsi Hdi Hlen Hk;
    simpl in Hk; [lia|].
  destruct zs as [|z zs]; [done|]. csimpl in *.
  unfold copy_assign_at.
  assert (Hrs : ∀ f, read (Ptr (Some bs) si) (World h o f mf d l)
                     = Ok x (World h o f mf d l)).
  { intros. eapply read_block; [done|]. by apply lookup_middle. }
  assert (Hrd : ∀ f, read (Ptr (Some bd) di) (World h o f mf d l)
                     = Ok z (World h o f mf d l)).
  { intros. eapply read_block; [done|]. by apply lookup_middle. }
  destruct k as [|k].
  - apply bind_Throw. erewrite bind_Ok by done. erewrite bind_Ok by done.
    apply bind_Throw. simpl. by rewrite insert_id.
  - erewrite bind_Ok; last first.
    { erewrite bind_Ok by done. erewrite bind_Ok by done.
      erewrite bind_Ok by reflexivity.
      eapply store_block; [done|]. rewrite length_app. simpl. lia. }
    simpl. rewrite insert_middle by done. unfold ptr_add. simpl.
    rewrite (IH k zs (si + 1) (di + 1) (spre ++ [Some x]) (dpre ++ [Some x]));
      cycle 1.
    { by rewrite lookup_insert_ne, <- app_assoc. }
    { by rewrite lookup_insert_eq, <- app_assoc. }
    { rewrite length_app. simpl. lia. }
    { rewrite length_app. simpl. lia. }
    { lia. }
    { lia. }
    by rewrite insert_insert_eq, <- !app_assoc.
Qed.

Lemma drop_take_rest {A} (xs : list A) k n :
  k ≤ n → n ≤ length xs → drop k (take n xs) ++ drop n xs = drop k xs.
Proof.
  intros Hk Hn. rewrite <- (take_drop n xs) at 3.
  rewrite drop_app_le; [done|]. rewrite length_take. lia.
Qed.

Lemma operator_assign_in_place_throw this rhs v c xs ys h o f mf d l w' :
  this ≠ rhs → o !! this = Some v → o !! rhs = Some c →
  rep h v xs → rep h c ys → block_of c ≠ block_of v ∨ block_of v = None →
  length ys ≤ length xs →
  operator_assign this rhs (World h o f mf d l) = Throw w' →
  ∃ h' k,
    w' = World h' o None mf d l ∧ k < length ys ∧
    rep h' v (take k ys ++ drop k xs) ∧ frame h v h' v.
Proof.
  intros Hne Hv Hc Hrv Hrc Hdisj Hle. unfold operator_assign.
  rewrite decide_True by done.
  erewrite bind_Ok by by apply get_size__Ok.
  erewrite bind_Ok by by apply Capacity_Ok.
  pose proof (rep_capacity _ _ _ Hrv).
  rewrite (rep_size _ _ _ Hrc), decide_False by lia.
  erewrite bind_Ok by by apply get_size__Ok.
  rewrite (rep_size _ _ _ Hrv).
  (* what [copy_n] of the first [length ys] elements does *)
  assert (Hcopy :
    (∃ w1, copy_n (buffer_ (data_ c)) (length ys) (buffer_ (data_ v))
             (World h o f mf d l) = Ok () w1 ∧
           w1 = World (match block_of v with
                       | Some b => <[b := cells (ys ++ drop (length ys) xs)
                                              (capacity_ (data_ v))]> h
                       | None => h
                       end) o (spend (length ys) f) mf d l) ∨
    (∃ h' k, copy_n (buffer_ (data_ c)) (length ys) (buffer_ (data_ v))
               (World h o f mf d l) = Throw (World h' o None mf d l) ∧
             k < length ys ∧
             rep h' v (take k ys ++ drop k xs) ∧ frame h v h' v)).
  { destruct Hrv as [-> -> | b cap -> Hc0 Hcap Hb]; simpl in *.
    { destruct ys; [|simpl in *; lia]. left. eexists. split; [done|].
      by rewrite spend_0. }
    destruct Hrc as [-> -> | bc capc -> Hcc0 Hccap Hbc]; simpl in *.
    { left. eexists. split; [done|]. rewrite spend_0. simpl.
      by rewrite drop_0, insert_id. }
    assert (bc ≠ b) as Hbb.
    { destruct Hdisj as [Hd|Hd]; unfold block_of in *; simpl in *; congruence. }
    assert (Hxs : h !! b = Some ([] ++ (Some <$> take (length ys) xs)
                    ++ (Some <$> drop (length ys) xs)
                    ++ replicate (cap - length xs) None)).
    { rewrite Hb. f_equal. apply cells_take_drop; lia. }
    assert (Hys : h !! bc = Some ([] ++ (Some <$> ys)
                    ++ replicate (capc - length ys) None)) by done.
    assert (Hlt : length (take (length ys) xs) = length ys)
      by (rewrite length_take; lia).
    destruct (decide (passes (length ys) f)) as [P|P].
    - left. eexists. split; [|reflexivity].
      rewrite (copy_n_blocks bc b 0 0 (length ys) h o f mf d l
                 [] ys _ [] (take (length ys) xs) _) by done.
      simpl. do 3 f_equal. unfold cells.
      rewrite fmap_app, <- app_assoc, length_app, length_drop.
      do 3 f_equal. lia.
    - right. destruct f as [k|]; [|by destruct P]. simpl in P.
      assert (Hk : k < length ys) by lia.
      exists (<[b := cells (take k ys ++ drop k xs) cap]> h), k.
      assert (Hlen : length (take k ys ++ drop k xs) = length xs).
      { rewrite length_app, length_take, length_drop. lia. }
      split; [|split; [done|split]].
      + rewrite (copy_n_throw bc b 0 0 k h o mf d l
                   [] ys _ [] (take (length ys) xs) _) by done.
        simpl. do 3 f_equal. unfold cells.
        rewrite Hlen, <- (drop_take_rest xs k (length ys)) by lia.
        by rewrite !fmap_app, <- !app_assoc.
      + apply rep_block_at; [by rewrite lookup_insert_eq|done|done|lia].
      + by apply frame_same_block. }
  destruct (decide (length ys < length xs)) as [Hshort|Hsame].
  - rewrite !bind_assoc. erewrite bind_Ok by by apply begin__Ok.
    rewrite !bind_assoc. erewrite bind_Ok by by apply end__Ok.
    rewrite !bind_assoc. erewrite bind_Ok by by apply begin__Ok.
    rewrite (rep_size _ _ _ Hrc). unfold GetAddress, copy.
    rewrite !bind_assoc. erewrite bind_Ok by apply ptr_diff_offset.
    destruct Hcopy as [(w1 & HC & ->)|(h' & k & HC & Hk & Hrep' & Hfr)].
    + erewrite bind_Ok by done.
      destruct Hrv as [-> -> | b cap -> Hc0 Hcap Hb]; simpl in *; [lia|].
      erewrite bind_Ok; last first.
      { unfold ptr_add. simpl.
        apply (destroy_n_block b (length ys) (length xs - length ys) _ o
                 _ mf d l (Some <$> ys) (drop (length ys) xs)
                 (replicate (cap - length xs) None)).
        - rewrite lookup_insert_eq. f_equal. unfold cells.
          rewrite fmap_app, <- app_assoc, length_app, length_drop.
          do 3 f_equal. lia.
        - by rewrite length_fmap.
        - by rewrite length_drop. }
      by erewrite set_size__Ok by done.
    + erewrite bind_Throw by done. intros [= <-]. by exists h', k.
  - assert (length ys = length xs) as Heq by lia.
    rewrite !bind_assoc. erewrite bind_Ok by by apply begin__Ok.
    rewrite !bind_assoc. erewrite bind_Ok by by apply begin__Ok.
    unfold GetAddress. rewrite <- Heq, !bind_assoc.
    destruct Hcopy as [(w1 & HC & ->)|(h' & k & HC & Hk & Hrep' & Hfr)].
    + erewrite bind_Ok by done.
      rewrite Nat.sub_diag. erewrite bind_Ok by reflexivity.
      by erewrite set_size__Ok by done.
    + erewrite bind_Throw by done. intros [= <-]. by exists h', k.
Qed.


End Further.

(** * The claims on concrete vectors *)

Lemma three_object : objs three !! 0 = Some three_vector.
Proof. vm_compute. reflexivity. Defined.

Lemma three_rep : rep (heap three) three_vector [1; 2; 3].
Proof. apply rep_block_at; [vm_compute; reflexivity|lia|reflexivity|lia]. Defined.

Lemma three_no_faults : no_faults three.
Proof. split; vm_compute; reflexivity. Defined.

Lemma three_wf : wf three.
Proof.
  apply (wf_single three 0 three_vector [1; 2; 3]);
    [vm_compute; reflexivity|exact three_rep].
Defined.

Lemma target_rep : rep (heap target_and_source) target_vector [5].
Proof. apply rep_block_at; [vm_compute; reflexivity|lia|reflexivity|lia]. Defined.

Lemma source_rep : rep (heap target_and_source) source_vector [7; 8; 9].
Proof. apply rep_block_at; [vm_compute; reflexivity|lia|reflexivity|lia]. Defined.

(** C1, on a failing input. The target holds the element 5 in a block of
    capacity 4 and the source holds 7, 8, 9: the source is longer than the
    target and fits its capacity.  The assignment target = source then
    copy-constructs the slots 1 and 2 of the target from those same raw
    slots instead of from the source's elements 8 and 9: the call reads raw
    storage and is undefined, where the claim has the target equal to the
    source. *)
Theorem operator_assign_reads_raw_storage :
  objs target_and_source !! 0 = Some target_vector ∧
  objs target_and_source !! 1 = Some source_vector ∧
  rep (heap target_and_source) target_vector [5] ∧
  rep (heap target_and_source) source_vector [7; 8; 9] ∧
  operator_assign 0 1 target_and_source = Undefined.
Proof.
  split; [vm_compute; reflexivity|].
  split; [vm_compute; reflexivity|].
  split; [exact target_rep|].
  split; [exact source_rep|].
  vm_compute. reflexivity.
Qed.

(** C2 as stated fails for move-assignment: the source is not left empty,
    it receives the receiver's pre-move content.  Here the receiver holds
    one element and the source three; after the move-assignment the source
    has length 1. *)
Lemma move_assignment_leaves_source_nonempty :
  ¬ (∀ (w : world nat) (this source : nat) (a c : Vector) (xs ys : list nat),
       this ≠ source →
       objs w !! this = Some a → objs w !! source = Some c →
       rep (heap w) a xs → rep (heap w) c ys →
       ∃ w' e, operator_assign_move this source w = Ok () w' ∧
               objs w' !! this = Some c ∧
               objs w' !! source = Some e ∧ size_ e = 0).
Proof.
  intros Hclaim.
  destruct (Hclaim target_and_source 0 1 target_vector source_vector
              [5] [7; 8; 9])
    as (w' & e & Hrun & _ & He & Hsize);
    [done|vm_compute; reflexivity|vm_compute; reflexivity
    |exact target_rep|exact source_rep|].
  vm_compute in Hrun. injection Hrun as <-.
  vm_compute in He. injection He as <-.
  discriminate Hsize.
Qed.

Lemma move_transfers_or_exchanges_witness :
  2 ≠ 1 ∧
  objs target_and_source !! 1 = Some source_vector ∧
  (∃ w', Vector_move 2 1 target_and_source = Ok () w' ∧
         objs w' !! 2 = Some source_vector ∧
         objs w' !! 1 = Some empty_vector ∧
         heap w' = heap target_and_source ∧
         dtors w' = dtors target_and_source) ∧
  (∃ w', operator_assign_move 0 1 target_and_source = Ok () w' ∧
         objs w' !! 0 = Some source_vector ∧
         (0 ≠ 1 → objs w' !! 1 = Some target_vector) ∧
         heap w' = heap target_and_source ∧
         dtors w' = dtors target_and_source).
Proof.
  assert (H1 : 2 ≠ 1) by lia.
  assert (H2 : objs target_and_source !! 1 = Some source_vector)
    by (vm_compute; reflexivity).
  destruct (move_transfers_or_exchanges target_and_source 2 0 1
              source_vector H1 H2) as [Hctor Hassign].
  split; [exact H1|]. split; [exact H2|]. split; [exact Hctor|].
  apply Hassign. vm_compute. reflexivity.
Defined.


Lemma growth_policy_witness :
  no_faults world0 ∧
  ∃ w' v',
    (Vector_default 0;; PushBack_all (ET := int_Element) 0 [1; 2; 3; 4; 5])
      world0 = Ok () w' ∧
    objs w' !! 0 = Some v' ∧
    rep (heap w') v' [1; 2; 3; 4; 5] ∧
    size_ v' = 5 ∧ capacity_ (data_ v') = 8.
Proof.
  assert (H : no_faults world0) by (split; reflexivity).
  split; [exact H|].
  destruct (growth_policy (ET := int_Element) world0 0) as [_ Hall].
  destruct (Hall [1; 2; 3; 4; 5]) as [Hret Hprop].
  destruct (Hret H) as [w' Hrun].
  destruct (Hprop w' Hrun) as (v' & Hv & Hrep & Hs & Hc & _).
  exists w', v'. split; [exact Hrun|]. split; [exact Hv|].
  split; [exact Hrep|]. split; [exact Hs|exact Hc].
Defined.

Lemma Emplace_correct_witness :
  objs three !! 0 = Some three_vector ∧
  rep (heap three) three_vector [1; 2; 3] ∧
  1 ≤ length [1; 2; 3] ∧
  no_faults three ∧
  ∃ w' v' ys,
    Emplace (ET := int_Element) 0 (buffer_ (data_ three_vector) +ₚ 1) 9 three
    = Ok (buffer_ (data_ v') +ₚ 1) w' ∧
    Insert (ET := int_Element) 0 (buffer_ (data_ three_vector) +ₚ 1) 9 three
    = Ok (buffer_ (data_ v') +ₚ 1) w' ∧
    objs w' !! 0 = Some v' ∧
    rep (heap w') v' ys ∧
    ys !! 1 = Some 9 ∧
    (∀ j, j < 1 → ys !! j = [1; 2; 3] !! j) ∧
    (∀ j, 1 ≤ j → ys !! (j + 1) = [1; 2; 3] !! j) ∧
    size_ v' = size_ three_vector + 1.
Proof.
  assert (H : 1 ≤ length [1; 2; 3]) by (simpl; lia).
  split; [exact three_object|]. split; [exact three_rep|].
  split; [exact H|]. split; [exact three_no_faults|].
  destruct (Emplace_correct (ET := int_Element) three 0 three_vector [1; 2; 3]
              1 9 three_object three_rep H) as (Hins & Hret & Hprop).
  destruct (Hret three_no_faults) as (p & w' & Hrun).
  destruct (Hprop p w' Hrun) as (v' & ys & Hp & Hrest).
  exists w', v', ys.
  split; [rewrite <- Hp; exact Hrun|].
  split; [rewrite <- Hp; exact (eq_trans Hins Hrun)|].
  exact Hrest.
Defined.

Lemma Erase_correct_witness :
  objs three !! 0 = Some three_vector ∧
  rep (heap three) three_vector [1; 2; 3] ∧
  0 < length [1; 2; 3] ∧
  move_ok (is_nothrow_move_assignable (Element := int_Element))
          (move_fuse three) ∧
  ∃ w' v' ys,
    Erase (ET := int_Element) 0 (buffer_ (data_ three_vector) +ₚ 0) three
    = Ok (buffer_ (data_ v') +ₚ 0) w' ∧
    objs w' !! 0 = Some v' ∧
    rep (heap w') v' ys ∧
    (∀ j, j < 0 → ys !! j = [1; 2; 3] !! j) ∧
    (∀ j, 0 ≤ j → ys !! j = [1; 2; 3] !! (j + 1)) ∧
    size_ v' = size_ three_vector - 1 ∧
    capacity_ (data_ v') = capacity_ (data_ three_vector).
Proof.
  assert (H : 0 < length [1; 2; 3]) by (simpl; lia).
  assert (Hmv : move_ok (is_nothrow_move_assignable (Element := int_Element))
                        (move_fuse three)) by (left; reflexivity).
  split; [exact three_object|]. split; [exact three_rep|].
  split; [exact H|]. split; [exact Hmv|].
  destruct (Erase_correct (ET := int_Element) three 0 three_vector [1; 2; 3] 0
              three_object three_rep H) as [Hret Hprop].
  destruct (Hret Hmv) as (p & w' & Hrun).
  destruct (Hprop p w' Hrun) as (v' & ys & Hp & Hrest).
  exists w', v', ys. split; [rewrite <- Hp; exact Hrun|exact Hrest].
Defined.




Lemma capacity_never_decreases_witness :
  wf three ∧
  contract (call_Resize 0 1) three ∧
  mutated (call_Resize (T := nat) 0 1) = Some 0 ∧
  objs three !! 0 = Some three_vector ∧
  ∃ w', run (ET := int_Element) (call_Resize 0 1) three = Ok () w' ∧
        ∃ v', objs w' !! 0 = Some v' ∧
              capacity_ (data_ three_vector) ≤ capacity_ (data_ v').
Proof.
  assert (Hc : contract (call_Resize (T := nat) 0 1) three)
    by (vm_compute; exact I).
  assert (Hm : mutated (call_Resize (T := nat) 0 1) = Some 0) by reflexivity.
  split; [exact three_wf|].
  split; [exact Hc|]. split; [exact Hm|]. split; [exact three_object|].
  eexists. split; [vm_compute; reflexivity|].
  apply (capacity_never_decreases (ET := int_Element)
           (call_Resize 0 1) three _ 0 three_vector
           three_wf Hc Hm three_object).
  vm_compute. reflexivity.
Defined.

(** * The further properties on concrete vectors *)
Section IntWitnesses.
#[local] Existing Instance int_Element.

Lemma empty_and_three_object : objs empty_and_three !! 1 = Some empty_vector.
Proof. vm_compute. reflexivity. Defined.

Lemma armed_three_object k : objs (armed k three) !! 0 = Some three_vector.
Proof. vm_compute. reflexivity. Qed.

Lemma armed_three_rep k : rep (heap (armed k three)) three_vector [1; 2; 3].
Proof. apply rep_block_at; [vm_compute; reflexivity|lia|reflexivity|lia]. Qed.

Lemma armed_three_wf k : wf (armed k three).
Proof.
  apply (wf_single (armed k three) 0 three_vector [1; 2; 3]);
    [vm_compute; reflexivity|apply armed_three_rep].
Qed.

Lemma target_and_source_wf : wf target_and_source.
Proof.
  apply (wf_two target_and_source 0 1 target_vector source_vector [5] [7; 8; 9]);
    [vm_compute; reflexivity|lia|exact target_rep|exact source_rep|].
  vm_compute. congruence.
Defined.



Lemma Vector_sized_throw_releases_witness :
  objs (armed 3 world0) !! 0 = None ∧
  ∃ w', Vector_sized 0 5 (armed 3 world0) = Throw w' ∧
        unchanged (armed 3 world0) w' ∧ objs w' !! 0 = None ∧
        ∃ k, fuse (armed 3 world0) = Some k ∧ k ≤ 5 ∧
             dtors w' = k - 1 + dtors (armed 3 world0).
Proof.
  assert (H : objs (armed 3 world0) !! 0 = None) by (vm_compute; reflexivity).
  split; [exact H|]. eexists. split; [vm_compute; reflexivity|].
  apply (Vector_sized_throw_releases
           (armed 3 world0) _ 0 5 H).
  vm_compute. reflexivity.
Defined.

Lemma Vector_copy_deep_witness :
  1 ≠ 0 ∧ objs three !! 0 = Some three_vector ∧
  rep (heap three) three_vector [1; 2; 3] ∧ no_faults three ∧
  ∃ w' v', Vector_copy 1 0 three = Ok () w' ∧
           objs w' !! 1 = Some v' ∧
           rep (heap w') v' [1; 2; 3] ∧
           capacity_ (data_ v') = 3 ∧
           objs w' !! 0 = Some three_vector ∧
           rep (heap w') three_vector [1; 2; 3] ∧
           block_of v' ≠ block_of three_vector.
Proof.
  assert (Hne : 1 ≠ 0) by lia.
  split; [exact Hne|]. split; [exact three_object|].
  split; [exact three_rep|]. split; [exact three_no_faults|].
  destruct (Vector_copy_deep three 1 0 three_vector
              [1; 2; 3] Hne three_object three_rep) as [Hret Hprop].
  destruct (Hret three_no_faults) as [w' Hrun].
  destruct (Hprop w' Hrun) as (v' & H1 & H2 & H3 & H4 & H5 & H6 & _).
  exists w', v'. split; [exact Hrun|]. split; [exact H1|]. split; [exact H2|].
  split; [exact H3|]. split; [exact H4|]. split; [exact H5|].
  apply H6. discriminate.
Defined.

Lemma Vector_copy_throw_releases_witness :
  1 ≠ 0 ∧ objs (armed 2 three) !! 1 = None ∧
  objs (armed 2 three) !! 0 = Some three_vector ∧
  rep (heap (armed 2 three)) three_vector [1; 2; 3] ∧
  ∃ w', Vector_copy 1 0 (armed 2 three) = Throw w' ∧
        unchanged (armed 2 three) w' ∧ objs w' !! 1 = None ∧
        rep (heap w') three_vector [1; 2; 3].
Proof.
  assert (Hne : 1 ≠ 0) by lia.
  assert (H1 : objs (armed 2 three) !! 1 = None) by (vm_compute; reflexivity).
  split; [exact Hne|]. split; [exact H1|].
  split; [exact (armed_three_object 2)|].
  split; [exact (armed_three_rep 2)|].
  eexists. split; [vm_compute; reflexivity|].
  apply (Vector_copy_throw_releases (armed 2 three) _ 1 0
           three_vector [1; 2; 3] Hne H1 (armed_three_object 2)
           (armed_three_rep 2)).
  vm_compute. reflexivity.
Defined.


Lemma Emplace_in_place_strong_guarantee_witness :
  objs (armed 0 three) !! 0 = Some three_vector ∧
  rep (heap (armed 0 three)) three_vector [1; 2; 3] ∧
  size_ three_vector < capacity_ (data_ three_vector) ∧
  1 ≤ length [1; 2; 3] ∧
  move_ok is_nothrow_move_constructible
          (move_fuse (armed 0 three)) ∧
  move_ok is_nothrow_move_assignable
          (move_fuse (armed 0 three)) ∧
  ∃ w', Emplace 0 (buffer_ (data_ three_vector) +ₚ 1) 9
          (armed 0 three) = Throw w' ∧
        Insert 0 (buffer_ (data_ three_vector) +ₚ 1) 9
          (armed 0 three) = Throw w' ∧
        unchanged (armed 0 three) w' ∧
        objs w' !! 0 = Some three_vector ∧
        rep (heap w') three_vector [1; 2; 3].
Proof.
  assert (Hs : size_ three_vector < capacity_ (data_ three_vector))
    by (simpl; lia).
  assert (Hi : 1 ≤ length [1; 2; 3]) by (simpl; lia).
  assert (Hmc : move_ok is_nothrow_move_constructible
                        (move_fuse (armed 0 three))) by (left; reflexivity).
  assert (Hma : move_ok is_nothrow_move_assignable
                        (move_fuse (armed 0 three))) by (left; reflexivity).
  split; [exact (armed_three_object 0)|]. split; [exact (armed_three_rep 0)|].
  split; [exact Hs|].
  split; [exact Hi|]. split; [exact Hmc|]. split; [exact Hma|].
  eexists. split; [vm_compute; reflexivity|].
  apply (Emplace_in_place_strong_guarantee (armed 0 three) _
           0 three_vector [1; 2; 3] 1 9 (armed_three_object 0)
           (armed_three_rep 0) Hs Hi Hmc Hma).
  vm_compute. reflexivity.
Defined.

Lemma PushBack_strong_guarantee_witness :
  objs (armed 0 three) !! 0 = Some three_vector ∧
  rep (heap (armed 0 three)) three_vector [1; 2; 3] ∧
  move_ok is_nothrow_move_constructible
          (move_fuse (armed 0 three)) ∧
  ∃ w', PushBack 0 9 (armed 0 three) = Throw w' ∧
        unchanged (armed 0 three) w' ∧
        objs w' !! 0 = Some three_vector ∧
        rep (heap w') three_vector [1; 2; 3].
Proof.
  assert (Hmc : move_ok is_nothrow_move_constructible
                        (move_fuse (armed 0 three))) by (left; reflexivity).
  split; [exact (armed_three_object 0)|]. split; [exact (armed_three_rep 0)|].
  split; [exact Hmc|].
  eexists. split; [vm_compute; reflexivity|].
  apply (PushBack_strong_guarantee (armed 0 three) _
           0 three_vector [1; 2; 3] 9 (armed_three_object 0)
           (armed_three_rep 0) Hmc).
  vm_compute. reflexivity.
Defined.

Lemma noexcept_never_throws_witness :
  is_noexcept (call_PopBack (T := nat) 0) = true ∧
  wf (armed 0 three) ∧ contract (call_PopBack 0) (armed 0 three) ∧
  ∃ w', run (call_PopBack 0) (armed 0 three) = Ok () w' ∧
        fuse w' = fuse (armed 0 three) ∧
        move_fuse w' = move_fuse (armed 0 three) ∧
        leaked w' = leaked (armed 0 three).
Proof.
  assert (Hn : is_noexcept (call_PopBack (T := nat) 0) = true) by reflexivity.
  assert (Hc : contract (call_PopBack (T := nat) 0) (armed 0 three))
    by (vm_compute; lia).
  split; [exact Hn|]. split; [exact (armed_three_wf 0)|]. split; [exact Hc|].
  exact (noexcept_never_throws (call_PopBack 0)
           (armed 0 three) Hn (armed_three_wf 0) Hc).
Defined.

Lemma Swap_exchanges_and_undoes_witness :
  objs target_and_source !! 0 = Some target_vector ∧
  objs target_and_source !! 1 = Some source_vector ∧
  (∃ w', Swap 0 1 target_and_source = Ok () w' ∧
         objs w' !! 0 = Some source_vector ∧
         objs w' !! 1 = Some target_vector ∧
         (∀ k, k ≠ 0 → k ≠ 1 → objs w' !! k = objs target_and_source !! k) ∧
         heap w' = heap target_and_source ∧
         dtors w' = dtors target_and_source) ∧
  Swap 1 0 target_and_source
  = Swap 0 1 target_and_source ∧
  (Swap 0 1;; Swap 0 1) target_and_source
  = Ok () target_and_source.
Proof.
  assert (H0 : objs target_and_source !! 0 = Some target_vector)
    by (vm_compute; reflexivity).
  assert (H1 : objs target_and_source !! 1 = Some source_vector)
    by (vm_compute; reflexivity).
  split; [exact H0|]. split; [exact H1|].
  exact (Swap_exchanges_and_undoes target_and_source 0 1
           target_vector source_vector H0 H1).
Defined.

Lemma index_checked_witness :
  objs three !! 0 = Some three_vector ∧
  rep (heap three) three_vector [1; 2; 3] ∧
  [1; 2; 3] !! 1 = Some 2 ∧
  index 0 1 three
  = Ok (buffer_ (data_ three_vector) +ₚ 1) three ∧
  read (buffer_ (data_ three_vector) +ₚ 1) three = Ok 2 three ∧
  length [1; 2; 3] ≤ 3 ∧
  index 0 3 three = Undefined.
Proof.
  assert (Hx : [1; 2; 3] !! 1 = Some 2) by reflexivity.
  assert (Hi : length [1; 2; 3] ≤ 3) by (simpl; lia).
  split; [exact three_object|]. split; [exact three_rep|]. split; [exact Hx|].
  destruct (index_checked three 0 three_vector [1; 2; 3] 1
              three_object three_rep) as [Hin _].
  destruct (index_checked three 0 three_vector [1; 2; 3] 3
              three_object three_rep) as [_ Hout].
  destruct (Hin 2 Hx) as [Ha Hb].
  split; [exact Ha|]. split; [exact Hb|]. split; [exact Hi|exact (Hout Hi)].
Defined.

Lemma iterators_span_elements_witness :
  objs three !! 0 = Some three_vector ∧
  rep (heap three) three_vector [1; 2; 3] ∧
  begin_ 0 three = Ok (Ptr (Some 2) 0) three ∧
  end_ 0 three = Ok (Ptr (Some 2) 3) three ∧
  Size 0 three = Ok 3 three ∧
  Capacity 0 three = Ok 4 three ∧
  read (Ptr (Some 2) 3) three = Undefined.
Proof.
  split; [exact three_object|]. split; [exact three_rep|].
  destruct (iterators_span_elements three 0 three_vector
              [1; 2; 3] three_object three_rep)
    as (Hb & He & _ & _ & Hs & Hc & _ & _ & _ & Hr).
  split; [exact Hb|]. split; [exact He|]. split; [exact Hs|].
  split; [exact Hc|exact Hr].
Defined.

Lemma PopBack_removes_last_witness :
  objs three !! 0 = Some three_vector ∧
  rep (heap three) three_vector [1; 2; 3] ∧
  [1; 2; 3] = [1; 2] ++ [3] ∧
  ∃ w' v', PopBack 0 three = Ok () w' ∧
           objs w' !! 0 = Some v' ∧
           rep (heap w') v' [1; 2] ∧
           data_ v' = data_ three_vector ∧
           size_ v' = size_ three_vector - 1 ∧
           dtors w' = S (dtors three) ∧ leaked w' = leaked three ∧
           fuse w' = fuse three ∧ move_fuse w' = move_fuse three.
Proof.
  assert (Hx : [1; 2; 3] = [1; 2] ++ [3]) by reflexivity.
  split; [exact three_object|]. split; [exact three_rep|]. split; [exact Hx|].
  destruct (PopBack_removes_last three 0 three_vector
              [1; 2; 3] three_object three_rep) as [_ Hpop].
  exact (Hpop [1; 2] 3 Hx).
Defined.

Lemma PushBack_appends_witness :
  objs three !! 0 = Some three_vector ∧
  rep (heap three) three_vector [1; 2; 3] ∧ no_faults three ∧
  ∃ w' v', PushBack 0 4 three = Ok () w' ∧
           objs w' !! 0 = Some v' ∧
           rep (heap w') v' ([1; 2; 3] ++ [4]) ∧
           size_ v' = size_ three_vector + 1 ∧
           data_ v' = data_ three_vector.
Proof.
  split; [exact three_object|]. split; [exact three_rep|].
  split; [exact three_no_faults|].
  destruct (PushBack_appends three 0 three_vector
              [1; 2; 3] 4 three_object three_rep) as (Hret & Hprop & _).
  destruct (Hret three_no_faults) as [w' Hrun].
  destruct (Hprop w' Hrun) as (v' & H1 & H2 & H3 & H4 & _).
  exists w', v'. split; [exact Hrun|]. split; [exact H1|]. split; [exact H2|].
  split; [exact H3|]. apply H4. simpl. lia.
Defined.

Lemma PushBack_PopBack_round_trip_witness :
  objs three !! 0 = Some three_vector ∧
  rep (heap three) three_vector [1; 2; 3] ∧ no_faults three ∧
  ∃ w' v', (PushBack 0 4;; PopBack 0) three = Ok () w' ∧
           objs w' !! 0 = Some v' ∧
           rep (heap w') v' [1; 2; 3] ∧
           size_ v' = size_ three_vector ∧
           capacity_ (data_ three_vector) ≤ capacity_ (data_ v') ∧
           leaked w' = leaked three.
Proof.
  split; [exact three_object|]. split; [exact three_rep|].
  split; [exact three_no_faults|].
  destruct (PushBack_PopBack_round_trip three 0
              three_vector [1; 2; 3] 4 three_object three_rep)
    as [Hret Hprop].
  destruct (Hret three_no_faults) as [w' Hrun].
  destruct (Hprop w' Hrun) as (v' & Hrest).
  exists w', v'. split; [exact Hrun|exact Hrest].
Defined.

Lemma Insert_Erase_round_trip_witness :
  objs three !! 0 = Some three_vector ∧
  rep (heap three) three_vector [1; 2; 3] ∧ 1 ≤ length [1; 2; 3] ∧
  no_faults three ∧
  ∃ p w' v',
    (p <- Insert 0 (buffer_ (data_ three_vector) +ₚ 1) 9;;
     Erase 0 p) three = Ok p w' ∧
    objs w' !! 0 = Some v' ∧
    rep (heap w') v' [1; 2; 3] ∧
    size_ v' = size_ three_vector ∧
    p = buffer_ (data_ v') +ₚ 1 ∧
    leaked w' = leaked three.
Proof.
  assert (Hi : 1 ≤ length [1; 2; 3]) by (simpl; lia).
  split; [exact three_object|]. split; [exact three_rep|]. split; [exact Hi|].
  split; [exact three_no_faults|].
  destruct (Insert_Erase_round_trip three 0 three_vector
              [1; 2; 3] 1 9 three_object three_rep Hi) as [Hret Hprop].
  destruct (Hret three_no_faults) as (p & w' & Hrun).
  destruct (Hprop p w' Hrun) as (v' & Hrest).
  exists p, w', v'. split; [exact Hrun|exact Hrest].
Defined.


Lemma Vector_dtor_releases_witness :
  objs three !! 0 = Some three_vector ∧
  rep (heap three) three_vector [1; 2; 3] ∧
  ∃ w', Vector_dtor 0 three = Ok () w' ∧
        objs w' = delete 0 (objs three) ∧
        heap w' !! 2 = None ∧
        dtors w' = length [1; 2; 3] + dtors three ∧
        leaked w' = leaked three.
Proof.
  split; [exact three_object|]. split; [exact three_rep|].
  destruct (Vector_dtor_releases three 0 three_vector
              [1; 2; 3] three_object three_rep)
    as (w' & H1 & H2 & H3 & _ & H5 & H6 & _).
  exists w'. split; [exact H1|]. split; [exact H2|].
  split; [apply H3; reflexivity|]. split; [exact H5|exact H6].
Defined.

Lemma lifetime_leaves_no_trace_witness :
  objs three !! 5 = None ∧ no_faults three ∧
  ∃ w', (Vector_default 5;; PushBack_all 5 [7; 8; 9];;
         Vector_dtor 5) three = Ok () w' ∧
        heap w' = heap three ∧ objs w' = objs three ∧
        leaked w' = leaked three ∧
        length [7; 8; 9] ≤ dtors w' - dtors three.
Proof.
  assert (H : objs three !! 5 = None) by (vm_compute; reflexivity).
  split; [exact H|]. split; [exact three_no_faults|].
  destruct (lifetime_leaves_no_trace three 5 [7; 8; 9] H)
    as [Hret Hprop].
  destruct (Hret three_no_faults) as [w' Hrun].
  exists w'. split; [exact Hrun|exact (Hprop w' Hrun)].
Defined.

Lemma no_object_lost_witness :
  wf three ∧ contract (call_Resize 0 1) three ∧
  ∃ w', run (call_Resize 0 1) three = Ok () w' ∧
        leaked w' = leaked three.
Proof.
  assert (Hc : contract (call_Resize (T := nat) 0 1) three)
    by (vm_compute; exact I).
  split; [exact three_wf|]. split; [exact Hc|].
  eexists. split; [vm_compute; reflexivity|].
  apply (no_object_lost (call_Resize 0 1) three _
           three_wf Hc).
  vm_compute. reflexivity.
Defined.

Lemma other_vectors_untouched_witness :
  wf target_and_source ∧
  contract (call_PushBack 0 6) target_and_source ∧
  mutated (call_PushBack (T := nat) 0 6) = Some 0 ∧ 1 ≠ 0 ∧
  objs target_and_source !! 1 = Some source_vector ∧
  rep (heap target_and_source) source_vector [7; 8; 9] ∧
  ∃ w', run (call_PushBack 0 6) target_and_source
        = Ok () w' ∧
        objs w' !! 1 = Some source_vector ∧
        rep (heap w') source_vector [7; 8; 9].
Proof.
  assert (Hc : contract (call_PushBack (T := nat) 0 6) target_and_source)
    by (vm_compute; exact I).
  assert (Hm : mutated (call_PushBack (T := nat) 0 6) = Some 0) by reflexivity.
  assert (Hne : 1 ≠ 0) by lia.
  assert (H1 : objs target_and_source !! 1 = Some source_vector)
    by (vm_compute; reflexivity).
  split; [exact target_and_source_wf|]. split; [exact Hc|].
  split; [exact Hm|]. split; [exact Hne|]. split; [exact H1|].
  split; [exact source_rep|].
  eexists. split; [vm_compute; reflexivity|].
  apply (other_vectors_untouched (call_PushBack 0 6)
           target_and_source _ 0 1 source_vector [7; 8; 9]
           target_and_source_wf Hc Hm Hne H1 source_rep).
  vm_compute. reflexivity.
Defined.

Lemma copy_assign_outside_raw_path_witness :
  wf target_and_source ∧ 1 ≠ 0 ∧
  objs target_and_source !! 1 = Some source_vector ∧
  objs target_and_source !! 0 = Some target_vector ∧
  rep (heap target_and_source) source_vector [7; 8; 9] ∧
  rep (heap target_and_source) target_vector [5] ∧
  (capacity_ (data_ source_vector) < length [5] ∨
   length [5] ≤ length [7; 8; 9]) ∧
  no_faults target_and_source ∧
  ∃ w' v', operator_assign 1 0 target_and_source = Ok () w' ∧
           objs w' !! 1 = Some v' ∧
           objs w' !! 0 = Some target_vector ∧
           rep (heap w') v' [5] ∧ rep (heap w') target_vector [5] ∧
           data_ v' = data_ source_vector ∧
           dtors w' = length [7; 8; 9] - length [5] + dtors target_and_source.
Proof.
  assert (Hne : 1 ≠ 0) by lia.
  assert (H1 : objs target_and_source !! 1 = Some source_vector)
    by (vm_compute; reflexivity).
  assert (H0 : objs target_and_source !! 0 = Some target_vector)
    by (vm_compute; reflexivity).
  assert (Hcase : capacity_ (data_ source_vector) < length [5] ∨
                  length [5] ≤ length [7; 8; 9]) by (right; simpl; lia).
  assert (Hnf : no_faults target_and_source) by (split; vm_compute; reflexivity).
  split; [exact target_and_source_wf|]. split; [exact Hne|].
  split; [exact H1|]. split; [exact H0|]. split; [exact source_rep|].
  split; [exact target_rep|]. split; [exact Hcase|]. split; [exact Hnf|].
  destruct (copy_assign_outside_raw_path target_and_source 1 0
              source_vector target_vector [7; 8; 9] [5]
              target_and_source_wf Hne H1 H0 source_rep target_rep Hcase)
    as (_ & Hret & Hprop).
  destruct (Hret Hnf) as [w' Hrun].
  destruct (Hprop w' Hrun) as (v' & A & B & C & D & _ & E & _).
  exists w', v'. split; [exact Hrun|]. split; [exact A|]. split; [exact B|].
  split; [exact C|]. split; [exact D|]. apply E. simpl. lia.
Defined.

Lemma copy_assign_realloc_strong_guarantee_witness :
  1 ≠ 0 ∧
  objs (armed 2 empty_and_three) !! 1 = Some empty_vector ∧
  objs (armed 2 empty_and_three) !! 0 = Some three_vector ∧
  rep (heap (armed 2 empty_and_three)) empty_vector [] ∧
  rep (heap (armed 2 empty_and_three)) three_vector [1; 2; 3] ∧
  capacity_ (data_ empty_vector) < length [1; 2; 3] ∧
  ∃ w', operator_assign 1 0 (armed 2 empty_and_three) = Throw w' ∧
        unchanged (armed 2 empty_and_three) w' ∧
        rep (heap w') empty_vector [] ∧
        rep (heap w') three_vector [1; 2; 3].
Proof.
  assert (Hne : 1 ≠ 0) by lia.
  assert (H1 : objs (armed 2 empty_and_three) !! 1 = Some empty_vector)
    by (vm_compute; reflexivity).
  assert (H0 : objs (armed 2 empty_and_three) !! 0 = Some three_vector)
    by (vm_compute; reflexivity).
  assert (Hr1 : rep (heap (armed 2 empty_and_three)) empty_vector [])
    by apply rep_empty.
  assert (Hr0 : rep (heap (armed 2 empty_and_three)) three_vector [1; 2; 3])
    by (apply rep_block_at; [vm_compute; reflexivity|lia|reflexivity|lia]).
  assert (Hlt : capacity_ (data_ empty_vector) < length [1; 2; 3])
    by (simpl; lia).
  split; [exact Hne|]. split; [exact H1|]. split; [exact H0|].
  split; [exact Hr1|]. split; [exact Hr0|]. split; [exact Hlt|].
  eexists. split; [vm_compute; reflexivity|].
  apply (copy_assign_realloc_strong_guarantee (armed 2 empty_and_three) _ 1 0
           empty_vector three_vector [] [1; 2; 3] Hne H1 H0 Hr1 Hr0 Hlt).
  vm_compute. reflexivity.
Defined.

Lemma armed_target_and_source_wf k : wf (armed k target_and_source).
Proof.
  apply (wf_two (armed k target_and_source) 0 1 target_vector source_vector
           [5] [7; 8; 9]);
    [vm_compute; reflexivity|lia| | |vm_compute; congruence];
    (apply rep_block_at; [vm_compute; reflexivity|lia|reflexivity|lia]).
Qed.

Lemma Erase_rejects_end_and_beyond_witness :
  objs three !! 0 = Some three_vector ∧
  rep (heap three) three_vector [1; 2; 3] ∧
  length [1; 2; 3] ≤ 5 ∧
  Erase 0 (buffer_ (data_ three_vector) +ₚ 5) three = Undefined.
Proof.
  assert (Hi : length [1; 2; 3] ≤ 5) by (simpl; lia).
  split; [exact three_object|]. split; [exact three_rep|]. split; [exact Hi|].
  exact (Erase_rejects_end_and_beyond three 0 three_vector [1; 2; 3] 5
           three_object three_rep Hi).
Defined.



End IntWitnesses.

Section CopiedWitnesses.
#[local] Existing Instance copied_Element.

Lemma full_two_object : objs full_two !! 0 = Some full_two_vector.
Proof. vm_compute. reflexivity. Defined.


Lemma full_two_rep : rep (heap full_two) full_two_vector [1; 2].
Proof. apply rep_block_at; [vm_compute; reflexivity|lia|reflexivity|lia]. Defined.


Lemma spare_two_object : objs spare_two !! 0 = Some spare_two_vector.
Proof. vm_compute. reflexivity. Defined.


Lemma spare_two_rep : rep (heap spare_two) spare_two_vector [1; 2].
Proof. apply rep_block_at; [vm_compute; reflexivity|lia|reflexivity|lia]. Defined.


Lemma armed_full_two_object k : objs (armed k full_two) !! 0 = Some full_two_vector.
Proof. vm_compute. reflexivity. Qed.

Lemma armed_full_two_rep k : rep (heap (armed k full_two)) full_two_vector [1; 2].
Proof. apply rep_block_at; [vm_compute; reflexivity|lia|reflexivity|lia]. Qed.

Lemma armed_move_spare_two_object k :
  objs (armed_move k spare_two) !! 0 = Some spare_two_vector.
Proof. vm_compute. reflexivity. Qed.

Lemma armed_move_spare_two_rep k :
  rep (heap (armed_move k spare_two)) spare_two_vector [1; 2].
Proof. apply rep_block_at; [vm_compute; reflexivity|lia|reflexivity|lia]. Qed.

Lemma Reserve_strong_guarantee_witness :
  objs (armed 2 full_two) !! 0 = Some full_two_vector ∧
  rep (heap (armed 2 full_two)) full_two_vector [1; 2] ∧
  move_ok is_nothrow_move_constructible
          (move_fuse (armed 2 full_two)) ∧
  ∃ w', Reserve 0 10 (armed 2 full_two) = Throw w' ∧
        unchanged (armed 2 full_two) w' ∧
        objs w' !! 0 = Some full_two_vector ∧
        rep (heap w') full_two_vector [1; 2].
Proof.
  assert (Hmv : move_ok is_nothrow_move_constructible
                        (move_fuse (armed 2 full_two)))
    by (right; vm_compute; reflexivity).
  split; [exact (armed_full_two_object 2)|].
  split; [exact (armed_full_two_rep 2)|].
  split; [exact Hmv|].
  eexists. split; [vm_compute; reflexivity|].
  apply (Reserve_strong_guarantee (armed 2 full_two) _ 0
           full_two_vector [1; 2] 10 (armed_full_two_object 2)
           (armed_full_two_rep 2) Hmv).
  vm_compute. reflexivity.
Defined.

Lemma Erase_throw_keeps_vector_valid_witness :
  objs (armed_move 0 spare_two) !! 0 = Some spare_two_vector ∧
  rep (heap (armed_move 0 spare_two)) spare_two_vector [1; 2] ∧
  0 < length [1; 2] ∧
  ∃ w' ys, Erase 0 (buffer_ (data_ spare_two_vector) +ₚ 0)
             (armed_move 0 spare_two) = Throw w' ∧
           objs w' = objs (armed_move 0 spare_two) ∧
           rep (heap w') spare_two_vector ys ∧
           length ys = length [1; 2] ∧
           dtors w' = dtors (armed_move 0 spare_two) ∧
           leaked w' = leaked (armed_move 0 spare_two).
Proof.
  assert (Hi : 0 < length [1; 2]) by (simpl; lia).
  split; [exact (armed_move_spare_two_object 0)|].
  split; [exact (armed_move_spare_two_rep 0)|].
  split; [exact Hi|].
  assert (Hrun : ∃ w', Erase 0 (buffer_ (data_ spare_two_vector) +ₚ 0)
                         (armed_move 0 spare_two) = Throw w')
    by (eexists; vm_compute; reflexivity).
  destruct Hrun as [w' Hrun].
  destruct (Erase_throw_keeps_vector_valid (armed_move 0 spare_two) w' 0
              spare_two_vector [1; 2] 0 (armed_move_spare_two_object 0)
              (armed_move_spare_two_rep 0) Hi Hrun)
    as (ys & A & B & C & _ & _ & D & E).
  exists w', ys. split; [exact Hrun|]. split; [exact A|]. split; [exact B|].
  split; [exact C|]. split; [exact D|exact E].
Defined.

Lemma Emplace_failed_shift_orphans_last_witness :
  objs (armed_move 1 spare_two) !! 0 = Some spare_two_vector ∧
  rep (heap (armed_move 1 spare_two)) spare_two_vector [1; 2] ∧
  size_ spare_two_vector < capacity_ (data_ spare_two_vector) ∧
  0 < length [1; 2] ∧
  passes 1 (fuse (armed_move 1 spare_two)) ∧
  is_nothrow_move_assignable = false ∧
  move_fuse (armed_move 1 spare_two)
  = Some (if is_nothrow_move_constructible then 0 else 1) ∧
  ∃ w' b xl cs,
    Emplace 0 (buffer_ (data_ spare_two_vector) +ₚ 0) 9
      (armed_move 1 spare_two) = Throw w' ∧
    objs w' = objs (armed_move 1 spare_two) ∧
    buffer_ (data_ spare_two_vector) = Ptr (Some b) 0 ∧
    heap w' !! b = Some cs ∧
    [1; 2] !! (size_ spare_two_vector - 1) = Some xl ∧
    cs !! size_ spare_two_vector = Some (Some xl) ∧
    ¬ vector_inv (heap w') spare_two_vector ∧ ¬ wf w'.
Proof.
  assert (Hs : size_ spare_two_vector < capacity_ (data_ spare_two_vector))
    by (simpl; lia).
  assert (Hi : 0 < length [1; 2]) by (simpl; lia).
  assert (Hp : passes 1 (fuse (armed_move 1 spare_two)))
    by (vm_compute; exact I).
  assert (Hnma : is_nothrow_move_assignable = false) by reflexivity.
  assert (Hmf : move_fuse (armed_move 1 spare_two)
                = Some (if is_nothrow_move_constructible then 0 else 1))
    by reflexivity.
  split; [exact (armed_move_spare_two_object 1)|].
  split; [exact (armed_move_spare_two_rep 1)|].
  split; [exact Hs|]. split; [exact Hi|]. split; [exact Hp|].
  split; [exact Hnma|]. split; [exact Hmf|].
  exact (Emplace_failed_shift_orphans_last (armed_move 1 spare_two) 0
           spare_two_vector [1; 2] 0 9 (armed_move_spare_two_object 1)
           (armed_move_spare_two_rep 1)
           Hs Hi Hp Hnma Hmf).
Defined.


End CopiedWitnesses.
